(** * Signal-graph composition in Tone.js: Follower, GreaterThan,
      SignalBase.connect and PingPongDelay

    A shallow embedding of [Tone/component/Follower.js] and of the three
    units kept in [Tone/signal/GreaterThan.js] ([Tone.GreaterThan],
    [Tone.SignalBase], [Tone.PingPongDelay]).

    The audio engine is an explicit store: a heap of units addressed by
    stable indices, a list of directed connections, the list of released
    units and the trace of the engine calls made so far.  Methods are
    computations in a state-and-exception monad over that store.  A
    fuel-bounded evaluator gives the value a unit puts out at a time. *)

From Stdlib Require Import ZArith QArith Qcanon Lia.
From stdpp Require Import base option list numbers.

Local Open Scope Qc_scope.

(** ** JavaScript numbers

    Numbers are exact rationals extended with the two infinities and NaN:
    rounding is left out, the special values are kept because [1/0],
    [Math.max] and the comparisons treat them in their own way. *)

Inductive jsnum : Type :=
| Fin (q : Qc)
| PInf
| NInf
| NaN.

Definition Qc_ltb (a b : Qc) : bool :=
  match a ?= b with Lt => true | _ => false end.

Definition Qc_leb (a b : Qc) : bool :=
  match a ?= b with Gt => false | _ => true end.

Definition Qc_eqb (a b : Qc) : bool :=
  match a ?= b with Eq => true | _ => false end.

Definition jzero : jsnum := Fin 0.
Definition jone : jsnum := Fin 1.

Definition jneg (a : jsnum) : jsnum :=
  match a with
  | Fin q => Fin (- q)
  | PInf => NInf
  | NInf => PInf
  | NaN => NaN
  end.

Definition jadd (a b : jsnum) : jsnum :=
  match a, b with
  | NaN, _ | _, NaN => NaN
  | Fin x, Fin y => Fin (x + y)
  | PInf, NInf | NInf, PInf => NaN
  | PInf, _ | _, PInf => PInf
  | NInf, _ | _, NInf => NInf
  end.

Definition jsub (a b : jsnum) : jsnum := jadd a (jneg b).

(** Sign of a number: [Some true] positive, [Some false] negative,
    [None] for zero and NaN. *)
Definition jsign (a : jsnum) : option bool :=
  match a with
  | Fin q => if Qc_ltb 0 q then Some true
             else if Qc_ltb q 0 then Some false else None
  | PInf => Some true
  | NInf => Some false
  | NaN => None
  end.

Definition jmul (a b : jsnum) : jsnum :=
  match a, b with
  | NaN, _ | _, NaN => NaN
  | Fin x, Fin y => Fin (x * y)
  | _, _ =>
      match jsign a, jsign b with
      | Some s, Some s' => if Bool.eqb s s' then PInf else NInf
      | _, _ => NaN
      end
  end.

(** [1 / a]; the sign of zero is not tracked, [1 / 0] is [+Infinity]. *)
Definition jinv (a : jsnum) : jsnum :=
  match a with
  | Fin q => if Qc_eqb q 0 then PInf else Fin (/ q)
  | PInf | NInf => Fin 0
  | NaN => NaN
  end.

Definition jabs (a : jsnum) : jsnum :=
  match a with
  | Fin q => if Qc_ltb q 0 then Fin (- q) else Fin q
  | PInf | NInf => PInf
  | NaN => NaN
  end.

(** [a < b] of JavaScript: false as soon as one side is NaN. *)
Definition jlt (a b : jsnum) : bool :=
  match a, b with
  | NaN, _ | _, NaN => false
  | Fin x, Fin y => Qc_ltb x y
  | NInf, NInf | PInf, _ | _, NInf => false
  | NInf, _ | _, PInf => true
  end.

Definition jgt (a b : jsnum) : bool := jlt b a.

(** [a <= b] of JavaScript. *)
Definition jle (a b : jsnum) : bool :=
  match a, b with
  | NaN, _ | _, NaN => false
  | Fin x, Fin y => Qc_leb x y
  | NInf, _ | _, PInf => true
  | PInf, _ | _, NInf => false
  end.

(** [Math.max(a, b)]: NaN when an argument is NaN. *)
Definition Math_max (a b : jsnum) : jsnum :=
  match a, b with
  | NaN, _ | _, NaN => NaN
  | _, _ => if jlt a b then b else a
  end.

Definition is_NaN (a : jsnum) : bool :=
  match a with NaN => true | _ => false end.

(** ** The store *)

(** Heap addresses. *)
Abbreviation oid := nat.

(** The constructor functions that occur in the two files. *)
Inductive ctor : Type :=
| Tone_Tone
| Tone_SignalBase
| Tone_Signal
| Tone_Abs
| Tone_Subtract
| Tone_Multiply
| Tone_WaveShaper
| Tone_GreaterThanZero
| Tone_GreaterThan
| Tone_Follower
| Tone_StereoXFeedbackEffect
| Tone_PingPongDelay
| AudioNode
| GainNode
| DelayNode
| BiquadFilterNode
| AudioParam.

Global Instance ctor_eq_dec : EqDecision ctor.
Proof. solve_decision. Defined.

(** [Tone.extend(child, parent)]: the prototype chain.  The
    [Tone.extend] calls of the sources are those of [Tone_SignalBase],
    [Tone_GreaterThan], [Tone_Follower] and [Tone_PingPongDelay]; the
    others follow the [@extends] tags and the base-class comment of
    [Tone.SignalBase]. *)
Definition extends (c : ctor) : option ctor :=
  match c with
  | Tone_Tone => None
  | Tone_SignalBase => Some Tone_Tone
  | Tone_Signal => Some Tone_SignalBase
  | Tone_Abs | Tone_Subtract | Tone_Multiply
  | Tone_WaveShaper | Tone_GreaterThanZero => Some Tone_SignalBase
  | Tone_GreaterThan => Some Tone_Signal
  | Tone_Follower => Some Tone_Tone
  | Tone_StereoXFeedbackEffect => Some Tone_Tone
  | Tone_PingPongDelay => Some Tone_StereoXFeedbackEffect
  | AudioNode => None
  | GainNode | DelayNode | BiquadFilterNode => Some AudioNode
  | AudioParam => None
  end.

(** [x instanceof C] for an object built by [c]: [C] is on the prototype
    chain of [c].  The chain is at most four links long. *)
Fixpoint on_chain (n : nat) (c C : ctor) : bool :=
  bool_decide (c = C) ||
  match n with
  | O => false
  | S n' => match extends c with
            | Some p => on_chain n' p C
            | None => false
            end
  end.

Definition instanceof (c C : ctor) : bool := on_chain 4 c C.

(** A proper subclass. *)
Definition subclass_of (c C : ctor) : bool :=
  instanceof c C && negb (bool_decide (c = C)).

(** Names of the control parameters of the units. *)
Inductive pname : Type :=
| P_value
| P_gain
| P_frequency
| P_Q
| P_delayTime.

Global Instance pname_eq_dec : EqDecision pname.
Proof. solve_decision. Defined.

(** An [AudioParam]: the held value and the automation scheduled on it,
    each event a time and a target value. *)
Record param : Type := mkParam {
  value : jsnum;
  events : list (Qc * jsnum)
}.

Definition held (v : jsnum) : param := mkParam v [].

(** What a method can be handed as a unit: an object of the heap, an
    entry of a unit's [input] array, or a parameter of a unit. *)
Inductive ref : Type :=
| RNode (n : oid)
| RInput (n : oid) (i : nat)
| RParam (n : oid) (p : pname).

Global Instance ref_eq_dec : EqDecision ref.
Proof. solve_decision. Defined.

(** The objects of the heap.  Native nodes and the signal operators are
    primitives; a composite is the [input] and [output] of a [Tone]
    object, which alias ports of other objects. *)
Inductive node : Type :=
| UGain (gain : param)
| UDelay (delayTime : param) (maxDelayTime : jsnum)
| UBiquad (frequency : param) (Q : param)
| USignal (_value : param)
| UAbs
| USubtract (v : jsnum)
| UMultiply (v : jsnum)
| UWaveShaper (curve : option (jsnum -> jsnum))
| UGreaterThanZero
| UComposite (c : ctor) (input : list ref) (output : option ref).

Definition constructor_of (u : node) : ctor :=
  match u with
  | UGain _ => GainNode
  | UDelay _ _ => DelayNode
  | UBiquad _ _ => BiquadFilterNode
  | USignal _ => Tone_Signal
  | UAbs => Tone_Abs
  | USubtract _ => Tone_Subtract
  | UMultiply _ => Tone_Multiply
  | UWaveShaper _ => Tone_WaveShaper
  | UGreaterThanZero => Tone_GreaterThanZero
  | UComposite c _ _ => c
  end.

Definition get_param (u : node) (p : pname) : option param :=
  match u, p with
  | UGain g, P_gain => Some g
  | UDelay d _, P_delayTime => Some d
  | UBiquad f _, P_frequency => Some f
  | UBiquad _ q, P_Q => Some q
  | USignal v, P_value => Some v
  | _, _ => None
  end.

Definition set_param (u : node) (p : pname) (x : param) : option node :=
  match u, p with
  | UGain _, P_gain => Some (UGain x)
  | UDelay _ m, P_delayTime => Some (UDelay x m)
  | UBiquad _ q, P_frequency => Some (UBiquad x q)
  | UBiquad f _, P_Q => Some (UBiquad f x)
  | USignal _, P_value => Some (USignal x)
  | _, _ => None
  end.

(** A connection [(source, outputIndex) -> (destination port)]; the
    destination is an [RInput] or an [RParam]. *)
Record edge : Type := mkEdge {
  e_src : oid;
  e_out : nat;
  e_dst : ref
}.

Global Instance edge_eq_dec : EqDecision edge.
Proof. solve_decision. Defined.

(** The calls made on the engine, in order. *)
Inductive call : Type :=
| CCreate (n : oid)
| CCancelScheduledValues (r : ref) (t : Qc)
| CSetValue (r : ref) (v : jsnum)
| CConnect (e : edge)
| CDisconnect (n : oid)
| CRelease (n : oid)
| CSetMap (n : oid).

Record engine : Type := mkEngine {
  heap : list node;
  edges : list edge;
  released : list oid;
  trace : list call
}.

Definition empty_engine : engine := mkEngine [] [] [] [].

(** ** The monad of methods: state and exceptions *)

Inductive js_error : Type :=
| TypeError
| InvalidAccessError.

Inductive result (A : Type) : Type :=
| Ok (a : A) (s : engine)
| Throw (e : js_error) (s : engine).
Global Arguments Ok {A} a s.
Global Arguments Throw {A} e s.

Definition M (A : Type) : Type := engine -> result A.

Global Instance M_ret : MRet M := fun A a s => Ok a s.
Global Instance M_bind : MBind M := fun A B f m s =>
  match m s with
  | Ok a s' => f a s'
  | Throw e s' => Throw e s'
  end.

Definition throw {A : Type} (e : js_error) : M A := fun s => Throw e s.
Definition get_engine : M engine := fun s => Ok s s.
Definition modify (f : engine -> engine) : M () := fun s => Ok () (f s).

Definition state_of {A : Type} (r : result A) : engine :=
  match r with Ok _ s | Throw _ s => s end.

Definition succeeded {A : Type} (r : result A) : bool :=
  match r with Ok _ _ => true | Throw _ _ => false end.

Definition log (c : call) : M () :=
  modify (fun s => mkEngine (heap s) (edges s) (released s) (trace s ++ [c])).

(** Reading a property of [null] or [undefined] is a [TypeError]. *)
Definition deref {A : Type} (field : option A) : M A :=
  match field with
  | Some x => mret x
  | None => throw TypeError
  end.

Definition get_node (n : oid) : M node :=
  s ← get_engine; deref (heap s !! n).

Definition put_node (n : oid) (u : node) : M () :=
  modify (fun s => mkEngine (<[n:=u]> (heap s)) (edges s) (released s) (trace s)).

(** [new C(...)] and [context.createX()]: a fresh object. *)
Definition alloc (u : node) : M oid :=
  s ← get_engine;
  let n := length (heap s) in
  modify (fun s => mkEngine (heap s ++ [u]) (edges s) (released s) (trace s));;
  log (CCreate n);;
  mret n.

Definition read_param (r : ref) : M param :=
  match r with
  | RParam n p => u ← get_node n; deref (get_param u p)
  | _ => throw TypeError
  end.

Definition write_param (r : ref) (x : param) : M () :=
  match r with
  | RParam n p => u ← get_node n; u' ← deref (set_param u p x); put_node n u'
  | _ => throw TypeError
  end.

(** [param.cancelScheduledValues(t)]: drops the events at or after [t]. *)
Definition cancel_from (t : Qc) (evs : list (Qc * jsnum)) : list (Qc * jsnum) :=
  filter (fun ev => Qc_ltb ev.1 t = true) evs.

Definition cancelScheduledValues (r : ref) (t : Qc) : M () :=
  x ← read_param r;
  write_param r (mkParam (value x) (cancel_from t (events x)));;
  log (CCancelScheduledValues r t).

(** A parameter after [cancelScheduledValues(0)] and [value = 0]. *)
Definition zeroed (x : param) : param :=
  mkParam jzero (cancel_from 0 (events x)).

(** [param.value = v]. *)
Definition set_value (r : ref) (v : jsnum) : M () :=
  x ← read_param r;
  write_param r (mkParam v (events x));;
  log (CSetValue r v).

(** The engine's [connect]: the same connection made twice is one
    connection. *)
Definition add_conn (e : edge) (es : list edge) : list edge :=
  if bool_decide (e ∈ es) then es else es ++ [e].

Definition add_edge (e : edge) : M () :=
  modify (fun s =>
    mkEngine (heap s) (add_conn e (edges s)) (released s) (trace s));;
  log (CConnect e).

(** [node.disconnect()]: removes every connection leaving the unit. *)
Definition disconnect (n : oid) : M () :=
  _ ← get_node n;
  modify (fun s =>
    mkEngine (heap s)
             (filter (fun e => e_src e ≠ n) (edges s))
             (released s) (trace s));;
  log (CDisconnect n).

(** [unit.dispose()] of a primitive unit: its connections go and the unit
    is released. *)
Definition release (n : oid) : M () :=
  _ ← get_node n;
  modify (fun s =>
    mkEngine (heap s)
             (filter (fun e => e_src e ≠ n) (edges s))
             (released s ++ [n]) (trace s));;
  log (CRelease n).

(** ** Tone core: [connect], [chain], [fan] *)

Definition default_arg (x : option nat) (d : nat) : nat :=
  match x with Some v => v | None => d end.

Definition port_of (r : ref) : ref :=
  match r with
  | RNode m => RInput m 0
  | _ => r
  end.

(** The port a destination stands for: a parameter and an input entry
    are themselves; a primitive is its input [inputNumber]; a composite
    is the port its [input] aliases. *)
Definition input_of (h : list node) (nd : ref) (inputNumber : option nat)
    : option ref :=
  match nd with
  | RParam n p => u ← h !! n; _ ← get_param u p; Some nd
  | RInput n i => _ ← h !! n; Some nd
  | RNode n =>
      u ← h !! n;
      match u with
      | UComposite _ inputs _ => port_of <$> inputs !! default_arg inputNumber 0
      | _ => Some (RInput n (default_arg inputNumber 0))
      end
  end.

(** The unit whose output carries the signal of [this]. *)
Definition output_of (h : list node) (this : oid) : option oid :=
  u ← h !! this;
  match u with
  | UComposite _ _ (Some (RNode o)) => Some o
  | UComposite _ _ _ => None
  | _ => Some this
  end.

(** [node.constructor]. *)
Definition ctor_of_ref (h : list node) (nd : ref) : option ctor :=
  match nd with
  | RNode n => constructor_of <$> h !! n
  | RInput n _ => _ ← h !! n; Some AudioNode
  | RParam n p => u ← h !! n; _ ← get_param u p; Some AudioParam
  end.

(** A property read off the heap; [undefined] is not usable. *)
Definition lookup_heap {A : Type} (f : list node -> option A) : M A :=
  s ← get_engine; deref (f (heap s)).

(** Modelled from the spec: [Tone.prototype.connect] is not under src.
    A connection is a directed edge
    [(sourceUnit, outputIndex) -> (destUnit, inputIndex)], both indices
    default to 0, and a composite's ports alias internal ports. *)
Definition Tone_connect (this : oid) (nd : ref)
    (outputNumber inputNumber : option nat) : M () :=
  src ← lookup_heap (fun h => output_of h this);
  dst ← lookup_heap (fun h => input_of h nd inputNumber);
  add_edge (mkEdge src (default_arg outputNumber 0) dst).

(** [node._value] of a [Tone.Signal]. *)
Definition field__value (nd : ref) : M ref :=
  match nd with
  | RNode n => mret (RParam n P_value)
  | _ => throw TypeError
  end.

(** [Tone.SignalBase.prototype.connect]. *)
Definition SignalBase_connect (this : oid) (nd : ref)
    (outputNumber inputNumber : option nat) : M () :=
  c ← lookup_heap (fun h => ctor_of_ref h nd);
  (if bool_decide (c = Tone_Signal) then
     v ← field__value nd;
     cancelScheduledValues v 0;;
     set_value v jzero
   else if instanceof c AudioParam then
     cancelScheduledValues nd 0;;
     set_value nd jzero
   else mret ());;
  Tone_connect this nd outputNumber inputNumber.

(** Which [connect] an object has: [Tone.SignalBase.prototype.connect]
    for the signal classes and for [Tone.Follower], which borrows it;
    the plain one otherwise. *)
Definition has_signal_connect (c : ctor) : bool :=
  instanceof c Tone_SignalBase || bool_decide (c = Tone_Follower).

Definition connect (this : oid) (nd : ref)
    (outputNumber inputNumber : option nat) : M () :=
  u ← get_node this;
  if has_signal_connect (constructor_of u)
  then SignalBase_connect this nd outputNumber inputNumber
  else Tone_connect this nd outputNumber inputNumber.

(** A unit that can be the source of the next link of a chain. *)
Definition as_unit (r : ref) : M oid :=
  match r with
  | RNode n => mret n
  | _ => throw TypeError
  end.

(** Modelled from the spec: [Tone.prototype.chain] is not under src.
    [a.chain(b, c, d)] wires [a -> b -> c -> d], each link with the
    [connect] of its source. *)
Fixpoint chain (this : oid) (units : list ref) : M () :=
  match units with
  | [] => mret ()
  | u :: rest =>
      connect this u None None;;
      match rest with
      | [] => mret ()
      | _ => n ← as_unit u; chain n rest
      end
  end.

(** Modelled from the spec: [Tone.prototype.fan] is not under src.
    [a.fan(b, c)] connects [a] to each of [b], [c]. *)
Fixpoint fan (this : oid) (units : list ref) : M () :=
  match units with
  | [] => mret ()
  | u :: rest => connect this u None None;; fan this rest
  end.

(** ** What the graph computes

    Time is in seconds.  The environment gives what comes from outside:
    the signal that enters a unit's first input from beyond the graph,
    and the response of each filter, a primitive of the engine whose
    arithmetic is not modelled. *)

Record env : Type := mkEnv {
  ext_in : oid -> Qc -> jsnum;
  biquad : oid -> Qc -> jsnum
}.

(** Modelled from the spec: [Tone.Abs] is not under src.  The
    absolute-value unit: single input, output [|x|]. *)
Definition Abs_out (x : jsnum) : jsnum := jabs x.

(** Modelled from the spec: [Tone.Subtract] is not under src.  The
    subtractor: two inputs, output [in0 - in1]. *)
Definition Subtract_out (in0 in1 : jsnum) : jsnum := jsub in0 in1.

(** Modelled from the spec: [Tone.Multiply] is not under src.  The
    multiplier: input times a fixed or signal-driven gain. *)
Definition Multiply_out (in0 gain : jsnum) : jsnum := jmul in0 gain.

(** Modelled from the spec: [Tone.GreaterThanZero] is not under src.
    It puts out 1 when the input is strictly greater than 0 and 0
    otherwise. *)
Definition GreaterThanZero_out (x : jsnum) : jsnum :=
  if jgt x jzero then jone else jzero.

(** Modelled from the spec: [Tone.WaveShaper] is not under src.  A
    shaping function is a pure mapping from input sample to output
    sample; a shaper without a mapping passes its input on. *)
Definition WaveShaper_out (curve : option (jsnum -> jsnum)) (x : jsnum) : jsnum :=
  match curve with Some f => f x | None => x end.

Definition sum_all (l : list (option jsnum)) : option jsnum :=
  foldr (fun x acc => a ← acc; v ← x; Some (jadd v a)) (Some jzero) l.

Definition targets (port : ref) (e : edge) : bool :=
  bool_decide (e_dst e = port).

Definition incoming (g : engine) (port : ref) : list edge :=
  filter (fun e => targets port e = true) (edges g).

(** What the unit [u] at address [n] puts out at time [t], given what
    arrives at each port at each time.  Inputs that share a port are
    summed; a parameter is its held value plus what is connected to it;
    a delay line gives silence until its delay has passed. *)
Definition node_out (g : engine) (ev : env)
    (arriving : ref -> Qc -> option jsnum) (n : oid) (t : Qc) (u : node)
    : option jsnum :=
  let inp0 (tt : Qc) : option jsnum :=
    x ← arriving (RInput n 0) tt; Some (jadd (ext_in ev n tt) x) in
  let inp1 (v : jsnum) (tt : Qc) : option jsnum :=
    match incoming g (RInput n 1) with
    | [] => Some v
    | _ => arriving (RInput n 1) tt
    end in
  let computed (p : pname) (x : param) (tt : Qc) : option jsnum :=
    a ← arriving (RParam n p) tt; Some (jadd (value x) a) in
  match u with
  | UGain gn =>
      x ← inp0 t; a ← computed P_gain gn t; Some (jmul x a)
  | UDelay dt mx =>
      d ← computed P_delayTime dt t;
      match d with
      | Fin dq =>
          if jle jzero d && jle d mx then
            if Qc_ltb t dq then Some jzero else inp0 (t - dq)
          else None
      | _ => None
      end
  | UBiquad _ _ => Some (biquad ev n t)
  | USignal vp =>
      x ← inp0 t; v ← computed P_value vp t; Some (jadd v x)
  | UAbs => Abs_out <$> inp0 t
  | USubtract v =>
      a ← inp0 t; b ← inp1 v t; Some (Subtract_out a b)
  | UMultiply v =>
      a ← inp0 t; b ← inp1 v t; Some (Multiply_out a b)
  | UWaveShaper c =>
      x ← inp0 t; Some (WaveShaper_out c x)
  | UGreaterThanZero =>
      x ← inp0 t; Some (GreaterThanZero_out x)
  | UComposite _ _ _ => None
  end.

(** [out fuel g ev n t]: the sample unit [n] puts out at time [t].  A
    loop without delay uses up any fuel. *)
Fixpoint out (fuel : nat) (g : engine) (ev : env) (n : oid) (t : Qc)
    : option jsnum :=
  match fuel with
  | O => None
  | S k =>
      u ← heap g !! n;
      node_out g ev
        (fun port tt =>
           sum_all (map (fun e => out k g ev (e_src e) tt) (incoming g port)))
        n t u
  end.

(** What arrives at a port, and the computed value of a parameter. *)
Definition arriving_at (fuel : nat) (g : engine) (ev : env) (port : ref)
    (t : Qc) : option jsnum :=
  sum_all (map (fun e => out fuel g ev (e_src e) t) (incoming g port)).

Definition computed_value (fuel : nat) (g : engine) (ev : env) (n : oid)
    (p : pname) (t : Qc) : option jsnum :=
  u ← heap g !! n; x ← get_param u p;
  a ← arriving_at fuel g ev (RParam n p) t; Some (jadd (value x) a).

Definition silence : env := mkEnv (fun _ _ => jzero) (fun _ _ => jzero).

(** ** The units of the two files *)

(** Modelled from the spec: the [Tone] constructor is not under src.
    [Tone.call(this)] gives a composite one input port and one output
    port, each a gain unit of its own. *)
Definition Tone_call (c : ctor) : M (oid * oid * oid) :=
  this ← alloc (UComposite c [] None);
  i ← alloc (UGain (held jone));
  o ← alloc (UGain (held jone));
  put_node this (UComposite c [RNode i] (Some (RNode o)));;
  mret (this, i, o).

(** Modelled from the spec: [Tone.call(this, 2, 0)]: an [input] array
    whose entries are still to be filled, and no output. *)
Definition Tone_call_ports (c : ctor) : M oid :=
  alloc (UComposite c [] None).

(** Modelled from the spec: [Tone.WaveShaper.prototype.setMap] is not
    under src.  It rebuilds the shaper's table from the mapping. *)
Definition setMap (n : oid) (f : jsnum -> jsnum) : M () :=
  u ← get_node n;
  match u with
  | UWaveShaper _ => put_node n (UWaveShaper (Some f));; log (CSetMap n)
  | _ => throw TypeError
  end.

(** Modelled from the spec: [Tone.prototype.dispose] is not under src.
    It lets go of the composite's own [input] and [output]. *)
Definition Tone_prototype_dispose (this : oid) : M () :=
  u ← get_node this;
  match u with
  | UComposite c _ _ => put_node this (UComposite c [] None)
  | _ => mret ()
  end.

Section ToneCore.

(** What the units take from [Tone] core: the type of times with its
    conversion to seconds, the conversion of seconds to a frequency,
    the duration of one processing block, and the inherited
    [dispose]. *)
Variable Time : Type.
Variable toSeconds : Time -> jsnum.
Variable secondsToFrequency : jsnum -> jsnum.
Variable bufferTime : jsnum.
Variable base_dispose : oid -> M ().

(** *** [Tone.Follower] *)

Record Follower : Type := mkFollower {
  Follower_this : oid;
  _abs : option oid;
  _filter : option oid;
  _frequencyValues : option oid;
  _sub : option oid;
  _delay : option oid;
  _mult : option oid;
  _attack : Time;
  _release : Time
}.

(** The map given to the shaper by [_setAttackRelease]. *)
Definition frequency_map (attack release : jsnum) (val : jsnum) : jsnum :=
  if jle val jzero then attack else release.

(** [Tone.Follower.prototype._setAttackRelease]. *)
Definition Follower__setAttackRelease (this : Follower)
    (attack release : Time) : M () :=
  let minTime := bufferTime in
  let attack := secondsToFrequency (toSeconds attack) in
  let release := secondsToFrequency (toSeconds release) in
  let attack := Math_max attack minTime in
  let release := Math_max release minTime in
  fv ← deref (_frequencyValues this);
  setMap fv (frequency_map attack release).

(** [new Tone.Follower(attack, release)], the options resolved. *)
Definition Follower_new (attack release : Time) : M Follower :=
  '(this, input, output) ← Tone_call Tone_Follower;
  abs ← alloc UAbs;
  filter ← alloc (UBiquad (held (Fin (Qc_of_Z 350))) (held jone));
  set_value (RParam filter P_frequency) jzero;;
  set_value (RParam filter P_Q) (Fin (Qc_of_Z (-100)));;
  frequencyValues ← alloc (UWaveShaper None);
  sub ← alloc (USubtract jzero);
  delay ← alloc (UDelay (held jzero) jone);
  set_value (RParam delay P_delayTime) bufferTime;;
  mult ← alloc (UMultiply (Fin (Qc_of_Z 10000)));
  let self := mkFollower this (Some abs) (Some filter) (Some frequencyValues)
                (Some sub) (Some delay) (Some mult) attack release in
  chain input [RNode abs; RNode filter; RNode output];;
  connect abs (RNode sub) (Some 0%nat) (Some 1%nat);;
  chain filter [RNode delay; RNode sub];;
  chain sub [RNode mult; RNode frequencyValues; RParam filter P_frequency];;
  Follower__setAttackRelease self (_attack self) (_release self);;
  mret self.

(** The [attack] and [release] setters. *)
Definition Follower_set_attack (this : Follower) (attack : Time) : M Follower :=
  let this := mkFollower (Follower_this this) (_abs this) (_filter this)
                (_frequencyValues this) (_sub this) (_delay this)
                (_mult this) attack (_release this) in
  Follower__setAttackRelease this (_attack this) (_release this);;
  mret this.

Definition Follower_set_release (this : Follower) (release : Time) : M Follower :=
  let this := mkFollower (Follower_this this) (_abs this) (_filter this)
                (_frequencyValues this) (_sub this) (_delay this)
                (_mult this) (_attack this) release in
  Follower__setAttackRelease this (_attack this) (_release this);;
  mret this.

(** [Tone.Follower.prototype.dispose]. *)
Definition Follower_dispose (this : Follower) : M Follower :=
  base_dispose (Follower_this this);;
  n ← deref (_filter this); disconnect n;;
  n ← deref (_frequencyValues this); disconnect n;;
  n ← deref (_delay this); disconnect n;;
  n ← deref (_sub this); disconnect n;;
  n ← deref (_abs this); release n;;
  n ← deref (_mult this); release n;;
  mret (mkFollower (Follower_this this) None None None None None None
          (_attack this) (_release this)).

(** *** [Tone.GreaterThan] *)

Record GreaterThan : Type := mkGreaterThan {
  GreaterThan_this : oid;
  _value : option oid;
  _gtz : option oid
}.

Definition default_value (x : option jsnum) : jsnum :=
  match x with Some v => v | None => jzero end.

(** [new Tone.GreaterThan(value)]. *)
Definition GreaterThan_new (v : option jsnum) : M GreaterThan :=
  this ← Tone_call_ports Tone_GreaterThan;
  sub ← alloc (USubtract (default_value v));
  put_node this (UComposite Tone_GreaterThan [RNode sub; RInput sub 1] None);;
  gtz ← alloc UGreaterThanZero;
  put_node this
    (UComposite Tone_GreaterThan [RNode sub; RInput sub 1] (Some (RNode gtz)));;
  connect sub (RNode gtz) None None;;
  mret (mkGreaterThan this (Some sub) (Some gtz)).

(** [Tone.GreaterThan.prototype.dispose]. *)
Definition GreaterThan_dispose (this : GreaterThan) : M GreaterThan :=
  base_dispose (GreaterThan_this this);;
  n ← deref (_value this); release n;;
  n ← deref (_gtz this); release n;;
  mret (mkGreaterThan (GreaterThan_this this) None None).

(** *** [Tone.PingPongDelay] *)

(** The fields of the inherited base. *)
Record StereoXFeedbackEffect : Type := mkStereoXFeedbackEffect {
  effect_this : oid;
  effectSendL : option oid;
  effectSendR : option oid;
  effectReturnL : option oid;
  effectReturnR : option oid;
  feedback : option oid;
  _feedbackLR : option oid;
  _feedbackRL : option oid
}.

Record PingPongDelay : Type := mkPingPongDelay {
  base : StereoXFeedbackEffect;
  _leftDelay : option oid;
  _rightDelay : option oid;
  delayTime : option oid
}.

(** Modelled from the spec: [Tone.StereoXFeedbackEffect] is not under
    src.  The stereo cross-feedback base has a send and a return per
    channel and routes each channel's feedback into the opposite
    channel's send; one [feedback] signal sets both feedback gains. *)
Definition StereoXFeedbackEffect_call (c : ctor) (fb : jsnum)
    : M StereoXFeedbackEffect :=
  this ← alloc (UComposite c [] None);
  sendL ← alloc (UGain (held jone));
  sendR ← alloc (UGain (held jone));
  returnL ← alloc (UGain (held jone));
  returnR ← alloc (UGain (held jone));
  fbs ← alloc (USignal (held fb));
  fbLR ← alloc (UGain (held jone));
  fbRL ← alloc (UGain (held jone));
  chain returnL [RNode fbLR; RNode sendR];;
  chain returnR [RNode fbRL; RNode sendL];;
  fan fbs [RParam fbLR P_gain; RParam fbRL P_gain];;
  mret (mkStereoXFeedbackEffect this (Some sendL) (Some sendR)
          (Some returnL) (Some returnR) (Some fbs) (Some fbLR) (Some fbRL)).

(** [new Tone.PingPongDelay(options)], the options resolved; [fb] is
    the feedback option handed on to the base. *)
Definition PingPongDelay_new (opt_delayTime : Time) (opt_maxDelayTime : jsnum)
    (fb : jsnum) : M PingPongDelay :=
  b ← StereoXFeedbackEffect_call Tone_PingPongDelay fb;
  leftDelay ← alloc (UDelay (held jzero) opt_maxDelayTime);
  rightDelay ← alloc (UDelay (held jzero) opt_maxDelayTime);
  dt ← alloc (USignal (held (toSeconds opt_delayTime)));
  sendL ← deref (effectSendL b);
  returnL ← deref (effectReturnL b);
  chain sendL [RNode leftDelay; RNode returnL];;
  sendR ← deref (effectSendR b);
  returnR ← deref (effectReturnR b);
  chain sendR [RNode rightDelay; RNode returnR];;
  fan dt [RParam leftDelay P_delayTime; RParam rightDelay P_delayTime];;
  fbRL ← deref (_feedbackRL b);
  disconnect fbRL;;
  connect fbRL (RNode leftDelay) None None;;
  mret (mkPingPongDelay b (Some leftDelay) (Some rightDelay) (Some dt)).

(** The inherited [dispose] works on the fields of the base. *)
Variable effect_dispose : StereoXFeedbackEffect -> M StereoXFeedbackEffect.

(** [Tone.PingPongDelay.prototype.dispose]. *)
Definition PingPongDelay_dispose (this : PingPongDelay) : M PingPongDelay :=
  b ← effect_dispose (base this);
  n ← deref (_leftDelay this); disconnect n;;
  n ← deref (_rightDelay this); disconnect n;;
  n ← deref (delayTime this); release n;;
  mret (mkPingPongDelay b None None None).

End ToneCore.

Global Arguments mkFollower {Time}.
Global Arguments Follower_this {Time}.
Global Arguments _abs {Time}.
Global Arguments _filter {Time}.
Global Arguments _frequencyValues {Time}.
Global Arguments _sub {Time}.
Global Arguments _delay {Time}.
Global Arguments _mult {Time}.
Global Arguments _attack {Time}.
Global Arguments _release {Time}.

(** ** Tone core as the examples take it *)

(** Modelled from the spec: [Tone.prototype.secondsToFrequency] is not
    under src.  The frequency of a period of [seconds] seconds, the
    JavaScript quotient [1 / seconds]. *)
Definition reciprocal (seconds : jsnum) : jsnum := jinv seconds.

(** Modelled from the spec: [Tone.prototype.toSeconds] is not under src.
    A time given as a number is that number of seconds. *)
Definition seconds_of_number (t : jsnum) : jsnum := t.

(** One processing block of 128 samples at 44100 Hz. *)
Definition demo_bufferTime : jsnum := Fin (Q2Qc (128 # 44100)).

(** Modelled from the spec: the [dispose] of
    [Tone.StereoXFeedbackEffect] is not under src.  It releases the base
    effect's own resources: the feedback signal and the two feedback
    paths. *)
Definition StereoXFeedbackEffect_dispose (b : StereoXFeedbackEffect)
    : M StereoXFeedbackEffect :=
  Tone_prototype_dispose (effect_this b);;
  n ← deref (feedback b); release n;;
  n ← deref (_feedbackLR b); disconnect n;;
  n ← deref (_feedbackRL b); disconnect n;;
  mret (mkStereoXFeedbackEffect (effect_this b) (effectSendL b) (effectSendR b)
          (effectReturnL b) (effectReturnR b) None None None).

(** A method called a second time on what its first call returned. *)
Definition twice {A : Type} (m : A -> M A) (a : A) : M A :=
  a' ← m a; m a'.

Definition result_of {A : Type} (r : result A) : option A :=
  match r with Ok a _ => Some a | Throw _ _ => None end.

(** The three composites with their default options, each built in a
    fresh context. *)
Definition demo_Follower : result (Follower jsnum) :=
  Follower_new jsnum seconds_of_number reciprocal demo_bufferTime
    (Fin (Q2Qc (5 # 100))) (Fin (Q2Qc (5 # 10))) empty_engine.

Definition demo_GreaterThan : result GreaterThan :=
  GreaterThan_new None empty_engine.

Definition demo_PingPongDelay : result PingPongDelay :=
  PingPongDelay_new jsnum seconds_of_number (Fin (Q2Qc (25 # 100))) jone
    (Fin (Q2Qc (5 # 10))) empty_engine.

Definition get_or {A : Type} (d : A) (r : result A) : A :=
  match r with Ok a _ => a | Throw _ _ => d end.

(** How a method ends when its own code stops at a [null] field right
    after the inherited part [r]. *)
Definition after_base {A B : Type} (r : result A) : result B :=
  match r with
  | Ok _ s => Throw TypeError s
  | Throw e s => Throw e s
  end.

(** The same three composites, each disposed of once. *)
Definition no_Follower : Follower jsnum :=
  mkFollower 0 None None None None None None jzero jzero.

Definition no_GreaterThan : GreaterThan := mkGreaterThan 0 None None.

Definition no_PingPongDelay : PingPongDelay :=
  mkPingPongDelay
    (mkStereoXFeedbackEffect 0 None None None None None None None)
    None None None.

Definition demo_Follower_disposed : result (Follower jsnum) :=
  Follower_dispose jsnum Tone_prototype_dispose
    (get_or no_Follower demo_Follower) (state_of demo_Follower).

Definition demo_GreaterThan_disposed : result GreaterThan :=
  GreaterThan_dispose Tone_prototype_dispose
    (get_or no_GreaterThan demo_GreaterThan) (state_of demo_GreaterThan).

Definition demo_PingPongDelay_disposed : result PingPongDelay :=
  PingPongDelay_dispose StereoXFeedbackEffect_dispose
    (get_or no_PingPongDelay demo_PingPongDelay) (state_of demo_PingPongDelay).

(** What the shaper [n] of a state gives for the input [x]. *)
Definition shaper_at (s : engine) (n : oid) (x : jsnum) : option jsnum :=
  match heap s !! n with
  | Some (UWaveShaper (Some f)) => Some (f x)
  | _ => None
  end.

(** The state after [setMap] on the shaper [fv]. *)
Definition with_map (s : engine) (fv : oid) (f : jsnum -> jsnum) : engine :=
  mkEngine (<[fv:=UWaveShaper (Some f)]> (heap s)) (edges s) (released s)
    (trace s ++ [CSetMap fv]).

(** A setter that ended as [r] rebuilt the table of the shaper [fv] and
    nothing else. *)
Definition rebuilds_table_only {Time : Type} (this : Follower Time)
    (s : engine) (fv : oid) (r : result (Follower Time)) : Prop :=
  ∃ this' s' f,
    r = Ok this' s'
    ∧ edges s' = edges s
    ∧ released s' = released s
    ∧ length (heap s') = length (heap s)
    ∧ (∀ n, n ≠ fv -> heap s' !! n = heap s !! n)
    ∧ heap s' !! fv = Some (UWaveShaper (Some f))
    ∧ (∃ a r, ∀ v, f v = if jle v jzero then a else r)
    ∧ (Follower_this this', _abs this', _filter this', _frequencyValues this',
       _sub this', _delay this', _mult this')
      = (Follower_this this, _abs this, _filter this, _frequencyValues this,
         _sub this, _delay this, _mult this).

(** ** Building in a context that already holds units

    A unit built in a context [s] gets the addresses that follow those
    of [s].  [extend s r] is the context [s] followed by the units,
    connections and calls of [r], the addresses of [r] moved up by the
    size of [s]. *)

Definition shift_ref (k : nat) (r : ref) : ref :=
  match r with
  | RNode n => RNode (k + n)
  | RInput n i => RInput (k + n) i
  | RParam n p => RParam (k + n) p
  end.

Definition shift_node (k : nat) (u : node) : node :=
  match u with
  | UComposite c ins o => UComposite c (shift_ref k <$> ins) (shift_ref k <$> o)
  | _ => u
  end.

Definition shift_edge (k : nat) (e : edge) : edge :=
  mkEdge (k + e_src e) (e_out e) (shift_ref k (e_dst e)).

Definition shift_call (k : nat) (c : call) : call :=
  match c with
  | CCreate n => CCreate (k + n)
  | CCancelScheduledValues r t => CCancelScheduledValues (shift_ref k r) t
  | CSetValue r v => CSetValue (shift_ref k r) v
  | CConnect e => CConnect (shift_edge k e)
  | CDisconnect n => CDisconnect (k + n)
  | CRelease n => CRelease (k + n)
  | CSetMap n => CSetMap (k + n)
  end.

Definition extend (s r : engine) : engine :=
  let k := length (heap s) in
  mkEngine (heap s ++ (shift_node k <$> heap r))
           (edges s ++ (shift_edge k <$> edges r))
           (released s ++ (Nat.add k <$> released r))
           (trace s ++ (shift_call k <$> trace r)).

Definition ref_node (r : ref) : oid :=
  match r with
  | RNode n | RInput n _ | RParam n _ => n
  end.

(** The connections of a well-formed context join units it holds. *)
Definition wf (s : engine) : Prop :=
  Forall (fun e => (e_src e < length (heap s))%nat
                   ∧ (ref_node (e_dst e) < length (heap s))%nat) (edges s).

Definition shift_env (k : nat) (ev : env) : env :=
  mkEnv (fun n => ext_in ev (k + n)) (fun n => biquad ev (k + n)).

Definition shift_Follower {Time : Type} (k : nat) (f : Follower Time)
    : Follower Time :=
  mkFollower (k + Follower_this f) (Nat.add k <$> _abs f)
    (Nat.add k <$> _filter f) (Nat.add k <$> _frequencyValues f)
    (Nat.add k <$> _sub f) (Nat.add k <$> _delay f) (Nat.add k <$> _mult f)
    (_attack f) (_release f).

Definition shift_GreaterThan (k : nat) (g : GreaterThan) : GreaterThan :=
  mkGreaterThan (k + GreaterThan_this g) (Nat.add k <$> _value g)
    (Nat.add k <$> _gtz g).

Definition shift_effect (k : nat) (b : StereoXFeedbackEffect)
    : StereoXFeedbackEffect :=
  mkStereoXFeedbackEffect (k + effect_this b)
    (Nat.add k <$> effectSendL b) (Nat.add k <$> effectSendR b)
    (Nat.add k <$> effectReturnL b) (Nat.add k <$> effectReturnR b)
    (Nat.add k <$> feedback b) (Nat.add k <$> _feedbackLR b)
    (Nat.add k <$> _feedbackRL b).

Definition shift_PingPongDelay (k : nat) (p : PingPongDelay) : PingPongDelay :=
  mkPingPongDelay (shift_effect k (base p)) (Nat.add k <$> _leftDelay p)
    (Nat.add k <$> _rightDelay p) (Nat.add k <$> delayTime p).

(** [m], run in a context that extends [s], does what [m'] does in the
    extension alone, the results related by [R]. *)
Definition sim {A B : Type} (R : A -> B -> Prop) (s : engine)
    (m : M A) (m' : M B) : Prop :=
  ∀ r, match m' r with
       | Ok b r' => ∃ a, m (extend s r) = Ok a (extend s r') ∧ R a b
       | Throw e r' => m (extend s r) = Throw e (extend s r')
       end.

(** ** The composites alone

    Each composite built in an empty context: its units, from address 0
    on, and its connections. *)

Definition GreaterThan_alone (v : option jsnum) : engine :=
  state_of (GreaterThan_new v empty_engine).

Definition Follower_alone {Time : Type} (toSeconds : Time -> jsnum)
    (secondsToFrequency : jsnum -> jsnum) (bufferTime : jsnum)
    (attack release : Time) : engine :=
  state_of (Follower_new Time toSeconds secondsToFrequency bufferTime
              attack release empty_engine).

Definition PingPongDelay_alone {Time : Type} (toSeconds : Time -> jsnum)
    (dt : Time) (mx fb : jsnum) : engine :=
  state_of (PingPongDelay_new Time toSeconds dt mx fb empty_engine).

(** The value of a signal set again and again, as when the delay time
    is changed while the effect runs. *)
Fixpoint set_values (r : ref) (vs : list jsnum) : M () :=
  match vs with
  | [] => mret ()
  | v :: vs' => set_value r v;; set_values r vs'
  end.

(** The value a signal holds after the changes [vs], [v0] before. *)
Definition current (v0 : jsnum) (vs : list jsnum) : jsnum :=
  List.last vs v0.

(** The object [new Tone.PingPongDelay] returns in a context of [k]
    units. *)
Definition PingPongDelay_at (k : nat) : PingPongDelay :=
  mkPingPongDelay
    (mkStereoXFeedbackEffect k (Some (k + 1)%nat) (Some (k + 2)%nat)
       (Some (k + 3)%nat) (Some (k + 4)%nat) (Some (k + 5)%nat)
       (Some (k + 6)%nat) (Some (k + 7)%nat))
    (Some (k + 8)%nat) (Some (k + 9)%nat) (Some (k + 10)%nat).

(** A single impulse at time 0. *)
Definition impulse (t : Qc) : jsnum :=
  if Qc_eqb t 0 then jone else jzero.

(** [k] times the duration [d]. *)
Definition times (k : nat) (d : Qc) : Qc := Qc_of_Z (Z.of_nat k) * d.

(** Unit [n] puts out [v] at time [t]: every run with enough fuel says
    so. *)
Definition settles (g : engine) (ev : env) (n : oid) (t : Qc) (v : jsnum)
    : Prop :=
  ∃ N, ∀ fuel, (N ≤ fuel)%nat -> out fuel g ev n t = Some v.

(** The connections of a ping-pong delay built alone: the unit at
    address 1 is the left send, 2 the right send, 3 the left return, 4
    the right return, 5 the feedback signal, 6 and 7 the two feedback
    paths, 8 and 9 the delay lines, 10 the delay-time signal. *)
Definition PingPongDelay_wiring : list edge :=
  [mkEdge 3 0 (RInput 6 0); mkEdge 6 0 (RInput 2 0); mkEdge 4 0 (RInput 7 0);
   mkEdge 5 0 (RParam 6 P_gain); mkEdge 5 0 (RParam 7 P_gain);
   mkEdge 1 0 (RInput 8 0); mkEdge 8 0 (RInput 3 0);
   mkEdge 2 0 (RInput 9 0); mkEdge 9 0 (RInput 4 0);
   mkEdge 10 0 (RParam 8 P_delayTime); mkEdge 10 0 (RParam 9 P_delayTime);
   mkEdge 7 0 (RInput 8 0)].

(** ** A small context for examples

    Unit 0 is a signal holding 5 with a ramp scheduled at time 1, unit 1
    a gain, unit 2 a signal holding 3, unit 3 a [Tone.GreaterThan] of
    threshold 3 (its subtractor is unit 4, its comparator unit 5). *)
Definition demo_engine : engine :=
  state_of
    ((alloc (USignal (mkParam (Fin (Qc_of_Z 5)) [(1, Fin (Qc_of_Z 2))]));;
      alloc (UGain (held jone));;
      alloc (USignal (held (Fin (Qc_of_Z 3))));;
      GreaterThan_new (Some (Fin (Qc_of_Z 3)))) empty_engine).

(** The environment that feeds the signal [x] into unit [n] and nothing
    into the others, the filters answering with [resp]. *)
Definition feeding (n : oid) (x : Qc -> jsnum) (resp : Qc -> jsnum) : env :=
  mkEnv (fun m t => if bool_decide (m = n) then x t else jzero)
        (fun _ t => resp t).

(** * Properties *)

(** ** Numbers *)

Lemma Qc_ltb_lt (a b : Qc) : Qc_ltb a b = true <-> a < b.
Proof.
  unfold Qc_ltb, Qclt, Qlt, Z.lt, Qccompare, Qcompare.
  destruct (_ ?= _)%Z; split; congruence.
Qed.

Lemma Qc_leb_le (a b : Qc) : Qc_leb a b = true <-> a ≤ b.
Proof.
  unfold Qc_leb, Qcle, Qle, Z.le, Qccompare, Qcompare.
  destruct (_ ?= _)%Z; split; congruence.
Qed.

Lemma Qc_eqb_eq (a b : Qc) : Qc_eqb a b = true <-> a = b.
Proof.
  unfold Qc_eqb. split.
  - intros H. apply Qceq_alt. destruct (a ?= b); congruence.
  - intros H. apply Qceq_alt in H. rewrite H. reflexivity.
Qed.

Lemma Qc_ltb_ge (a b : Qc) : Qc_ltb a b = false <-> b ≤ a.
Proof.
  rewrite <- not_true_iff_false, Qc_ltb_lt. split.
  - apply Qcnot_lt_le.
  - apply Qcle_not_lt.
Qed.

Lemma Qc_leb_gt (a b : Qc) : Qc_leb a b = false <-> b < a.
Proof.
  rewrite <- not_true_iff_false, Qc_leb_le. split.
  - apply Qcnot_le_lt.
  - apply Qclt_not_le.
Qed.

Lemma jadd_0_l (x : jsnum) : jadd jzero x = x.
Proof. destruct x; cbn; try reflexivity. f_equal. ring. Qed.

Lemma jadd_0_r (x : jsnum) : jadd x jzero = x.
Proof. destruct x; cbn; try reflexivity. f_equal. ring. Qed.
(** ** Running methods *)

Lemma run_bind {A B : Type} (m : M A) (f : A -> M B) (s : engine) :
  (m ≫= f) s =
  match m s with Ok a s' => f a s' | Throw e s' => Throw e s' end.
Proof. reflexivity. Qed.

Lemma run_ret {A : Type} (a : A) (s : engine) : (mret a : M A) s = Ok a s.
Proof. reflexivity. Qed.

Lemma lookup_heap_ok {A : Type} (f : list node -> option A) s a :
  f (heap s) = Some a -> lookup_heap f s = Ok a s.
Proof. intros H. unfold lookup_heap. rewrite run_bind. cbn. by rewrite H. Qed.

Lemma get_node_ok s n u : heap s !! n = Some u -> get_node n s = Ok u s.
Proof. intros H. unfold get_node. rewrite run_bind. cbn. by rewrite H. Qed.

Lemma read_param_ok s n p u x :
  heap s !! n = Some u -> get_param u p = Some x ->
  read_param (RParam n p) s = Ok x s.
Proof.
  intros Hn Hp. unfold read_param.
  rewrite run_bind, (get_node_ok _ _ _ Hn), Hp. reflexivity.
Qed.

Lemma write_param_ok s n p u x u' :
  heap s !! n = Some u -> set_param u p x = Some u' ->
  write_param (RParam n p) x s =
  Ok () (mkEngine (<[n:=u']> (heap s)) (edges s) (released s) (trace s)).
Proof.
  intros Hn Hp. unfold write_param.
  rewrite run_bind, (get_node_ok _ _ _ Hn), run_bind, Hp. reflexivity.
Qed.

Lemma set_param_some u p x y :
  get_param u p = Some x ->
  ∃ u', set_param u p y = Some u' ∧ get_param u' p = Some y
        ∧ constructor_of u' = constructor_of u
        ∧ ∀ z, set_param u' p z = set_param u p z.
Proof.
  destruct u, p; cbn; intros H; try discriminate; eauto.
Qed.

Lemma get_param_set_param u p x u' q :
  set_param u p x = Some u' ->
  is_Some (get_param u' q) <-> is_Some (get_param u q).
Proof.
  destruct u, p; cbn; intros H; try discriminate;
    injection H as <-; destruct q; cbn; split; intros [? ?]; try discriminate; eauto.
Qed.

(** Zeroing a parameter: the two calls of the reset, in order. *)
Lemma zero_out_ok s n p u x :
  heap s !! n = Some u -> get_param u p = Some x ->
  ∃ u', set_param u p (zeroed x) = Some u' ∧
    (cancelScheduledValues (RParam n p) 0 ≫= λ _, set_value (RParam n p) jzero) s =
    Ok () (mkEngine (<[n:=u']> (heap s)) (edges s) (released s)
             (trace s ++ [CCancelScheduledValues (RParam n p) 0;
                          CSetValue (RParam n p) jzero])).
Proof.
  intros Hn Hp.
  destruct (set_param_some u p x (mkParam (value x) (cancel_from 0 (events x))) Hp)
    as (u1 & Hset1 & Hget1 & _ & Hsame).
  destruct (set_param_some u p x (zeroed x) Hp) as (u2 & Hset2 & _).
  exists u2. split; [done|].
  assert (Hlt : (n < length (heap s))%nat) by (by eapply lookup_lt_Some).
  unfold cancelScheduledValues, set_value, log, modify.
  rewrite !run_bind, (read_param_ok _ _ _ _ _ Hn Hp).
  rewrite !run_bind, (write_param_ok _ _ _ _ _ _ Hn Hset1).
  rewrite !run_bind.
  erewrite read_param_ok; cycle 1.
  { cbn. by apply list_lookup_insert_eq. }
  { exact Hget1. }
  rewrite !run_bind.
  erewrite write_param_ok; cycle 1.
  { cbn. by apply list_lookup_insert_eq. }
  { rewrite Hsame. exact Hset2. }
  cbn. rewrite list_insert_insert_eq, <- app_assoc. reflexivity.
Qed.
Lemma Tone_connect_ok s this nd o i src dst :
  output_of (heap s) this = Some src ->
  input_of (heap s) nd i = Some dst ->
  Tone_connect this nd o i s =
  Ok () (mkEngine (heap s)
           (add_conn (mkEdge src (default_arg o 0) dst) (edges s))
           (released s)
           (trace s ++ [CConnect (mkEdge src (default_arg o 0) dst)])).
Proof.
  intros Hs Hd. unfold Tone_connect.
  rewrite run_bind, (lookup_heap_ok _ _ _ Hs).
  rewrite run_bind, (lookup_heap_ok _ _ _ Hd).
  reflexivity.
Qed.

(** Writing a parameter changes neither what a unit is nor which ports
    the units stand for. *)
Lemma lookup_set_param (h : list node) n u p x u' m :
  h !! n = Some u -> set_param u p x = Some u' ->
  (<[n:=u']> h) !! m = h !! m ∨
  ((<[n:=u']> h) !! m = Some u' ∧ h !! m = Some u).
Proof.
  intros Hn Hs. destruct (decide (m = n)) as [->|Hne].
  - right. split; [|done].
    apply list_lookup_insert_eq. by eapply lookup_lt_Some.
  - left. by apply list_lookup_insert_ne.
Qed.

Lemma output_of_set_param (h : list node) n u p x u' this :
  h !! n = Some u -> set_param u p x = Some u' ->
  output_of (<[n:=u']> h) this = output_of h this.
Proof.
  intros Hn Hs. unfold output_of.
  destruct (lookup_set_param h n u p x u' this Hn Hs) as [->|(-> & ->)];
    [done|].
  destruct u, p; cbn in Hs; try discriminate; by injection Hs as <-.
Qed.

Lemma input_of_set_param (h : list node) n u p x u' nd i :
  h !! n = Some u -> set_param u p x = Some u' ->
  input_of (<[n:=u']> h) nd i = input_of h nd i.
Proof.
  intros Hn Hs. unfold input_of. destruct nd as [m|m j|m q].
  - destruct (lookup_set_param h n u p x u' m Hn Hs) as [->|(-> & ->)];
      [done|].
    destruct u, p; cbn in Hs; try discriminate; by injection Hs as <-.
  - destruct (lookup_set_param h n u p x u' m Hn Hs) as [->|(-> & ->)];
      done.
  - destruct (lookup_set_param h n u p x u' m Hn Hs) as [->|(-> & ->)];
      [done|].
    cbn. pose proof (get_param_set_param u p x u' q Hs) as [H1 H2].
    destruct (get_param u' q) as [y|], (get_param u q) as [z|]; cbn; try done.
    + destruct H1 as [? ?]; [eauto | discriminate].
    + destruct H2 as [? ?]; [eauto | discriminate].
Qed.

Lemma cancel_from_all (evs : list (Qc * jsnum)) :
  Forall (fun ev => 0 ≤ ev.1) evs -> cancel_from 0 evs = [].
Proof.
  intros H. unfold cancel_from. induction H as [|ev evs Hev _ IH]; [done|].
  rewrite filter_cons_False; [done|].
  intros Hlt. apply Qc_ltb_lt in Hlt. by apply Qcle_not_lt in Hev.
Qed.

Lemma zeroed_held (x : param) :
  Forall (fun ev => 0 ≤ ev.1) (events x) -> zeroed x = held jzero.
Proof. intros H. unfold zeroed, held. by rewrite cancel_from_all. Qed.

Lemma instanceof_AudioParam (c : ctor) :
  instanceof c AudioParam = true <-> c = AudioParam.
Proof. destruct c; split; intros H; try done; vm_compute in H; done. Qed.

(** The three branches of [Tone.SignalBase.prototype.connect]. *)
Lemma SignalBase_connect_Signal s this n x o i src dst :
  output_of (heap s) this = Some src ->
  input_of (heap s) (RNode n) i = Some dst ->
  heap s !! n = Some (USignal x) ->
  SignalBase_connect this (RNode n) o i s =
  Ok () (mkEngine (<[n:=USignal (zeroed x)]> (heap s))
           (add_conn (mkEdge src (default_arg o 0) dst) (edges s))
           (released s)
           (trace s ++ [CCancelScheduledValues (RParam n P_value) 0;
                        CSetValue (RParam n P_value) jzero;
                        CConnect (mkEdge src (default_arg o 0) dst)])).
Proof.
  intros Hs Hd Hn. unfold SignalBase_connect.
  rewrite run_bind. erewrite lookup_heap_ok; [|cbn; by rewrite Hn].
  rewrite bool_decide_eq_true_2 by done. cbn [field__value].
  rewrite run_bind. rewrite (run_bind (mret _)), run_ret.
  destruct (zero_out_ok s n P_value _ x Hn eq_refl) as (u' & Hu' & ->).
  erewrite Tone_connect_ok; cycle 1.
  { cbn [heap]. by rewrite (output_of_set_param _ _ _ _ _ _ _ Hn Hu'). }
  { cbn [heap]. by rewrite (input_of_set_param _ _ _ _ _ _ _ _ Hn Hu'). }
  cbn in Hu'. injection Hu' as <-.
  cbn. by rewrite <- app_assoc.
Qed.

Lemma SignalBase_connect_AudioParam s this n p u x o i src dst :
  output_of (heap s) this = Some src ->
  input_of (heap s) (RParam n p) i = Some dst ->
  heap s !! n = Some u -> get_param u p = Some x ->
  ∃ u', set_param u p (zeroed x) = Some u' ∧
  SignalBase_connect this (RParam n p) o i s =
  Ok () (mkEngine (<[n:=u']> (heap s))
           (add_conn (mkEdge src (default_arg o 0) dst) (edges s))
           (released s)
           (trace s ++ [CCancelScheduledValues (RParam n p) 0;
                        CSetValue (RParam n p) jzero;
                        CConnect (mkEdge src (default_arg o 0) dst)])).
Proof.
  intros Hs Hd Hn Hp.
  destruct (zero_out_ok s n p u x Hn Hp) as (u' & Hu' & Hrun).
  exists u'. split; [done|]. unfold SignalBase_connect.
  rewrite run_bind. erewrite lookup_heap_ok; [|cbn; rewrite Hn; cbn; by rewrite Hp].
  rewrite bool_decide_eq_false_2 by done.
  change (instanceof AudioParam AudioParam) with true. cbn match.
  rewrite run_bind, Hrun.
  erewrite Tone_connect_ok; cycle 1.
  { cbn [heap]. by rewrite (output_of_set_param _ _ _ _ _ _ _ Hn Hu'). }
  { cbn [heap]. by rewrite (input_of_set_param _ _ _ _ _ _ _ _ Hn Hu'). }
  cbn. by rewrite <- app_assoc.
Qed.

Lemma SignalBase_connect_other s this nd c o i src dst :
  output_of (heap s) this = Some src ->
  input_of (heap s) nd i = Some dst ->
  ctor_of_ref (heap s) nd = Some c ->
  c ≠ Tone_Signal -> c ≠ AudioParam ->
  SignalBase_connect this nd o i s =
  Ok () (mkEngine (heap s)
           (add_conn (mkEdge src (default_arg o 0) dst) (edges s))
           (released s)
           (trace s ++ [CConnect (mkEdge src (default_arg o 0) dst)])).
Proof.
  intros Hs Hd Hc Hns Hnp. unfold SignalBase_connect.
  rewrite run_bind, (lookup_heap_ok _ _ _ Hc).
  rewrite bool_decide_eq_false_2 by done.
  destruct (instanceof c AudioParam) eqn:Hi.
  { by apply instanceof_AudioParam in Hi. }
  rewrite run_bind, run_ret. by apply Tone_connect_ok.
Qed.
(** ** The connection discipline *)

(** C1. [connect] on a destination that is a signal ([Tone.Signal]) or
    a parameter ([AudioParam]) first cancels the automation scheduled on
    it, then sets its held value to 0, and only then adds the edge; on a
    plain audio node it adds the edge and nothing else, the heap is as
    it was. *)
Theorem connect_zeroes_parameter_destinations
    (s : engine) (this : oid) (nd : ref) (o i : option nat) (src : oid) (dst : ref) :
  output_of (heap s) this = Some src ->
  input_of (heap s) nd i = Some dst ->
  let e := mkEdge src (default_arg o 0) dst in
  (∀ n x, nd = RNode n -> heap s !! n = Some (USignal x) ->
     Forall (fun ev => 0 ≤ ev.1) (events x) ->
     SignalBase_connect this nd o i s =
     Ok () (mkEngine (<[n:=USignal (held jzero)]> (heap s))
              (add_conn e (edges s)) (released s)
              (trace s ++ [CCancelScheduledValues (RParam n P_value) 0;
                           CSetValue (RParam n P_value) jzero;
                           CConnect e])))
  ∧ (∀ n p u x, nd = RParam n p -> heap s !! n = Some u ->
       get_param u p = Some x ->
       Forall (fun ev => 0 ≤ ev.1) (events x) ->
       ∃ u', set_param u p (held jzero) = Some u' ∧
         SignalBase_connect this nd o i s =
         Ok () (mkEngine (<[n:=u']> (heap s))
                  (add_conn e (edges s)) (released s)
                  (trace s ++ [CCancelScheduledValues nd 0;
                               CSetValue nd jzero;
                               CConnect e])))
  ∧ (∀ c, ctor_of_ref (heap s) nd = Some c ->
       instanceof c AudioNode = true ->
       SignalBase_connect this nd o i s =
       Ok () (mkEngine (heap s) (add_conn e (edges s)) (released s)
                (trace s ++ [CConnect e]))).
Proof.
  intros Hs Hd e. split; [|split].
  - intros n x -> Hn Hev.
    rewrite (SignalBase_connect_Signal s this n x o i src dst Hs Hd Hn).
    by rewrite (zeroed_held x Hev).
  - intros n p u x -> Hn Hp Hev.
    destruct (SignalBase_connect_AudioParam s this n p u x o i src dst Hs Hd Hn Hp)
      as (u' & Hu' & Hrun).
    exists u'. rewrite (zeroed_held x Hev) in Hu'. by split.
  - intros c Hc Hi.
    apply (SignalBase_connect_other s this nd c o i src dst Hs Hd Hc);
      intros ->; by vm_compute in Hi.
Qed.

Lemma nonneg_demo_events :
  Forall (fun ev : Qc * jsnum => 0 ≤ ev.1) [(1, Fin (Qc_of_Z 2))].
Proof. repeat constructor. by vm_compute. Qed.

Lemma connect_zeroes_parameter_destinations_witness :
  SignalBase_connect 2 (RNode 0) None None demo_engine =
    Ok () (mkEngine (<[0%nat:=USignal (held jzero)]> (heap demo_engine))
             (add_conn (mkEdge 2 0 (RInput 0 0)) (edges demo_engine))
             (released demo_engine)
             (trace demo_engine ++
                [CCancelScheduledValues (RParam 0 P_value) 0;
                 CSetValue (RParam 0 P_value) jzero;
                 CConnect (mkEdge 2 0 (RInput 0 0))]))
  ∧ (∃ u', set_param (UGain (held jone)) P_gain (held jzero) = Some u' ∧
       SignalBase_connect 2 (RParam 1 P_gain) None None demo_engine =
       Ok () (mkEngine (<[1%nat:=u']> (heap demo_engine))
                (add_conn (mkEdge 2 0 (RParam 1 P_gain)) (edges demo_engine))
                (released demo_engine)
                (trace demo_engine ++
                   [CCancelScheduledValues (RParam 1 P_gain) 0;
                    CSetValue (RParam 1 P_gain) jzero;
                    CConnect (mkEdge 2 0 (RParam 1 P_gain))])))
  ∧ SignalBase_connect 2 (RNode 1) None None demo_engine =
    Ok () (mkEngine (heap demo_engine)
             (add_conn (mkEdge 2 0 (RInput 1 0)) (edges demo_engine))
             (released demo_engine)
             (trace demo_engine ++ [CConnect (mkEdge 2 0 (RInput 1 0))])).
Proof.
  split; [|split].
  - apply (connect_zeroes_parameter_destinations
             demo_engine 2 (RNode 0) None None 2 (RInput 0 0) eq_refl eq_refl)
      with (x := mkParam (Fin (Qc_of_Z 5)) [(1, Fin (Qc_of_Z 2))]);
      [reflexivity | reflexivity | exact nonneg_demo_events].
  - apply (connect_zeroes_parameter_destinations
             demo_engine 2 (RParam 1 P_gain) None None 2 (RParam 1 P_gain)
             eq_refl eq_refl)
      with (x := held jone);
      [reflexivity | reflexivity | reflexivity | constructor].
  - apply (connect_zeroes_parameter_destinations
             demo_engine 2 (RNode 1) None None 2 (RInput 1 0) eq_refl eq_refl)
      with (c := GainNode); reflexivity.
Defined.

(** C10. The reset is applied only for a destination whose constructor
    is exactly [Tone.Signal] or that is an [AudioParam]: for any other
    destination, an instance of a subclass of [Tone.Signal] included,
    [connect] adds the edge and nothing else; no automation is cancelled,
    no value is written, the heap is as it was. *)
Theorem connect_resets_only_Signal_and_AudioParam
    (s : engine) (this : oid) (nd : ref) (o i : option nat) (src : oid) (dst : ref)
    (c : ctor) :
  output_of (heap s) this = Some src ->
  input_of (heap s) nd i = Some dst ->
  ctor_of_ref (heap s) nd = Some c ->
  let e := mkEdge src (default_arg o 0) dst in
  let untouched :=
    SignalBase_connect this nd o i s =
    Ok () (mkEngine (heap s) (add_conn e (edges s)) (released s)
             (trace s ++ [CConnect e])) in
  (c ≠ Tone_Signal -> instanceof c AudioParam = false -> untouched)
  ∧ (subclass_of c Tone_Signal = true -> untouched).
Proof.
  intros Hs Hd Hc e untouched. split.
  - intros Hns Hnp.
    apply (SignalBase_connect_other s this nd c o i src dst Hs Hd Hc Hns).
    intros ->. by vm_compute in Hnp.
  - intros Hsub.
    apply (SignalBase_connect_other s this nd c o i src dst Hs Hd Hc);
      intros ->; by vm_compute in Hsub.
Qed.

Lemma connect_resets_only_Signal_and_AudioParam_witness :
  subclass_of Tone_GreaterThan Tone_Signal = true
  ∧ SignalBase_connect 0 (RNode 3) None (Some 1%nat) demo_engine =
    Ok () (mkEngine (heap demo_engine)
             (add_conn (mkEdge 0 0 (RInput 4 1)) (edges demo_engine))
             (released demo_engine)
             (trace demo_engine ++ [CConnect (mkEdge 0 0 (RInput 4 1))])).
Proof.
  split; [reflexivity|].
  apply (connect_resets_only_Signal_and_AudioParam
           demo_engine 0 (RNode 3) None (Some 1%nat) 0 (RInput 4 1)
           Tone_GreaterThan eq_refl eq_refl eq_refl).
  reflexivity.
Defined.
(** ** Disposal *)

Lemma Follower_dispose_clears {Time : Type} (bd : oid -> M ())
    (f f' : Follower Time) (s s' : engine) :
  Follower_dispose Time bd f s = Ok f' s' -> _filter f' = None.
Proof.
  unfold Follower_dispose. rewrite !run_bind.
  repeat (match goal with
          | |- context [match ?m with Ok _ _ => _ | Throw _ _ => _ end] =>
              destruct m; try discriminate; rewrite ?run_bind
          end).
  rewrite run_ret. by intros [= <- _].
Qed.

Lemma GreaterThan_dispose_clears (bd : oid -> M ())
    (g g' : GreaterThan) (s s' : engine) :
  GreaterThan_dispose bd g s = Ok g' s' ->
  _value g' = None ∧ GreaterThan_this g' = GreaterThan_this g.
Proof.
  unfold GreaterThan_dispose. rewrite !run_bind.
  repeat (match goal with
          | |- context [match ?m with Ok _ _ => _ | Throw _ _ => _ end] =>
              destruct m; try discriminate; rewrite ?run_bind
          end).
  rewrite run_ret. by intros [= <- _].
Qed.

Lemma PingPongDelay_dispose_clears
    (ed : StereoXFeedbackEffect -> M StereoXFeedbackEffect)
    (p p' : PingPongDelay) (s s' : engine) :
  PingPongDelay_dispose ed p s = Ok p' s' -> _leftDelay p' = None.
Proof.
  unfold PingPongDelay_dispose. rewrite !run_bind.
  repeat (match goal with
          | |- context [match ?m with Ok _ _ => _ | Throw _ _ => _ end] =>
              destruct m; try discriminate; rewrite ?run_bind
          end).
  rewrite run_ret. by intros [= <- _].
Qed.

(** C2, as the code has it.  After a first successful [dispose], a second
    call raises: whatever the inherited [dispose] does, the composite's
    own code stops with a [TypeError] at its first released field, so it
    disconnects and releases nothing: the state is the one the inherited
    [dispose] left. *)
Theorem second_dispose_raises :
  (∀ (Time : Type) (bd : oid -> M ()) (f f' : Follower Time) (s s' : engine),
     Follower_dispose Time bd f s = Ok f' s' ->
     Follower_dispose Time bd f' s' = after_base (bd (Follower_this f') s'))
  ∧ (∀ (bd : oid -> M ()) (g g' : GreaterThan) (s s' : engine),
       GreaterThan_dispose bd g s = Ok g' s' ->
       GreaterThan_dispose bd g' s' = after_base (bd (GreaterThan_this g') s'))
  ∧ (∀ (ed : StereoXFeedbackEffect -> M StereoXFeedbackEffect)
       (p p' : PingPongDelay) (s s' : engine),
       PingPongDelay_dispose ed p s = Ok p' s' ->
       PingPongDelay_dispose ed p' s' = after_base (ed (base p') s')).
Proof.
  split; [|split].
  - intros Time bd f f' s s' H.
    apply Follower_dispose_clears in H.
    unfold Follower_dispose. rewrite run_bind.
    destruct (bd _ s'); [|done]. by rewrite run_bind, H.
  - intros bd g g' s s' H.
    apply GreaterThan_dispose_clears in H as [H _].
    unfold GreaterThan_dispose. rewrite run_bind.
    destruct (bd _ s'); [|done]. by rewrite run_bind, H.
  - intros ed p p' s s' H.
    apply PingPongDelay_dispose_clears in H.
    unfold PingPongDelay_dispose. rewrite run_bind.
    destruct (ed _ s'); [|done]. by rewrite run_bind, H.
Qed.

Lemma second_dispose_raises_witness :
  Follower_dispose jsnum Tone_prototype_dispose
    (get_or no_Follower demo_Follower_disposed)
    (state_of demo_Follower_disposed) =
  after_base (Tone_prototype_dispose
                (Follower_this (get_or no_Follower demo_Follower_disposed))
                (state_of demo_Follower_disposed))
  ∧ GreaterThan_dispose Tone_prototype_dispose
      (get_or no_GreaterThan demo_GreaterThan_disposed)
      (state_of demo_GreaterThan_disposed) =
    after_base (Tone_prototype_dispose
                  (GreaterThan_this (get_or no_GreaterThan demo_GreaterThan_disposed))
                  (state_of demo_GreaterThan_disposed))
  ∧ PingPongDelay_dispose StereoXFeedbackEffect_dispose
      (get_or no_PingPongDelay demo_PingPongDelay_disposed)
      (state_of demo_PingPongDelay_disposed) =
    after_base (StereoXFeedbackEffect_dispose
                  (base (get_or no_PingPongDelay demo_PingPongDelay_disposed))
                  (state_of demo_PingPongDelay_disposed)).
Proof.
  destruct second_dispose_raises as (HF & HG & HP).
  split; [|split].
  - apply (HF jsnum Tone_prototype_dispose
             (get_or no_Follower demo_Follower) _ (state_of demo_Follower)).
    vm_compute. reflexivity.
  - apply (HG Tone_prototype_dispose
             (get_or no_GreaterThan demo_GreaterThan) _ (state_of demo_GreaterThan)).
    vm_compute. reflexivity.
  - apply (HP StereoXFeedbackEffect_dispose
             (get_or no_PingPongDelay demo_PingPongDelay) _
             (state_of demo_PingPongDelay)).
    vm_compute. reflexivity.
Defined.

(** C2 as stated fails: each of the three composites, built with its
    defaults and disposed of once without error, raises on the second
    [dispose]. *)
Lemma second_dispose_is_not_silent :
  (succeeded demo_Follower_disposed = true
   ∧ succeeded (Follower_dispose jsnum Tone_prototype_dispose
                  (get_or no_Follower demo_Follower_disposed)
                  (state_of demo_Follower_disposed)) = false)
  ∧ (succeeded demo_GreaterThan_disposed = true
     ∧ succeeded (GreaterThan_dispose Tone_prototype_dispose
                    (get_or no_GreaterThan demo_GreaterThan_disposed)
                    (state_of demo_GreaterThan_disposed)) = false)
  ∧ (succeeded demo_PingPongDelay_disposed = true
     ∧ succeeded (PingPongDelay_dispose StereoXFeedbackEffect_dispose
                    (get_or no_PingPongDelay demo_PingPongDelay_disposed)
                    (state_of demo_PingPongDelay_disposed)) = false).
Proof. vm_compute. repeat split. Qed.
(** ** The attack and release of the follower *)

Lemma Math_max_floor (f b : jsnum) :
  jlt jzero b = true ->
  (is_NaN f = false -> jle b (Math_max f b) = true ∧ jlt jzero (Math_max f b) = true)
  ∧ (jle f b = true -> Math_max f b = b)
  ∧ (is_NaN f = true -> Math_max f b = NaN).
Proof.
  intros Hb. split; [|split].
  - intros Hf. destruct f as [x| | |], b as [y| | |]; try done; cbn in *;
      try (split; [|done]; apply Qc_leb_le, Qcle_refl).
    destruct (Qc_ltb x y) eqn:E; cbn.
    + split; [|done]. apply Qc_leb_le, Qcle_refl.
    + apply Qc_ltb_ge in E. split; [by apply Qc_leb_le|].
      apply Qc_ltb_lt. apply Qc_ltb_lt in Hb.
      by eapply Qclt_le_trans.
  - intros Hle. destruct f as [x| | |], b as [y| | |]; try done; cbn in *.
    destruct (Qc_ltb x y) eqn:E; [done|].
    apply Qc_ltb_ge in E. apply Qc_leb_le in Hle.
    f_equal. by apply Qcle_antisym.
  - by destruct f.
Qed.

Section FollowerSettings.

Variable Time : Type.
Variable toSeconds : Time -> jsnum.
Variable secondsToFrequency : jsnum -> jsnum.
Variable bufferTime : jsnum.

Local Abbreviation frequency_of t := (secondsToFrequency (toSeconds t)).
Local Abbreviation floor_of t := (Math_max (frequency_of t) bufferTime).
Local Abbreviation setAttackRelease :=
  (Follower__setAttackRelease Time toSeconds secondsToFrequency bufferTime).
Local Abbreviation set_attack :=
  (Follower_set_attack Time toSeconds secondsToFrequency bufferTime).
Local Abbreviation set_release :=
  (Follower_set_release Time toSeconds secondsToFrequency bufferTime).

Lemma setAttackRelease_ok (this : Follower Time) (s : engine) (fv : oid)
    (c : option (jsnum -> jsnum)) (attack release : Time) :
  _frequencyValues this = Some fv ->
  heap s !! fv = Some (UWaveShaper c) ->
  setAttackRelease this attack release s =
  Ok () (with_map s fv (frequency_map (floor_of attack) (floor_of release))).
Proof.
  intros Hfv Hn. unfold Follower__setAttackRelease, setMap.
  rewrite Hfv. cbn [deref]. rewrite run_bind, run_ret, run_bind.
  rewrite (get_node_ok _ _ _ Hn). reflexivity.
Qed.

(** C4, as the code has it.  Each time is converted with
    [secondsToFrequency(toSeconds(t))] and combined with [bufferTime]
    by [Math.max]; no error is raised.  When the converted frequency
    is a number, the stored value is at least [bufferTime], hence
    positive, and it is [bufferTime] itself when the frequency is not
    above it; a NaN frequency is stored as NaN. *)
Theorem attack_release_floor (this : Follower Time) (s : engine) (fv : oid)
    (c : option (jsnum -> jsnum)) (attack release : Time) :
  _frequencyValues this = Some fv ->
  heap s !! fv = Some (UWaveShaper c) ->
  jlt jzero bufferTime = true ->
  setAttackRelease this attack release s =
    Ok () (with_map s fv (frequency_map (floor_of attack) (floor_of release)))
  ∧ (∀ v, frequency_map (floor_of attack) (floor_of release) v =
           if jle v jzero then floor_of attack else floor_of release)
  ∧ (∀ t : Time,
       (is_NaN (frequency_of t) = false ->
          jle bufferTime (floor_of t) = true ∧ jlt jzero (floor_of t) = true)
       ∧ (jle (frequency_of t) bufferTime = true -> floor_of t = bufferTime)
       ∧ (is_NaN (frequency_of t) = true -> floor_of t = NaN))
  ∧ (∃ this', set_attack this attack s =
       Ok this' (with_map s fv
                   (frequency_map (floor_of attack) (floor_of (_release this)))))
  ∧ (∃ this', set_release this release s =
       Ok this' (with_map s fv
                   (frequency_map (floor_of (_attack this)) (floor_of release)))).
Proof.
  intros Hfv Hn Hb. split; [by eapply setAttackRelease_ok|].
  split; [done|]. split; [intros t; by apply Math_max_floor|]. split.
  - eexists. unfold Follower_set_attack.
    rewrite run_bind. erewrite setAttackRelease_ok; [|exact Hfv|exact Hn].
    reflexivity.
  - eexists. unfold Follower_set_release.
    rewrite run_bind. erewrite setAttackRelease_ok; [|exact Hfv|exact Hn].
    reflexivity.
Qed.

(** C6.  Setting [attack] or [release] rebuilds the shaper's table and
    nothing else: the connections, the released units and every other
    unit are as before, the follower still owns the same units, and
    the new table has two output values. *)
Theorem setters_keep_topology (this : Follower Time) (s : engine) (fv : oid)
    (c : option (jsnum -> jsnum)) (t : Time) :
  _frequencyValues this = Some fv ->
  heap s !! fv = Some (UWaveShaper c) ->
  rebuilds_table_only this s fv (set_attack this t s)
  ∧ rebuilds_table_only this s fv (set_release this t s).
Proof.
  intros Hfv Hn.
  assert (Hlt : (fv < length (heap s))%nat) by (by eapply lookup_lt_Some).
  split.
  - unfold Follower_set_attack. do 3 eexists.
    rewrite run_bind. erewrite setAttackRelease_ok; [|exact Hfv|exact Hn].
    rewrite run_ret. unfold with_map.
    split; [reflexivity|]. cbn [heap edges released trace].
    split; [done|]. split; [done|].
    split; [by rewrite length_insert|].
    split; [intros n Hne; by rewrite list_lookup_insert_ne|].
    split; [by apply list_lookup_insert_eq|]. split; [|done].
    by do 2 eexists.
  - unfold Follower_set_release. do 3 eexists.
    rewrite run_bind. erewrite setAttackRelease_ok; [|exact Hfv|exact Hn].
    rewrite run_ret. unfold with_map.
    split; [reflexivity|]. cbn [heap edges released trace].
    split; [done|]. split; [done|].
    split; [by rewrite length_insert|].
    split; [intros n Hne; by rewrite list_lookup_insert_ne|].
    split; [by apply list_lookup_insert_eq|]. split; [|done].
    by do 2 eexists.
Qed.

End FollowerSettings.

Lemma attack_release_floor_witness :
  Follower__setAttackRelease jsnum seconds_of_number reciprocal demo_bufferTime
    (get_or no_Follower demo_Follower) (Fin (Q2Qc (1 # 100))) (Fin (Q2Qc (2 # 1)))
    (state_of demo_Follower) =
  Ok () (with_map (state_of demo_Follower) 5
           (frequency_map
              (Math_max (reciprocal (seconds_of_number (Fin (Q2Qc (1 # 100)))))
                 demo_bufferTime)
              (Math_max (reciprocal (seconds_of_number (Fin (Q2Qc (2 # 1)))))
                 demo_bufferTime))).
Proof.
  eapply (attack_release_floor jsnum seconds_of_number reciprocal demo_bufferTime
            (get_or no_Follower demo_Follower) (state_of demo_Follower) 5).
  - reflexivity.
  - vm_compute. reflexivity.
  - reflexivity.
Defined.

Lemma setters_keep_topology_witness :
  rebuilds_table_only (get_or no_Follower demo_Follower) (state_of demo_Follower) 5
    (Follower_set_attack jsnum seconds_of_number reciprocal demo_bufferTime
       (get_or no_Follower demo_Follower) (Fin (Q2Qc (1 # 100)))
       (state_of demo_Follower))
  ∧ rebuilds_table_only (get_or no_Follower demo_Follower) (state_of demo_Follower) 5
      (Follower_set_release jsnum seconds_of_number reciprocal demo_bufferTime
         (get_or no_Follower demo_Follower) (Fin (Q2Qc (1 # 100)))
         (state_of demo_Follower)).
Proof.
  eapply (setters_keep_topology jsnum seconds_of_number reciprocal demo_bufferTime
            (get_or no_Follower demo_Follower) (state_of demo_Follower) 5).
  - reflexivity.
  - vm_compute. reflexivity.
Defined.

(** C4 as stated fails for a zero and for a NaN duration: with the
    reciprocal as conversion, an attack of 0 seconds is stored as
    [+Infinity] and a NaN attack as NaN, neither is the minimum. *)
Lemma zero_attack_is_not_clamped :
  shaper_at
    (state_of (Follower_new jsnum seconds_of_number reciprocal demo_bufferTime
                 (Fin 0) (Fin (Q2Qc (5 # 10))) empty_engine)) 5 jzero
  = Some PInf
  ∧ shaper_at
      (state_of (Follower_set_attack jsnum seconds_of_number reciprocal
                   demo_bufferTime (get_or no_Follower demo_Follower) NaN
                   (state_of demo_Follower))) 5 jzero
    = Some NaN
  ∧ PInf ≠ demo_bufferTime ∧ NaN ≠ demo_bufferTime.
Proof. vm_compute. repeat split; discriminate. Qed.
(** ** Building in a context that already holds units *)

Lemma extend_empty (s : engine) : extend s empty_engine = s.
Proof. destruct s. unfold extend. cbn. by rewrite !app_nil_r. Qed.

Lemma length_heap_extend (s r : engine) :
  length (heap (extend s r)) = (length (heap s) + length (heap r))%nat.
Proof. cbn. by rewrite length_app, length_fmap. Qed.

Lemma lookup_heap_extend (s r : engine) (n : oid) :
  heap (extend s r) !! (length (heap s) + n)%nat =
  shift_node (length (heap s)) <$> heap r !! n.
Proof.
  cbn. rewrite lookup_app_r by lia.
  replace (length (heap s) + n - length (heap s))%nat with n by lia.
  by rewrite list_lookup_fmap.
Qed.

Lemma filter_all {A : Type} (P : A -> Prop) `{∀ x, Decision (P x)} (l : list A) :
  Forall P l -> filter P l = l.
Proof.
  induction 1 as [|x l Hx _ IH]; [done|].
  by rewrite filter_cons_True, IH.
Qed.

Lemma filter_none {A : Type} (P : A -> Prop) `{∀ x, Decision (P x)} (l : list A) :
  Forall (fun x => ¬ P x) l -> filter P l = [].
Proof.
  induction 1 as [|x l Hx _ IH]; [done|].
  by rewrite filter_cons_False.
Qed.

Section Sim.

Variable s : engine.
Hypothesis Hwf : wf s.

Local Abbreviation k := (length (heap s)).

Lemma sim_ret {A B : Type} (R : A -> B -> Prop) (a : A) (b : B) :
  R a b -> sim R s (mret a) (mret b).
Proof. intros HR r. cbn. eauto. Qed.

Lemma sim_throw {A B : Type} (R : A -> B -> Prop) (e : js_error) :
  sim R s (throw e) (throw e).
Proof. intros r. reflexivity. Qed.

Lemma sim_bind {A B A' B' : Type} (R : A -> B -> Prop) (R' : A' -> B' -> Prop)
    (m : M A) (m' : M B) (f : A -> M A') (f' : B -> M B') :
  sim R s m m' ->
  (∀ a b, R a b -> sim R' s (f a) (f' b)) ->
  sim R' s (m ≫= f) (m' ≫= f').
Proof.
  intros Hm Hf r. rewrite !run_bind. specialize (Hm r).
  destruct (m' r) as [b r'|e r'].
  - destruct Hm as (a & -> & HR). apply (Hf a b HR r').
  - by rewrite Hm.
Qed.

Lemma sim_deref {A B : Type} (R : A -> B -> Prop) (x : option A) (y : option B) :
  option_Forall2 R x y -> sim R s (deref x) (deref y).
Proof.
  intros [a b HR|]; cbn; [by apply sim_ret | apply sim_throw].
Qed.

Lemma sim_deref_oid (y : option oid) :
  sim (fun a b => a = (k + b)%nat) s (deref (Nat.add k <$> y)) (deref y).
Proof. apply sim_deref. destruct y; constructor. done. Qed.

Lemma sim_log (c : call) : sim eq s (log (shift_call k c)) (log c).
Proof.
  intros r. cbn. exists (). split; [|done]. unfold extend. cbn.
  by rewrite fmap_app, app_assoc.
Qed.

Lemma sim_get_node (n : oid) :
  sim (fun a b => a = shift_node k b) s (get_node (k + n)) (get_node n).
Proof.
  intros r. unfold get_node. rewrite !run_bind. cbn -[extend].
  rewrite lookup_heap_extend.
  destruct (heap r !! n) as [u|]; cbn -[extend]; eauto.
Qed.

Lemma sim_put_node (n : oid) (u : node) :
  sim eq s (put_node (k + n) (shift_node k u)) (put_node n u).
Proof.
  intros r. unfold put_node, modify. exists (). split; [|done].
  unfold extend. cbn [heap edges released trace]. f_equal.
  by rewrite insert_app_r, list_fmap_insert.
Qed.

Lemma sim_alloc (u : node) :
  sim (fun a b => a = (k + b)%nat) s (alloc (shift_node k u)) (alloc u).
Proof.
  intros r. unfold alloc, log, modify. rewrite !run_bind.
  cbn [get_engine]. rewrite !run_bind, run_ret.
  exists (k + length (heap r))%nat. split; [|done].
  rewrite length_heap_extend. f_equal.
  unfold extend. cbn [heap edges released trace].
  by rewrite !fmap_app, !app_assoc.
Qed.

Lemma get_param_shift (u : node) (p : pname) :
  get_param (shift_node k u) p = get_param u p.
Proof. by destruct u. Qed.

Lemma set_param_shift (u : node) (p : pname) (x : param) :
  set_param (shift_node k u) p x = shift_node k <$> set_param u p x.
Proof. by destruct u, p. Qed.

Lemma constructor_of_shift (u : node) :
  constructor_of (shift_node k u) = constructor_of u.
Proof. by destruct u. Qed.

Lemma sim_read_param (r : ref) :
  sim eq s (read_param (shift_ref k r)) (read_param r).
Proof.
  destruct r as [n|n i|n p]; cbn [shift_ref read_param];
    try apply sim_throw.
  eapply sim_bind; [apply sim_get_node|]. intros a b ->.
  rewrite get_param_shift. apply sim_deref.
  destruct (get_param b p); by constructor.
Qed.

Lemma sim_write_param (r : ref) (x : param) :
  sim eq s (write_param (shift_ref k r) x) (write_param r x).
Proof.
  destruct r as [n|n i|n p]; cbn [shift_ref write_param];
    try apply sim_throw.
  eapply sim_bind; [apply sim_get_node|]. intros a b ->.
  eapply sim_bind with (R := fun a b => a = shift_node k b).
  - rewrite set_param_shift. apply sim_deref.
    destruct (set_param b p x); by constructor.
  - intros ? u' ->. apply sim_put_node.
Qed.

Lemma sim_cancelScheduledValues (r : ref) (t : Qc) :
  sim eq s (cancelScheduledValues (shift_ref k r) t) (cancelScheduledValues r t).
Proof.
  unfold cancelScheduledValues.
  eapply sim_bind; [apply sim_read_param|]. intros ? x ->.
  eapply sim_bind; [apply sim_write_param|]. intros _ _ _.
  apply (sim_log (CCancelScheduledValues r t)).
Qed.

Lemma sim_set_value (r : ref) (v : jsnum) :
  sim eq s (set_value (shift_ref k r) v) (set_value r v).
Proof.
  unfold set_value.
  eapply sim_bind; [apply sim_read_param|]. intros ? x ->.
  eapply sim_bind; [apply sim_write_param|]. intros _ _ _.
  apply (sim_log (CSetValue r v)).
Qed.

Lemma sim_lookup_heap {A B : Type} (R : A -> B -> Prop)
    (f : list node -> option A) (f' : list node -> option B) :
  (∀ h, option_Forall2 R (f (heap s ++ (shift_node k <$> h))) (f' h)) ->
  sim R s (lookup_heap f) (lookup_heap f').
Proof.
  intros H r. unfold lookup_heap. rewrite !run_bind. cbn -[extend].
  specialize (H (heap r)). change (heap (extend s r)) with (heap s ++ (shift_node k <$> heap r)).
  destruct H as [a b HR|]; cbn -[extend]; eauto.
Qed.

Lemma lookup_extend (h : list node) (n : oid) :
  (heap s ++ (shift_node k <$> h)) !! (k + n)%nat = shift_node k <$> h !! n.
Proof.
  rewrite lookup_app_r by lia.
  replace (k + n - k)%nat with n by lia. by rewrite list_lookup_fmap.
Qed.

Lemma output_of_extend (h : list node) (n : oid) :
  option_Forall2 (fun a b => a = (k + b)%nat)
    (output_of (heap s ++ (shift_node k <$> h)) (k + n)) (output_of h n).
Proof.
  unfold output_of. rewrite lookup_extend.
  destruct (h !! n) as [u|]; cbn; [|constructor].
  destruct u as [| | | | | | | | |c ins [[m|m j|m q]|]]; cbn; by constructor.
Qed.

Lemma port_of_shift (r : ref) : port_of (shift_ref k r) = shift_ref k (port_of r).
Proof. destruct r; cbn; by rewrite ?Nat.add_0_r. Qed.

Lemma input_of_extend (h : list node) (nd : ref) (i : option nat) :
  option_Forall2 (fun a b => a = shift_ref k b)
    (input_of (heap s ++ (shift_node k <$> h)) (shift_ref k nd) i)
    (input_of h nd i).
Proof.
  unfold input_of. destruct nd as [n|n j|n p]; cbn [shift_ref];
    rewrite lookup_extend; destruct (h !! n) as [u|]; cbn; try constructor.
  - destruct u; cbn; try by constructor.
    rewrite list_lookup_fmap.
    destruct (input !! default_arg i 0) as [r|]; cbn; constructor.
    apply port_of_shift.
  - done.
  - rewrite get_param_shift. destruct (get_param u p); by constructor.
Qed.

Lemma ctor_of_ref_extend (h : list node) (nd : ref) :
  option_Forall2 eq
    (ctor_of_ref (heap s ++ (shift_node k <$> h)) (shift_ref k nd))
    (ctor_of_ref h nd).
Proof.
  unfold ctor_of_ref. destruct nd as [n|n j|n p]; cbn [shift_ref];
    rewrite lookup_extend; destruct (h !! n) as [u|]; cbn; try by constructor.
  - constructor. apply constructor_of_shift.
  - rewrite get_param_shift. destruct (get_param u p); by constructor.
Qed.

Global Instance shift_ref_inj : Inj eq eq (shift_ref k).
Proof.
  intros [n|n i|n p] [m|m j|m q]; cbn; intros H; simplify_eq; f_equal; lia.
Qed.

Global Instance shift_edge_inj : Inj eq eq (shift_edge k).
Proof.
  intros [a o d] [a' o' d']. unfold shift_edge. cbn. intros [= Ha -> Hd].
  f_equal; [lia | by apply (inj (shift_ref k))].
Qed.

Lemma shift_edge_fresh (e : edge) : shift_edge k e ∉ edges s.
Proof.
  intros Hin. pose proof Hwf as H. unfold wf in H.
  rewrite list.Forall_forall in H. apply H in Hin as [Hlt _].
  cbn [shift_edge e_src] in Hlt. lia.
Qed.

Lemma add_conn_extend (e : edge) (es : list edge) :
  add_conn (shift_edge k e) (edges s ++ (shift_edge k <$> es)) =
  edges s ++ (shift_edge k <$> add_conn e es).
Proof.
  unfold add_conn. destruct (decide (e ∈ es)) as [Hin|Hin].
  - rewrite !bool_decide_eq_true_2; [done|done|].
    apply elem_of_app. right. by apply list_elem_of_fmap_2.
  - rewrite !bool_decide_eq_false_2; [by rewrite fmap_app, app_assoc|done|].
    intros [H|H]%elem_of_app; [by apply shift_edge_fresh in H|].
    apply list_elem_of_fmap in H as (e' & Heq & He').
    apply (inj (shift_edge k)) in Heq. by subst.
Qed.

Lemma sim_add_edge (e : edge) :
  sim eq s (add_edge (shift_edge k e)) (add_edge e).
Proof.
  unfold add_edge. eapply sim_bind with (R := eq).
  - intros r. unfold modify. exists (). split; [|done].
    unfold extend. cbn [heap edges released trace].
    by rewrite add_conn_extend.
  - intros _ _ _. apply (sim_log (CConnect e)).
Qed.

Lemma filter_src_extend (n : oid) (es : list edge) :
  filter (fun e => e_src e ≠ (k + n)%nat) (edges s ++ (shift_edge k <$> es)) =
  edges s ++ (shift_edge k <$> filter (fun e => e_src e ≠ n) es).
Proof.
  rewrite list.filter_app. f_equal.
  - apply filter_all. eapply list.Forall_impl; [exact Hwf|].
    cbn. intros e [H _]. lia.
  - induction es as [|e es IH]; [done|]. cbn [fmap list_fmap].
    rewrite !filter_cons. cbn [shift_edge e_src].
    destruct (decide (e_src e ≠ n)) as [Hne|Heq].
    + rewrite decide_True by lia. cbn. by rewrite IH.
    + rewrite decide_False by lia. done.
Qed.

Lemma sim_disconnect (n : oid) :
  sim eq s (disconnect (k + n)) (disconnect n).
Proof.
  unfold disconnect.
  eapply sim_bind; [apply sim_get_node|]. intros _ _ _.
  eapply sim_bind with (R := eq).
  - intros r. unfold modify. exists (). split; [|done].
    unfold extend. cbn [heap edges released trace].
    by rewrite filter_src_extend.
  - intros _ _ _. apply (sim_log (CDisconnect n)).
Qed.

Lemma sim_release (n : oid) :
  sim eq s (release (k + n)) (release n).
Proof.
  unfold release.
  eapply sim_bind; [apply sim_get_node|]. intros _ _ _.
  eapply sim_bind with (R := eq).
  - intros r. unfold modify. exists (). split; [|done].
    unfold extend. cbn [heap edges released trace].
    by rewrite filter_src_extend, fmap_app, app_assoc.
  - intros _ _ _. apply (sim_log (CRelease n)).
Qed.

Lemma sim_Tone_connect (this : oid) (nd : ref) (o i : option nat) :
  sim eq s (Tone_connect (k + this) (shift_ref k nd) o i) (Tone_connect this nd o i).
Proof.
  unfold Tone_connect.
  eapply sim_bind; [apply sim_lookup_heap; intros h; apply output_of_extend|].
  intros ? src ->.
  eapply sim_bind; [apply sim_lookup_heap; intros h; apply input_of_extend|].
  intros ? dst ->.
  apply (sim_add_edge (mkEdge src (default_arg o 0) dst)).
Qed.

Lemma sim_SignalBase_connect (this : oid) (nd : ref) (o i : option nat) :
  sim eq s (SignalBase_connect (k + this) (shift_ref k nd) o i)
    (SignalBase_connect this nd o i).
Proof.
  unfold SignalBase_connect.
  eapply sim_bind; [apply sim_lookup_heap; intros h; apply ctor_of_ref_extend|].
  intros ? c ->.
  eapply sim_bind with (R := eq); [|intros _ _ _; apply sim_Tone_connect].
  destruct (bool_decide (c = Tone_Signal)).
  - eapply sim_bind with (R := fun a b => a = shift_ref k b).
    + destruct nd; cbn; try apply (sim_throw _ TypeError). by apply sim_ret.
    + intros ? v ->.
      eapply sim_bind; [apply sim_cancelScheduledValues|].
      intros _ _ _. apply sim_set_value.
  - destruct (instanceof c AudioParam); [|by apply sim_ret].
    eapply sim_bind; [apply sim_cancelScheduledValues|].
    intros _ _ _. apply sim_set_value.
Qed.

Lemma sim_connect (a b : oid) (nd nd' : ref) (o i : option nat) :
  a = (k + b)%nat -> nd = shift_ref k nd' ->
  sim eq s (connect a nd o i) (connect b nd' o i).
Proof.
  intros -> ->. unfold connect.
  eapply sim_bind; [apply sim_get_node|]. intros ? u ->.
  rewrite constructor_of_shift.
  destruct (has_signal_connect _);
    [apply sim_SignalBase_connect | apply sim_Tone_connect].
Qed.

Lemma sim_chain (a b : oid) (us us' : list ref) :
  a = (k + b)%nat -> us = shift_ref k <$> us' ->
  sim eq s (chain a us) (chain b us').
Proof.
  intros -> ->. revert b. induction us' as [|u rest IH]; intros b.
  - by apply sim_ret.
  - cbn [fmap list_fmap chain].
    eapply sim_bind; [by apply sim_connect|]. intros _ _ _.
    destruct rest as [|u' rest]; [by apply sim_ret|].
    change (shift_ref k <$> u' :: rest)
      with (shift_ref k u' :: (shift_ref k <$> rest)).
    cbv iota.
    eapply sim_bind with (R := fun a b => a = (k + b)%nat).
    + destruct u; cbn; try apply (sim_throw _ TypeError). by apply sim_ret.
    + intros ? n ->. apply IH.
Qed.

Lemma sim_fan (a b : oid) (us us' : list ref) :
  a = (k + b)%nat -> us = shift_ref k <$> us' ->
  sim eq s (fan a us) (fan b us').
Proof.
  intros -> ->. induction us' as [|u rest IH].
  - by apply sim_ret.
  - cbn [fmap list_fmap fan].
    eapply sim_bind; [by apply sim_connect|]. intros _ _ _. apply IH.
Qed.

Lemma sim_alloc2 (u u' : node) :
  u = shift_node k u' ->
  sim (fun a b => a = (k + b)%nat) s (alloc u) (alloc u').
Proof. intros ->. apply sim_alloc. Qed.

Lemma sim_put_node2 (a b : oid) (u u' : node) :
  a = (k + b)%nat -> u = shift_node k u' ->
  sim eq s (put_node a u) (put_node b u').
Proof. intros -> ->. apply sim_put_node. Qed.

Lemma sim_set_value2 (r r' : ref) (v : jsnum) :
  r = shift_ref k r' -> sim eq s (set_value r v) (set_value r' v).
Proof. intros ->. apply sim_set_value. Qed.

Lemma sim_disconnect2 (a b : oid) :
  a = (k + b)%nat -> sim eq s (disconnect a) (disconnect b).
Proof. intros ->. apply sim_disconnect. Qed.

Lemma sim_deref2 (x y : option oid) :
  x = Nat.add k <$> y ->
  sim (fun a b => a = (k + b)%nat) s (deref x) (deref y).
Proof. intros ->. apply sim_deref_oid. Qed.

Lemma sim_setMap (a b : oid) (f : jsnum -> jsnum) :
  a = (k + b)%nat -> sim eq s (setMap a f) (setMap b f).
Proof.
  intros ->. unfold setMap.
  eapply sim_bind; [apply sim_get_node|]. intros ? u ->.
  destruct u; cbn [shift_node]; try apply (sim_throw _ TypeError).
  eapply sim_bind; [apply (sim_put_node _ (UWaveShaper (Some f)))|].
  intros _ _ _. apply (sim_log (CSetMap b)).
Qed.

Lemma sim_Tone_call (c : ctor) :
  sim (fun a b => a = ((k + b.1.1)%nat, (k + b.1.2)%nat, (k + b.2)%nat)) s
    (Tone_call c) (Tone_call c).
Proof.
  unfold Tone_call.
  eapply sim_bind; [by apply sim_alloc2|]. intros ? this ->.
  eapply sim_bind; [by apply sim_alloc2|]. intros ? i ->.
  eapply sim_bind; [by apply sim_alloc2|]. intros ? o ->.
  eapply sim_bind; [by apply sim_put_node2|]. intros _ _ _.
  by apply sim_ret.
Qed.

(** One step of a constructor: the next call on both sides. *)
Ltac sim_step :=
  first
    [ eapply sim_bind;
      [ first [ apply sim_alloc2; reflexivity
              | apply sim_put_node2; reflexivity
              | apply sim_set_value2; reflexivity
              | apply sim_connect; reflexivity
              | apply sim_chain; reflexivity
              | apply sim_fan; reflexivity
              | apply sim_disconnect2; reflexivity
              | apply sim_deref2; reflexivity
              | apply sim_setMap; reflexivity ]
      | let H := fresh in intros ? ? H; cbv beta in H; subst ]
    | apply sim_connect; reflexivity
    | apply sim_setMap; reflexivity
    | apply sim_ret; reflexivity ].

Section Constructors.

Variable Time : Type.
Variable toSeconds : Time -> jsnum.
Variable secondsToFrequency : jsnum -> jsnum.
Variable bufferTime : jsnum.

Lemma sim_setAttackRelease (this this' : Follower Time) (a r : Time) :
  this = shift_Follower k this' ->
  sim eq s
    (Follower__setAttackRelease Time toSeconds secondsToFrequency bufferTime this a r)
    (Follower__setAttackRelease Time toSeconds secondsToFrequency bufferTime this' a r).
Proof.
  intros ->. unfold Follower__setAttackRelease. cbv zeta.
  repeat sim_step.
Qed.

Lemma sim_Follower_new (a r : Time) :
  sim (fun f f' => f = shift_Follower k f') s
    (Follower_new Time toSeconds secondsToFrequency bufferTime a r)
    (Follower_new Time toSeconds secondsToFrequency bufferTime a r).
Proof.
  unfold Follower_new.
  eapply sim_bind; [apply sim_Tone_call|].
  intros ? [[this input] output] ->. cbn [fst snd].
  repeat sim_step.
Qed.

Lemma sim_GreaterThan_new (v : option jsnum) :
  sim (fun g g' => g = shift_GreaterThan k g') s
    (GreaterThan_new v) (GreaterThan_new v).
Proof. unfold GreaterThan_new, Tone_call_ports. repeat sim_step. Qed.

Lemma sim_StereoXFeedbackEffect_call (c : ctor) (fb : jsnum) :
  sim (fun b b' => b = shift_effect k b') s
    (StereoXFeedbackEffect_call c fb) (StereoXFeedbackEffect_call c fb).
Proof. unfold StereoXFeedbackEffect_call. repeat sim_step. Qed.

Lemma sim_PingPongDelay_new (dt : Time) (mx fb : jsnum) :
  sim (fun p p' => p = shift_PingPongDelay k p') s
    (PingPongDelay_new Time toSeconds dt mx fb)
    (PingPongDelay_new Time toSeconds dt mx fb).
Proof.
  unfold PingPongDelay_new.
  eapply sim_bind; [apply sim_StereoXFeedbackEffect_call|].
  intros ? b ->. repeat sim_step.
Qed.

End Constructors.

End Sim.
(** ** What the graph computes *)

Lemma out_S (fuel : nat) (g : engine) (ev : env) (n : oid) (t : Qc) :
  out (S fuel) g ev n t =
  heap g !! n ≫= node_out g ev (arriving_at fuel g ev) n t.
Proof. reflexivity. Qed.

Lemma sum_all_nil : sum_all [] = Some jzero.
Proof. reflexivity. Qed.

Lemma sum_all_one (a : jsnum) : sum_all [Some a] = Some a.
Proof. cbn. by rewrite jadd_0_r. Qed.

Lemma sum_all_two (a b : jsnum) : sum_all [Some a; Some b] = Some (jadd a b).
Proof. cbn. by rewrite jadd_0_r. Qed.

Lemma sum_all_cons (x : option jsnum) (l : list (option jsnum)) :
  sum_all (x :: l) = sum_all l ≫= λ a, x ≫= λ v, Some (jadd v a).
Proof. reflexivity. Qed.

(** More fuel never changes a result. *)
Lemma sum_all_mono {A : Type} (f f' : A -> option jsnum) (l : list A) (v : jsnum) :
  (∀ x w, f x = Some w -> f' x = Some w) ->
  sum_all (map f l) = Some v -> sum_all (map f' l) = Some v.
Proof.
  intros Hf. revert v. induction l as [|x l IH]; intros v; [done|].
  cbn [map]. rewrite !sum_all_cons.
  destruct (sum_all (map f l)) as [a|]; [|done]. cbn.
  destruct (f x) as [w|] eqn:Hx; [|done]. cbn. intros [= <-].
  by rewrite (IH a eq_refl), (Hf x w Hx).
Qed.

Lemma node_out_mono (g : engine) (ev : env)
    (arr arr' : ref -> Qc -> option jsnum) (n : oid) (t : Qc) (u : node) (v : jsnum) :
  (∀ port tt w, arr port tt = Some w -> arr' port tt = Some w) ->
  node_out g ev arr n t u = Some v -> node_out g ev arr' n t u = Some v.
Proof.
  intros Harr. unfold node_out.
  destruct u; cbn;
    repeat (match goal with
            | |- context [arr ?p ?tt] =>
                let E := fresh "E" in
                destruct (arr p tt) as [?|] eqn:E;
                [rewrite (Harr _ _ _ E) | try done]
            | |- context [match ?d with Fin _ => _ | _ => _ end] => destruct d
            | |- context [if ?b then _ else _] => destruct b
            | |- context [match incoming ?g ?p with [] => _ | _ => _ end] =>
                destruct (incoming g p)
            end; cbn; try done).
  all: done.
Qed.

Lemma out_mono_S (fuel : nat) (g : engine) (ev : env) :
  ∀ n t v, out fuel g ev n t = Some v -> out (S fuel) g ev n t = Some v.
Proof.
  induction fuel as [|fuel IH]; intros n t v; [done|].
  rewrite !out_S. destruct (heap g !! n) as [u|]; [|done]. cbn.
  apply node_out_mono. intros port tt w. unfold arriving_at.
  apply sum_all_mono. intros e. apply IH.
Qed.

Lemma out_mono (fuel fuel' : nat) (g : engine) (ev : env) (n : oid) (t : Qc) (v : jsnum) :
  (fuel ≤ fuel')%nat -> out fuel g ev n t = Some v -> out fuel' g ev n t = Some v.
Proof.
  induction 1 as [|fuel' _ IH]; [done|].
  intros H. by apply out_mono_S, IH.
Qed.

(** A unit built in a context computes what it computes alone. *)
Section Frame.

Variable s : engine.
Hypothesis Hwf : wf s.

Local Abbreviation k := (length (heap s)).

Lemma targets_shift (port : ref) (e : edge) :
  targets (shift_ref k port) (shift_edge k e) = targets port e.
Proof.
  unfold targets. cbn [shift_edge e_dst].
  apply bool_decide_ext. split; [apply (inj (shift_ref k)) | by intros ->].
Qed.

Lemma incoming_extend (r : engine) (port : ref) :
  incoming (extend s r) (shift_ref k port) = shift_edge k <$> incoming r port.
Proof.
  unfold incoming, extend. cbn [edges]. rewrite list.filter_app.
  rewrite (filter_none _ (edges s)).
  - cbn [app]. induction (edges r) as [|e es IH]; [done|].
    cbn [fmap list_fmap]. rewrite !filter_cons, targets_shift.
    destruct (decide (targets port e = true)); cbn; by rewrite IH.
  - eapply list.Forall_impl; [exact Hwf|]. cbn. intros e [_ H] Ht.
    unfold targets in Ht. apply bool_decide_eq_true_1 in Ht.
    rewrite Ht in H. destruct port; cbn in H; lia.
Qed.

Lemma node_out_extend (r : engine) (ev : env)
    (arr arr' : ref -> Qc -> option jsnum) (n : oid) (t : Qc) (u : node) :
  (∀ port tt, arr (shift_ref k port) tt = arr' port tt) ->
  node_out (extend s r) ev arr (k + n) t (shift_node k u) =
  node_out r (shift_env k ev) arr' n t u.
Proof.
  intros Harr. unfold node_out.
  pose proof (Harr (RInput n 0)) as H0.
  pose proof (Harr (RInput n 1)) as H1.
  pose proof (fun p => Harr (RParam n p)) as Hp.
  cbn [shift_ref] in H0, H1, Hp.
  pose proof (incoming_extend r (RInput n 1)) as Hi. cbn [shift_ref] in Hi.
  destruct u as [gn|dl mx|fr qf|vp| |v|v|c| |c ins o];
    cbn [shift_node shift_env ext_in biquad];
    rewrite ?H0, ?H1, ?Hp, ?Hi; try done.
  - destruct (arr' (RParam n P_delayTime) t) as [a|]; [|done]. cbn.
    destruct (jadd (value dl) a) as [dq| | |]; try done.
    destruct (_ && _); [|done]. destruct (Qc_ltb t dq); [done|].
    by rewrite H0.
  - destruct (incoming r (RInput n 1)); done.
  - destruct (incoming r (RInput n 1)); done.
Qed.

Lemma arriving_at_extend (fuel : nat) (r : engine) (ev : env) (port : ref) (t : Qc) :
  (∀ n tt, out fuel (extend s r) ev (k + n) tt = out fuel r (shift_env k ev) n tt) ->
  arriving_at fuel (extend s r) ev (shift_ref k port) t =
  arriving_at fuel r (shift_env k ev) port t.
Proof.
  intros IH. unfold arriving_at. rewrite incoming_extend.
  rewrite <- list_fmap_compose. f_equal.
  apply list_fmap_ext. intros _ e _. cbn. apply IH.
Qed.

Lemma out_extend (fuel : nat) (r : engine) (ev : env) :
  ∀ n t, out fuel (extend s r) ev (k + n) t = out fuel r (shift_env k ev) n t.
Proof.
  induction fuel as [|fuel IH]; intros n t; [done|].
  rewrite !out_S, lookup_heap_extend.
  destruct (heap r !! n) as [u|]; [|done]. cbn [fmap option_fmap option_map mbind option_bind].
  apply node_out_extend. intros port tt. by apply arriving_at_extend.
Qed.

Lemma computed_value_extend (fuel : nat) (r : engine) (ev : env)
    (n : oid) (p : pname) (t : Qc) :
  computed_value fuel (extend s r) ev (k + n) p t =
  computed_value fuel r (shift_env k ev) n p t.
Proof.
  unfold computed_value. rewrite lookup_heap_extend.
  destruct (heap r !! n) as [u|]; [|done].
  cbn [fmap option_fmap option_map mbind option_bind].
  rewrite get_param_shift. destruct (get_param u p); [|done].
  cbn [mbind option_bind].
  pose proof (arriving_at_extend fuel r ev (RParam n p) t (out_extend fuel r ev)) as H.
  cbn [shift_ref] in H. by rewrite H.
Qed.

End Frame.
Lemma sim_run {A B : Type} (R : A -> B -> Prop) (s : engine) (m : M A) (m' : M B)
    (b : B) (r' : engine) :
  sim R s m m' -> m' empty_engine = Ok b r' ->
  ∃ a, m s = Ok a (extend s r') ∧ R a b.
Proof.
  intros Hsim Hrun. specialize (Hsim empty_engine).
  rewrite Hrun, extend_empty in Hsim. exact Hsim.
Qed.

Lemma arriving_at_eq (fuel : nat) (g : engine) (ev : env) (port : ref) (t : Qc)
    (es : list edge) :
  incoming g port = es ->
  arriving_at fuel g ev port t = sum_all (map (fun e => out fuel g ev (e_src e) t) es).
Proof. by intros <-. Qed.

(** ** The comparator *)

Lemma jone_ne_jzero : jone ≠ jzero.
Proof. intros [= H]. Qed.

Lemma Qc_ltb_sub (a t : Qc) : Qc_ltb 0 (a + - t) = Qc_ltb t a.
Proof.
  destruct (Qc_ltb t a) eqn:E.
  - apply Qc_ltb_lt. apply Qc_ltb_lt in E.
    apply (Qcplus_lt_mono_r _ _ (- t)) in E.
    by rewrite Qcplus_opp_r in E.
  - apply Qc_ltb_ge. apply Qc_ltb_ge in E.
    apply (Qcplus_le_mono_r _ _ (- t)) in E.
    by rewrite Qcplus_opp_r in E.
Qed.

(** [a - t > 0] exactly when [a > t], the special values included. *)
Lemma jgt_jsub (a t : jsnum) : jgt (jsub a t) jzero = jgt a t.
Proof.
  destruct a as [x| | |], t as [y| | |]; try reflexivity.
  apply Qc_ltb_sub.
Qed.

Lemma jgt_irrefl (a : jsnum) : jgt a a = false.
Proof.
  destruct a as [x| | |]; try reflexivity.
  apply Qc_ltb_ge, Qcle_refl.
Qed.

Lemma GreaterThan_new_alone (v : option jsnum) :
  GreaterThan_new v empty_engine =
  Ok (mkGreaterThan 0 (Some 1%nat) (Some 2%nat)) (GreaterThan_alone v).
Proof. reflexivity. Qed.

Lemma GreaterThan_alone_out (v : option jsnum) (ev : env) (fuel : nat) (t : Qc) :
  ext_in ev 2 t = jzero ->
  out (S fuel) (GreaterThan_alone v) ev 1 t
    = Some (Subtract_out (ext_in ev 1 t) (default_value v))
  ∧ out (S (S fuel)) (GreaterThan_alone v) ev 2 t
    = Some (GreaterThanZero_out (Subtract_out (ext_in ev 1 t) (default_value v))).
Proof.
  intros Hext.
  assert (H1 : ∀ f, out (S f) (GreaterThan_alone v) ev 1 t
                    = Some (Subtract_out (ext_in ev 1 t) (default_value v))).
  { intros f. rewrite out_S.
    change (heap (GreaterThan_alone v) !! 1%nat) with (Some (USubtract (default_value v))).
    cbn [mbind option_bind]. unfold node_out.
    change (incoming (GreaterThan_alone v) (RInput 1 1)) with (@nil edge).
    rewrite (arriving_at_eq f (GreaterThan_alone v) ev (RInput 1 0) t [] eq_refl).
    cbn [map]. rewrite sum_all_nil. cbn [mbind option_bind].
    by rewrite jadd_0_r. }
  split; [apply H1|].
  rewrite out_S.
  change (heap (GreaterThan_alone v) !! 2%nat) with (Some UGreaterThanZero).
  cbn [mbind option_bind]. unfold node_out.
  rewrite (arriving_at_eq (S fuel) (GreaterThan_alone v) ev (RInput 2 0) t
             [mkEdge 1 0 (RInput 2 0)] eq_refl).
  cbn [map e_src]. rewrite H1, sum_all_one. cbn [mbind option_bind].
  by rewrite Hext, jadd_0_l.
Qed.
Lemma wf_empty : wf empty_engine.
Proof. constructor. Qed.

Lemma wf_demo : wf demo_engine.
Proof.
  unfold wf.
  change (edges demo_engine) with [mkEdge 4 0 (RInput 5 0)].
  change (length (heap demo_engine)) with 6%nat.
  constructor; [cbn; lia | constructor].
Qed.

(** C5.  [GreaterThan(t)] is a subtractor computing [a - t] feeding a
    [GreaterThanZero]: its output is 1 exactly when [a > t], and 0 when
    [a] equals [t]; [GreaterThanZero] gives 1 for [x > 0] and 0
    otherwise, 0 for 0.  The comparator is built in any well-formed
    context [s]; [a] is what enters its first input. *)
Theorem GreaterThan_is_strict (v : option jsnum) (s : engine) :
  wf s ->
  let k := length (heap s) in
  let t := default_value v in
  ∃ s',
    GreaterThan_new v s = Ok (mkGreaterThan k (Some (k + 1)%nat) (Some (k + 2)%nat)) s'
    ∧ heap s' !! k =
        Some (UComposite Tone_GreaterThan [RNode (k + 1); RInput (k + 1) 1]
                (Some (RNode (k + 2))))
    ∧ (∀ (ev : env) (fuel : nat) (time : Qc),
         (2 ≤ fuel)%nat -> ext_in ev (k + 2)%nat time = jzero ->
         let a := ext_in ev (k + 1)%nat time in
         out fuel s' ev (k + 1) time = Some (jsub a t)
         ∧ out fuel s' ev (k + 2) time = Some (GreaterThanZero_out (jsub a t))
         ∧ (out fuel s' ev (k + 2) time = Some jone <-> jgt a t = true)
         ∧ (jgt a t = false -> out fuel s' ev (k + 2) time = Some jzero)
         ∧ (a = t -> out fuel s' ev (k + 2) time = Some jzero))
    ∧ (∀ x, GreaterThanZero_out x = if jgt x jzero then jone else jzero)
    ∧ GreaterThanZero_out jzero = jzero.
Proof.
  intros Hwf k t. subst k t.
  destruct (sim_run _ s _ _ _ _ (sim_GreaterThan_new s Hwf v) (GreaterThan_new_alone v))
    as (g & Hrun & ->).
  exists (extend s (GreaterThan_alone v)). split.
  { rewrite Hrun. unfold shift_GreaterThan. cbn. by rewrite Nat.add_0_r. }
  split.
  { pose proof (lookup_heap_extend s (GreaterThan_alone v) 0) as H.
    rewrite Nat.add_0_r in H. by rewrite H. }
  split; [|done].
  intros ev fuel time Hfuel Hext a.
  destruct fuel as [|[|fuel]]; [lia|lia|].
  rewrite !(out_extend s Hwf).
  destruct (GreaterThan_alone_out v (shift_env (length (heap s)) ev) fuel time Hext)
    as [Hsub Hgtz].
  apply (out_mono_S (S fuel)) in Hsub.
  rewrite Hsub, Hgtz.
  change (ext_in (shift_env (length (heap s)) ev) 1 time) with a.
  unfold Subtract_out, GreaterThanZero_out. rewrite !jgt_jsub.
  split; [done|]. split; [done|]. split; [|split].
  - destruct (jgt a (default_value v)); split; done.
  - by intros ->.
  - intros ->. by rewrite jgt_irrefl.
Qed.

Lemma GreaterThan_is_strict_witness :
  ∃ s',
    GreaterThan_new (Some (Fin (Qc_of_Z 3))) demo_engine =
      Ok (mkGreaterThan 6 (Some 7%nat) (Some 8%nat)) s'
    ∧ out 2 s' (feeding 7 (fun _ => Fin (Qc_of_Z 5)) (fun _ => jzero)) 8 0 = Some jone
    ∧ out 2 s' (feeding 7 (fun _ => Fin (Qc_of_Z 3)) (fun _ => jzero)) 8 0 = Some jzero.
Proof.
  destruct (GreaterThan_is_strict (Some (Fin (Qc_of_Z 3))) demo_engine wf_demo)
    as (s' & Hnew & _ & Hout & _).
  exists s'. split; [exact Hnew|]. split.
  - apply (Hout (feeding 7 (fun _ => Fin (Qc_of_Z 5)) (fun _ => jzero)) 2%nat 0);
      [lia | reflexivity | reflexivity].
  - apply (Hout (feeding 7 (fun _ => Fin (Qc_of_Z 3)) (fun _ => jzero)) 2%nat 0);
      [lia | reflexivity | reflexivity].
Defined.
(** ** The follower *)

Lemma jmul_1_r (a : jsnum) : jmul a jone = a.
Proof.
  destruct a as [x| | |]; try reflexivity.
  cbn. f_equal. ring.
Qed.

Lemma arriving_at_mono (fuel fuel' : nat) (g : engine) (ev : env) (port : ref)
    (t : Qc) (v : jsnum) :
  (fuel ≤ fuel')%nat ->
  arriving_at fuel g ev port t = Some v -> arriving_at fuel' g ev port t = Some v.
Proof.
  intros Hle. unfold arriving_at. apply sum_all_mono.
  intros e w. by apply out_mono.
Qed.

Lemma computed_value_mono (fuel fuel' : nat) (g : engine) (ev : env) (n : oid)
    (p : pname) (t : Qc) (v : jsnum) :
  (fuel ≤ fuel')%nat ->
  computed_value fuel g ev n p t = Some v -> computed_value fuel' g ev n p t = Some v.
Proof.
  intros Hle. unfold computed_value.
  destruct (heap g !! n) as [u|]; [|done]. cbn.
  destruct (get_param u p) as [x|]; [|done]. cbn.
  destruct (arriving_at fuel g ev (RParam n p) t) as [a|] eqn:E; [|done].
  by rewrite (arriving_at_mono fuel fuel' g ev _ t a Hle E).
Qed.

Lemma jgt_not_jle (v : jsnum) : jgt v jzero = true -> jle v jzero = false.
Proof.
  destruct v as [x| | |]; try done. cbn.
  intros H%Qc_ltb_lt. by apply Qc_leb_gt.
Qed.

Lemma shift_env_feeding (k n : nat) (x resp : Qc -> jsnum) :
  (∀ m t, m ≠ n -> ext_in (shift_env k (feeding (k + n) x resp)) m t = jzero)
  ∧ (∀ t, ext_in (shift_env k (feeding (k + n) x resp)) n t = x t)
  ∧ (∀ m t, biquad (shift_env k (feeding (k + n) x resp)) m t = resp t).
Proof.
  split; [|split].
  - intros m t Hm. cbn. rewrite bool_decide_eq_false_2; [done|lia].
  - intros t. cbn. by rewrite bool_decide_eq_true_2.
  - done.
Qed.


Lemma feeding_elsewhere (n : oid) (x resp : Qc -> jsnum) (m : oid) (t : Qc) :
  m ≠ n -> ext_in (feeding n x resp) m t = jzero.
Proof. intros Hm. cbn. by rewrite bool_decide_eq_false_2. Qed.

(** The units and connections of a follower alone, as data. *)
Lemma incoming_from (g : engine) (es : list edge) (port : ref) (l : list edge) :
  edges g = es ->
  filter (fun e => targets port e = true) es = l ->
  incoming g port = l.
Proof. intros <- <-. reflexivity. Qed.

Section FollowerGraph.

Variable b : Qc.
Variable A R : jsnum.

Hypothesis Hb : jle jzero (Fin b) && jle (Fin b) jone = true.

(** A graph with the units and the connections of a follower whose
    table holds the frequencies [A] and [R]. *)
Variable G : engine.

Hypothesis Hheap :
  heap G =
  [UComposite Tone_Follower [RNode 1] (Some (RNode 2));
   UGain (held jone); UGain (held jone); UAbs;
   UBiquad (held jzero) (held (Fin (Qc_of_Z (-100))));
   UWaveShaper (Some (frequency_map A R));
   USubtract jzero; UDelay (held (Fin b)) jone;
   UMultiply (Fin (Qc_of_Z 10000))].

Hypothesis Hedges :
  edges G =
  [mkEdge 1 0 (RInput 3 0); mkEdge 3 0 (RInput 4 0); mkEdge 4 0 (RInput 2 0);
   mkEdge 3 0 (RInput 6 1); mkEdge 4 0 (RInput 7 0); mkEdge 7 0 (RInput 6 0);
   mkEdge 6 0 (RInput 8 0); mkEdge 8 0 (RInput 5 0);
   mkEdge 5 0 (RParam 4 P_frequency)].

Variable ev : env.
Hypothesis Hext : ∀ n t, n ≠ 1%nat -> ext_in ev n t = jzero.

(** The rectified input [r], the filter output [s] and the filter
    output one block late. *)
Local Abbreviation r t := (jabs (ext_in ev 1 t)).
Local Abbreviation late t :=
  (if Qc_ltb t b then jzero else biquad ev 4 (t - b)).

Local Abbreviation sources port l := (incoming_from G _ port l Hedges eq_refl).

Lemma Follower_input_out (fuel : nat) (t : Qc) :
  out (S fuel) G ev 1 t = Some (ext_in ev 1 t).
Proof.
  rewrite out_S, Hheap. cbn [lookup list_lookup mbind option_bind].
  unfold node_out.
  rewrite (arriving_at_eq fuel G ev (RInput 1 0) t [] (sources _ _)).
  rewrite (arriving_at_eq fuel G ev (RParam 1 P_gain) t [] (sources _ _)).
  cbn [map]. rewrite sum_all_nil. cbn [mbind option_bind value held].
  by rewrite !jadd_0_r, jmul_1_r.
Qed.

Lemma Follower_abs_out (fuel : nat) (t : Qc) :
  out (S (S fuel)) G ev 3 t = Some (r t).
Proof.
  rewrite out_S, Hheap. cbn [lookup list_lookup mbind option_bind].
  unfold node_out.
  rewrite (arriving_at_eq (S fuel) G ev (RInput 3 0) t
             [mkEdge 1 0 (RInput 3 0)] (sources _ _)).
  cbn [map e_src]. rewrite Follower_input_out, sum_all_one.
  cbn [mbind option_bind fmap option_fmap option_map].
  by rewrite (Hext 3%nat), jadd_0_l.
Qed.

Lemma Follower_filter_out (fuel : nat) (t : Qc) :
  out (S fuel) G ev 4 t = Some (biquad ev 4 t).
Proof. by rewrite out_S, Hheap. Qed.

Lemma Follower_delay_out (fuel : nat) (t : Qc) :
  out (S (S fuel)) G ev 7 t = Some (late t).
Proof.
  rewrite out_S, Hheap. cbn [lookup list_lookup mbind option_bind].
  unfold node_out.
  rewrite (arriving_at_eq (S fuel) G ev (RParam 7 P_delayTime) t [] (sources _ _)).
  cbn [map]. rewrite sum_all_nil. cbn [mbind option_bind value held].
  rewrite jadd_0_r, Hb.
  destruct (Qc_ltb t b); [done|].
  rewrite (arriving_at_eq (S fuel) G ev (RInput 7 0) (t - b)
             [mkEdge 4 0 (RInput 7 0)] (sources _ _)).
  cbn [map e_src]. rewrite Follower_filter_out, sum_all_one.
  cbn [mbind option_bind]. by rewrite (Hext 7%nat), jadd_0_l.
Qed.

Lemma Follower_sub_out (fuel : nat) (t : Qc) :
  out (S (S (S fuel))) G ev 6 t = Some (Subtract_out (late t) (r t)).
Proof.
  rewrite out_S, Hheap. cbn [lookup list_lookup mbind option_bind].
  unfold node_out.
  rewrite (sources (RInput 6 1) [mkEdge 3 0 (RInput 6 1)]).
  rewrite (arriving_at_eq (S (S fuel)) G ev (RInput 6 0) t
             [mkEdge 7 0 (RInput 6 0)] (sources _ _)).
  rewrite (arriving_at_eq (S (S fuel)) G ev (RInput 6 1) t
             [mkEdge 3 0 (RInput 6 1)] (sources _ _)).
  cbn [map e_src]. rewrite Follower_delay_out, Follower_abs_out, !sum_all_one.
  cbn [mbind option_bind]. by rewrite (Hext 6%nat), jadd_0_l.
Qed.

Lemma Follower_mult_out (fuel : nat) (t : Qc) :
  out (S (S (S (S fuel)))) G ev 8 t =
  Some (Multiply_out (Subtract_out (late t) (r t)) (Fin (Qc_of_Z 10000))).
Proof.
  rewrite out_S, Hheap. cbn [lookup list_lookup mbind option_bind].
  unfold node_out.
  rewrite (sources (RInput 8 1) []).
  rewrite (arriving_at_eq (S (S (S fuel))) G ev (RInput 8 0) t
             [mkEdge 6 0 (RInput 8 0)] (sources _ _)).
  cbn [map e_src]. rewrite Follower_sub_out, sum_all_one.
  cbn [mbind option_bind]. by rewrite (Hext 8%nat), jadd_0_l.
Qed.

Lemma Follower_table_out (fuel : nat) (t : Qc) :
  out (S (S (S (S (S fuel))))) G ev 5 t =
  Some (frequency_map A R
          (Multiply_out (Subtract_out (late t) (r t)) (Fin (Qc_of_Z 10000)))).
Proof.
  rewrite out_S, Hheap. cbn [lookup list_lookup mbind option_bind].
  unfold node_out.
  rewrite (arriving_at_eq (S (S (S (S fuel)))) G ev (RInput 5 0) t
             [mkEdge 8 0 (RInput 5 0)] (sources _ _)).
  cbn [map e_src]. rewrite Follower_mult_out, sum_all_one.
  cbn [mbind option_bind WaveShaper_out]. by rewrite (Hext 5%nat), jadd_0_l.
Qed.

Lemma Follower_cutoff (fuel : nat) (t : Qc) :
  computed_value (S (S (S (S (S fuel))))) G ev 4 P_frequency t =
  Some (frequency_map A R
          (Multiply_out (Subtract_out (late t) (r t)) (Fin (Qc_of_Z 10000)))).
Proof.
  unfold computed_value. rewrite Hheap.
  cbn [lookup list_lookup mbind option_bind get_param].
  rewrite (arriving_at_eq _ G ev (RParam 4 P_frequency) t
             [mkEdge 5 0 (RParam 4 P_frequency)] (sources _ _)).
  cbn [map e_src]. rewrite Follower_table_out, sum_all_one.
  cbn [mbind option_bind value held]. by rewrite jadd_0_l.
Qed.

Lemma Follower_output_out (fuel : nat) (t : Qc) :
  out (S (S fuel)) G ev 2 t = Some (biquad ev 4 t).
Proof.
  rewrite out_S, Hheap. cbn [lookup list_lookup mbind option_bind].
  unfold node_out.
  rewrite (arriving_at_eq (S fuel) G ev (RInput 2 0) t
             [mkEdge 4 0 (RInput 2 0)] (sources _ _)).
  rewrite (arriving_at_eq (S fuel) G ev (RParam 2 P_gain) t [] (sources _ _)).
  cbn [map e_src]. rewrite Follower_filter_out, sum_all_one, sum_all_nil.
  cbn [mbind option_bind value held].
  by rewrite (Hext 2%nat), jadd_0_l, jadd_0_r, jmul_1_r.
Qed.

(** With fuel for the five units of the control path, every signal of
    the follower has its value. *)
Lemma Follower_signals (fuel : nat) (t : Qc) :
  (5 ≤ fuel)%nat ->
  let d := jsub (late t) (r t) in
  let v := jmul d (Fin (Qc_of_Z 10000)) in
  out fuel G ev 3 t = Some (r t)
  ∧ out fuel G ev 4 t = Some (biquad ev 4 t)
  ∧ out fuel G ev 7 t = Some (late t)
  ∧ out fuel G ev 6 t = Some d
  ∧ out fuel G ev 8 t = Some v
  ∧ out fuel G ev 5 t = Some (frequency_map A R v)
  ∧ computed_value fuel G ev 4 P_frequency t
    = Some (if jle v jzero then A else R).
Proof.
  intros Hfuel d v.
  pose proof (Follower_abs_out 3 t) as H3.
  pose proof (Follower_filter_out 4 t) as H4.
  pose proof (Follower_delay_out 3 t) as H7.
  pose proof (Follower_sub_out 2 t) as H6.
  pose proof (Follower_mult_out 1 t) as H8.
  pose proof (Follower_table_out 0 t) as H5.
  pose proof (Follower_cutoff 0 t) as Hc.
  repeat split;
    first [ eapply out_mono; [exact Hfuel|eassumption]
          | eapply computed_value_mono; [exact Hfuel|eassumption] ].
Qed.

End FollowerGraph.

Section FollowerAlone.

Variable Time : Type.
Variable toSeconds : Time -> jsnum.
Variable secondsToFrequency : jsnum -> jsnum.
Variable b : Qc.
Variable attack release : Time.

Local Abbreviation F :=
  (Follower_alone toSeconds secondsToFrequency (Fin b) attack release).
Local Abbreviation A :=
  (Math_max (secondsToFrequency (toSeconds attack)) (Fin b)).
Local Abbreviation R :=
  (Math_max (secondsToFrequency (toSeconds release)) (Fin b)).

Lemma Follower_new_alone :
  Follower_new Time toSeconds secondsToFrequency (Fin b) attack release empty_engine =
  Ok (mkFollower 0 (Some 3%nat) (Some 4%nat) (Some 5%nat) (Some 6%nat)
        (Some 7%nat) (Some 8%nat) attack release) F.
Proof. vm_compute. reflexivity. Qed.

Lemma Follower_alone_heap :
  heap F =
  [UComposite Tone_Follower [RNode 1] (Some (RNode 2));
   UGain (held jone); UGain (held jone); UAbs;
   UBiquad (held jzero) (held (Fin (Qc_of_Z (-100))));
   UWaveShaper (Some (frequency_map A R));
   USubtract jzero; UDelay (held (Fin b)) jone;
   UMultiply (Fin (Qc_of_Z 10000))].
Proof. vm_compute. reflexivity. Qed.

Lemma Follower_alone_edges :
  edges F =
  [mkEdge 1 0 (RInput 3 0); mkEdge 3 0 (RInput 4 0); mkEdge 4 0 (RInput 2 0);
   mkEdge 3 0 (RInput 6 1); mkEdge 4 0 (RInput 7 0); mkEdge 7 0 (RInput 6 0);
   mkEdge 6 0 (RInput 8 0); mkEdge 8 0 (RInput 5 0);
   mkEdge 5 0 (RParam 4 P_frequency)].
Proof. vm_compute. reflexivity. Qed.

End FollowerAlone.

(** C3, as the code has it.  The direction signal that reaches the
    shaping table, after the gain of 10000, is [d(t) = s(t-ε) - r(t)]:
    the rectified input is subtracted from the filter output delayed by
    one block, the opposite of [r(t) - s(t-ε)].  The table maps every
    [v <= 0] to the attack frequency and every [v > 0] to the release
    frequency, and its output is what the filter's cutoff receives.  The
    follower is built in any well-formed context; [x] is its input,
    [resp] the output of its filter. *)
Theorem Follower_direction_signal (Time : Type) (toSeconds : Time -> jsnum)
    (secondsToFrequency : jsnum -> jsnum) (b : Qc) (attack release : Time)
    (s : engine) :
  wf s ->
  jle jzero (Fin b) && jle (Fin b) jone = true ->
  let k := length (heap s) in
  let A := Math_max (secondsToFrequency (toSeconds attack)) (Fin b) in
  let R := Math_max (secondsToFrequency (toSeconds release)) (Fin b) in
  ∃ s',
    Follower_new Time toSeconds secondsToFrequency (Fin b) attack release s =
      Ok (mkFollower k (Some (k + 3)%nat) (Some (k + 4)%nat) (Some (k + 5)%nat)
            (Some (k + 6)%nat) (Some (k + 7)%nat) (Some (k + 8)%nat)
            attack release) s'
    ∧ heap s' !! (k + 5)%nat = Some (UWaveShaper (Some (frequency_map A R)))
    ∧ (∀ v, (jle v jzero = true -> frequency_map A R v = A)
            ∧ (jgt v jzero = true -> frequency_map A R v = R))
    ∧ (∀ (x resp : Qc -> jsnum) (fuel : nat) (t : Qc),
         (5 ≤ fuel)%nat ->
         let ev := feeding (k + 1) x resp in
         let r := jabs (x t) in
         let late := if Qc_ltb t b then jzero else resp (t - b) in
         let d := jsub late r in
         let v := jmul d (Fin (Qc_of_Z 10000)) in
         out fuel s' ev (k + 3) t = Some r
         ∧ out fuel s' ev (k + 4) t = Some (resp t)
         ∧ out fuel s' ev (k + 7) t = Some late
         ∧ out fuel s' ev (k + 6) t = Some d
         ∧ out fuel s' ev (k + 8) t = Some v
         ∧ out fuel s' ev (k + 5) t = Some (frequency_map A R v)
         ∧ computed_value fuel s' ev (k + 4) P_frequency t
           = Some (if jle v jzero then A else R)).
Proof.
  intros Hwf Hb k A R. subst k A R.
  destruct (sim_run _ s _ _ _ _
              (sim_Follower_new s Hwf Time toSeconds secondsToFrequency (Fin b)
                 attack release)
              (Follower_new_alone Time toSeconds secondsToFrequency b attack release))
    as (f & Hrun & ->).
  eexists. split.
  { rewrite Hrun. unfold shift_Follower. cbn. by rewrite Nat.add_0_r. }
  split; [by rewrite lookup_heap_extend|].
  split.
  { intros v. unfold frequency_map. split; [by intros ->|].
    by intros ->%jgt_not_jle. }
  intros x resp fuel t Hfuel ev r late d v.
  destruct (shift_env_feeding (length (heap s)) 1 x resp) as (Hext & Hin & Hbq).
  fold ev in Hext, Hin, Hbq.
  pose proof (Follower_signals b _ _ Hb _
                (Follower_alone_heap Time toSeconds secondsToFrequency b attack release)
                (Follower_alone_edges Time toSeconds secondsToFrequency b attack release)
                (shift_env (length (heap s)) ev) Hext fuel t Hfuel) as H.
  cbv zeta in H. rewrite Hin, !Hbq in H.
  by rewrite !(out_extend s Hwf), (computed_value_extend s Hwf).
Qed.
Lemma Follower_direction_signal_witness :
  ∃ s',
    Follower_new jsnum seconds_of_number reciprocal demo_bufferTime
      (Fin (Q2Qc (5 # 100))) (Fin (Q2Qc (5 # 10))) demo_engine =
      Ok (mkFollower 6 (Some 9%nat) (Some 10%nat) (Some 11%nat) (Some 12%nat)
            (Some 13%nat) (Some 14%nat)
            (Fin (Q2Qc (5 # 100))) (Fin (Q2Qc (5 # 10)))) s'
    ∧ out 5 s' (feeding 7 (fun _ => jone) (fun _ => jzero)) 12 0 =
      Some (jsub jzero (jabs jone)).
Proof.
  destruct (Follower_direction_signal jsnum seconds_of_number reciprocal
              (Q2Qc (128 # 44100)) (Fin (Q2Qc (5 # 100))) (Fin (Q2Qc (5 # 10)))
              demo_engine wf_demo eq_refl)
    as (s' & Hnew & _ & _ & Hout).
  exists s'. split; [exact Hnew|].
  destruct (Hout (fun _ => jone) (fun _ => jzero) 5%nat 0 (le_n 5))
    as (_ & _ & _ & Hd & _).
  exact Hd.
Defined.

(** C3 as stated fails: with a constant input 1 and a silent filter, the
    signal that leaves the subtractor at time 0 is [0 - 1 = -1], not
    [r - s = 1 - 0 = 1]; being negative, it selects the attack
    frequency. *)
Lemma direction_signal_is_reversed :
  let G := Follower_alone seconds_of_number reciprocal demo_bufferTime
             (Fin (Q2Qc (5 # 100))) (Fin (Q2Qc (5 # 10))) in
  let ev := feeding 1 (fun _ => jone) (fun _ => jzero) in
  out 5 G ev 6 0 = Some (Fin (- 1))
  ∧ jsub (jabs (ext_in ev 1 0)) (biquad ev 4 0) = Fin 1
  ∧ Fin (- 1) ≠ Fin 1
  ∧ computed_value 5 G ev 4 P_frequency 0 =
    Some (Math_max (reciprocal (seconds_of_number (Fin (Q2Qc (5 # 100)))))
            demo_bufferTime).
Proof.
  intros G ev.
  assert (Hext : ∀ n t, n ≠ 1%nat -> ext_in ev n t = jzero)
    by (intros n t; apply feeding_elsewhere).
  split; [|split; [|split]].
  - unfold G, demo_bufferTime.
    rewrite (Follower_sub_out (Q2Qc (128 # 44100)) _ _ eq_refl _
               (Follower_alone_heap jsnum seconds_of_number reciprocal _ _ _)
               (Follower_alone_edges jsnum seconds_of_number reciprocal _ _ _)
               ev Hext).
    vm_compute. first [reflexivity | do 2 f_equal; by apply Qc_is_canon].
  - vm_compute. first [reflexivity | f_equal; by apply Qc_is_canon].
  - intros [= H].
  - unfold G, demo_bufferTime.
    rewrite (Follower_cutoff (Q2Qc (128 # 44100)) _ _ eq_refl _
               (Follower_alone_heap jsnum seconds_of_number reciprocal _ _ _)
               (Follower_alone_edges jsnum seconds_of_number reciprocal _ _ _)
               ev Hext).
    reflexivity.
Qed.

(** ** The ping-pong delay *)

Lemma incoming_edges (g g' : engine) (port : ref) :
  edges g = edges g' -> incoming g port = incoming g' port.
Proof. unfold incoming. by intros ->. Qed.

Lemma filter_src_eq_extend (s : engine) (n : oid) (es : list edge) :
  wf s ->
  filter (fun e => e_src e = (length (heap s) + n)%nat)
    (edges s ++ (shift_edge (length (heap s)) <$> es)) =
  shift_edge (length (heap s)) <$> filter (fun e => e_src e = n) es.
Proof.
  intros Hwf. rewrite list.filter_app, (filter_none _ (edges s)).
  - cbn [app]. induction es as [|e es IH]; [done|]. cbn [fmap list_fmap].
    rewrite !filter_cons. cbn [shift_edge e_src].
    destruct (decide (e_src e = n)) as [Heq|Hne].
    + rewrite decide_True by lia. cbn. by rewrite IH.
    + rewrite decide_False by lia. done.
  - eapply list.Forall_impl; [exact Hwf|]. cbn. intros e [H _]. lia.
Qed.

Section PingPongAlone.

Variable Time : Type.
Variable toSeconds : Time -> jsnum.
Variable dt : Time.
Variable mx fb : jsnum.

Local Abbreviation P := (PingPongDelay_alone toSeconds dt mx fb).

Lemma PingPongDelay_new_alone :
  PingPongDelay_new Time toSeconds dt mx fb empty_engine =
  Ok (mkPingPongDelay
        (mkStereoXFeedbackEffect 0 (Some 1%nat) (Some 2%nat) (Some 3%nat)
           (Some 4%nat) (Some 5%nat) (Some 6%nat) (Some 7%nat))
        (Some 8%nat) (Some 9%nat) (Some 10%nat)) P.
Proof. vm_compute. reflexivity. Qed.

Lemma PingPongDelay_alone_edges : edges P = PingPongDelay_wiring.
Proof. vm_compute. reflexivity. Qed.

Lemma PingPongDelay_alone_heap :
  heap P =
  [UComposite Tone_PingPongDelay [] None;
   UGain (held jone); UGain (held jone); UGain (held jone); UGain (held jone);
   USignal (held fb); UGain (held jzero); UGain (held jzero);
   UDelay (held jzero) mx; UDelay (held jzero) mx;
   USignal (held (toSeconds dt))].
Proof. vm_compute. reflexivity. Qed.

Lemma PingPongDelay_alone_trace :
  ∃ tr, trace P = tr ++ [CDisconnect 7; CConnect (mkEdge 7 0 (RInput 8 0))]
        ∧ CConnect (mkEdge 7 0 (RInput 1 0)) ∈ tr.
Proof.
  exists (take 31 (trace P)). split.
  - vm_compute. reflexivity.
  - vm_compute. repeat first [apply list_elem_of_here | apply list_elem_of_further].
Qed.

End PingPongAlone.
Lemma PingPongDelay_new_at (Time : Type) (toSeconds : Time -> jsnum) (dt : Time)
    (mx fb : jsnum) (s : engine) :
  wf s ->
  PingPongDelay_new Time toSeconds dt mx fb s =
  Ok (PingPongDelay_at (length (heap s)))
     (extend s (PingPongDelay_alone toSeconds dt mx fb)).
Proof.
  intros Hwf.
  destruct (sim_run _ s _ _ _ _
              (sim_PingPongDelay_new s Hwf Time toSeconds dt mx fb)
              (PingPongDelay_new_alone Time toSeconds dt mx fb))
    as (p & Hrun & ->).
  rewrite Hrun. unfold shift_PingPongDelay, shift_effect, PingPongDelay_at. cbn.
  by rewrite Nat.add_0_r.
Qed.

(** C8.  After construction the right-to-left feedback path no longer
    feeds the left send, where the base had connected it: it was
    disconnected and then connected to the left delay line, its only
    destination, which sits between the left send and the left return.
    [k] is the size of the context the effect is built in; the feedback
    path is unit [k + 7], the left send [k + 1], the left delay
    [k + 8], the left return [k + 3]. *)
Theorem feedbackRL_feeds_left_delay (Time : Type) (toSeconds : Time -> jsnum)
    (dt : Time) (mx fb : jsnum) (s : engine) :
  wf s ->
  let k := length (heap s) in
  ∃ s',
    PingPongDelay_new Time toSeconds dt mx fb s = Ok (PingPongDelay_at k) s'
    ∧ filter (fun e => e_src e = (k + 7)%nat) (edges s')
      = [mkEdge (k + 7) 0 (RInput (k + 8) 0)]
    ∧ (∀ o i, mkEdge (k + 7) o (RInput (k + 1) i) ∉ edges s')
    ∧ (∃ tr, trace s' = trace s ++ tr ++
                 [CDisconnect (k + 7);
                  CConnect (mkEdge (k + 7) 0 (RInput (k + 8) 0))]
             ∧ CConnect (mkEdge (k + 7) 0 (RInput (k + 1) 0)) ∈ tr)
    ∧ mkEdge (k + 1) 0 (RInput (k + 8) 0) ∈ edges s'
    ∧ mkEdge (k + 8) 0 (RInput (k + 3) 0) ∈ edges s'.
Proof.
  intros Hwf k. subst k.
  exists (extend s (PingPongDelay_alone toSeconds dt mx fb)).
  split; [by apply PingPongDelay_new_at|].
  assert (Hout : filter (fun e => e_src e = (length (heap s) + 7)%nat)
                   (edges (extend s (PingPongDelay_alone toSeconds dt mx fb)))
                 = [mkEdge (length (heap s) + 7) 0 (RInput (length (heap s) + 8) 0)]).
  { unfold extend. cbn [edges]. rewrite (filter_src_eq_extend s 7 _ Hwf).
    by rewrite PingPongDelay_alone_edges. }
  split; [exact Hout|]. split; [|split; [|split]].
  - intros o i Hin.
    assert (Hf : mkEdge (length (heap s) + 7) o (RInput (length (heap s) + 1) i)
                 ∈ filter (fun e => e_src e = (length (heap s) + 7)%nat)
                     (edges (extend s (PingPongDelay_alone toSeconds dt mx fb))))
      by (by apply list_elem_of_filter).
    rewrite Hout in Hf. apply list_elem_of_singleton in Hf.
    injection Hf as _ Hd. lia.
  - destruct (PingPongDelay_alone_trace Time toSeconds dt mx fb) as (tr & Htr & Hin).
    exists (shift_call (length (heap s)) <$> tr). split.
    + unfold extend. cbn [trace]. rewrite Htr, fmap_app. reflexivity.
    + by apply (list_elem_of_fmap_2 (shift_call (length (heap s))) _
                  (CConnect (mkEdge 7 0 (RInput 1 0)))).
  - unfold extend. cbn [edges]. apply elem_of_app. right.
    apply (list_elem_of_fmap_2 (shift_edge (length (heap s))) _
             (mkEdge 1 0 (RInput 8 0))).
    rewrite PingPongDelay_alone_edges. unfold PingPongDelay_wiring.
    repeat first [apply list_elem_of_here | apply list_elem_of_further].
  - unfold extend. cbn [edges]. apply elem_of_app. right.
    apply (list_elem_of_fmap_2 (shift_edge (length (heap s))) _
             (mkEdge 8 0 (RInput 3 0))).
    rewrite PingPongDelay_alone_edges. unfold PingPongDelay_wiring.
    repeat first [apply list_elem_of_here | apply list_elem_of_further].
Qed.

Lemma feedbackRL_feeds_left_delay_witness :
  ∃ s',
    PingPongDelay_new jsnum seconds_of_number (Fin (Q2Qc (25 # 100))) jone
      (Fin (Q2Qc (5 # 10))) demo_engine = Ok (PingPongDelay_at 6) s'
    ∧ filter (fun e => e_src e = 13%nat) (edges s')
      = [mkEdge 13 0 (RInput 14 0)].
Proof.
  destruct (feedbackRL_feeds_left_delay jsnum seconds_of_number
              (Fin (Q2Qc (25 # 100))) jone (Fin (Q2Qc (5 # 10))) demo_engine wf_demo)
    as (s' & Hnew & Hout & _).
  exists s'. split; [exact Hnew | exact Hout].
Defined.

Lemma sim_set_values (s : engine) (r r' : ref) (vs : list jsnum) :
  wf s -> r = shift_ref (length (heap s)) r' ->
  sim eq s (set_values r vs) (set_values r' vs).
Proof.
  intros Hwf ->. induction vs as [|v vs IH]; cbn [set_values].
  - by apply sim_ret.
  - eapply sim_bind; [by apply sim_set_value|]. intros _ _ _. exact IH.
Qed.

(** Setting a signal's value again and again changes that signal and
    nothing else. *)
Lemma set_values_ok (n : oid) (vs : list jsnum) :
  ∀ (g : engine) (x : param),
    heap g !! n = Some (USignal x) ->
    ∃ g', set_values (RParam n P_value) vs g = Ok () g'
          ∧ edges g' = edges g
          ∧ length (heap g') = length (heap g)
          ∧ (∀ m, m ≠ n -> heap g' !! m = heap g !! m)
          ∧ heap g' !! n = Some (USignal (mkParam (current (value x) vs) (events x))).
Proof.
  induction vs as [|v vs IH]; intros g x Hn.
  - exists g. cbn. by destruct x.
  - cbn [set_values]. rewrite run_bind. unfold set_value at 1.
    rewrite !run_bind, (read_param_ok g n P_value (USignal x) x Hn eq_refl).
    rewrite !run_bind.
    rewrite (write_param_ok g n P_value (USignal x) _ (USignal (mkParam v (events x))) Hn eq_refl).
    cbn [log modify].
    assert (Hlt : (n < length (heap g))%nat) by (by eapply lookup_lt_Some).
    edestruct (IH (mkEngine (<[n:=USignal (mkParam v (events x))]> (heap g))
                     (edges g) (released g)
                     (trace g ++ [CSetValue (RParam n P_value) v]))
                  (mkParam v (events x)))
      as (g' & Hrun & He & Hl & Hother & Hat).
    { cbn. by apply list_lookup_insert_eq. }
    exists g'. split; [exact Hrun|]. cbn in He, Hl, Hother, Hat.
    split; [done|]. split; [by rewrite Hl, length_insert|]. split.
    + intros m Hm. rewrite (Hother m Hm). by apply list_lookup_insert_ne.
    + rewrite Hat. do 3 f_equal. unfold current.
      destruct vs as [|w vs]; [done|].
      change (List.last (v :: w :: vs) (value x)) with (List.last (w :: vs) (value x)).
      generalize w. clear. induction vs as [|u vs IHvs]; intros w; [done|].
      change (List.last (w :: u :: vs) v) with (List.last (u :: vs) v).
      change (List.last (w :: u :: vs) (value x)) with (List.last (u :: vs) (value x)).
      apply IHvs.
Qed.

Section PingPongTimes.

Variable mx : jsnum.

(** A graph with the connections of the effect, in which the delay
    lines are as built and the delay-time signal holds [v]. *)
Variable G : engine.
Variable v : jsnum.
Variable evs : list (Qc * jsnum).
Hypothesis Hedges : edges G = PingPongDelay_wiring.
Hypothesis H8 : heap G !! 8%nat = Some (UDelay (held jzero) mx).
Hypothesis H9 : heap G !! 9%nat = Some (UDelay (held jzero) mx).
Hypothesis H10 : heap G !! 10%nat = Some (USignal (mkParam v evs)).

Variable ev : env.
Variable t : Qc.
Hypothesis Hext : ext_in ev 10 t = jzero.

Local Abbreviation sources port l := (incoming_from G _ port l Hedges eq_refl).

Lemma PingPong_signal_out (fuel : nat) : out (S fuel) G ev 10 t = Some v.
Proof.
  rewrite out_S, H10. cbn [mbind option_bind]. unfold node_out.
  rewrite (arriving_at_eq fuel G ev (RInput 10 0) t [] (sources _ _)).
  rewrite (arriving_at_eq fuel G ev (RParam 10 P_value) t [] (sources _ _)).
  cbn [map]. rewrite sum_all_nil. cbn [mbind option_bind value].
  by rewrite Hext, !jadd_0_r.
Qed.

Lemma PingPong_delay_times (fuel : nat) :
  computed_value (S fuel) G ev 8 P_delayTime t = Some v
  ∧ computed_value (S fuel) G ev 9 P_delayTime t = Some v.
Proof.
  unfold computed_value. rewrite H8, H9. cbn [mbind option_bind get_param].
  rewrite (arriving_at_eq (S fuel) G ev (RParam 8 P_delayTime) t
             [mkEdge 10 0 (RParam 8 P_delayTime)] (sources _ _)).
  rewrite (arriving_at_eq (S fuel) G ev (RParam 9 P_delayTime) t
             [mkEdge 10 0 (RParam 9 P_delayTime)] (sources _ _)).
  cbn [map e_src]. rewrite PingPong_signal_out, sum_all_one.
  cbn [mbind option_bind value held]. by rewrite jadd_0_l.
Qed.

End PingPongTimes.
(** C7.  After construction, and after any changes of the delay time,
    one shared signal (unit [k + 10]) is the only source connected to the
    time parameter of the left delay line ([k + 8]) and to that of the
    right one ([k + 9]); each parameter holds 0, so both delay times are
    the current value of the signal. *)
Theorem delayTime_drives_both_delays (Time : Type) (toSeconds : Time -> jsnum)
    (dt : Time) (mx fb : jsnum) (s : engine) :
  wf s ->
  let k := length (heap s) in
  ∃ s',
    PingPongDelay_new Time toSeconds dt mx fb s = Ok (PingPongDelay_at k) s'
    ∧ ∀ vs : list jsnum,
        ∃ s'',
          set_values (RParam (k + 10) P_value) vs s' = Ok () s''
          ∧ incoming s'' (RParam (k + 8) P_delayTime)
            = [mkEdge (k + 10) 0 (RParam (k + 8) P_delayTime)]
          ∧ incoming s'' (RParam (k + 9) P_delayTime)
            = [mkEdge (k + 10) 0 (RParam (k + 9) P_delayTime)]
          ∧ heap s'' !! (k + 8)%nat = Some (UDelay (held jzero) mx)
          ∧ heap s'' !! (k + 9)%nat = Some (UDelay (held jzero) mx)
          ∧ heap s'' !! (k + 10)%nat
            = Some (USignal (held (current (toSeconds dt) vs)))
          ∧ ∀ (ev : env) (fuel : nat) (t : Qc),
              (2 ≤ fuel)%nat -> ext_in ev (k + 10)%nat t = jzero ->
              computed_value fuel s'' ev (k + 8) P_delayTime t
                = Some (current (toSeconds dt) vs)
              ∧ computed_value fuel s'' ev (k + 9) P_delayTime t
                = Some (current (toSeconds dt) vs).
Proof.
  intros Hwf k. subst k.
  exists (extend s (PingPongDelay_alone toSeconds dt mx fb)).
  split; [by apply PingPongDelay_new_at|].
  intros vs.
  assert (H10 : heap (PingPongDelay_alone toSeconds dt mx fb) !! 10%nat
                = Some (USignal (held (toSeconds dt))))
    by (by rewrite PingPongDelay_alone_heap).
  destruct (set_values_ok 10 vs (PingPongDelay_alone toSeconds dt mx fb)
              (held (toSeconds dt)) H10)
    as (g' & Hrun & He & _ & Hother & Hat).
  rewrite PingPongDelay_alone_edges in He.
  pose proof (sim_set_values s (RParam (length (heap s) + 10) P_value)
                (RParam 10 P_value) vs Hwf eq_refl
                (PingPongDelay_alone toSeconds dt mx fb)) as Hsim.
  rewrite Hrun in Hsim. destruct Hsim as ([] & Hrun' & _).
  exists (extend s g'). split; [exact Hrun'|].
  assert (H8 : heap g' !! 8%nat = Some (UDelay (held jzero) mx))
    by (by rewrite Hother, PingPongDelay_alone_heap).
  assert (H9 : heap g' !! 9%nat = Some (UDelay (held jzero) mx))
    by (by rewrite Hother, PingPongDelay_alone_heap).
  split.
  { change (RParam (length (heap s) + 8) P_delayTime)
      with (shift_ref (length (heap s)) (RParam 8 P_delayTime)).
    rewrite (incoming_extend s Hwf g' (RParam 8 P_delayTime)).
    by rewrite (incoming_from g' _ _ _ He eq_refl). }
  split.
  { change (RParam (length (heap s) + 9) P_delayTime)
      with (shift_ref (length (heap s)) (RParam 9 P_delayTime)).
    rewrite (incoming_extend s Hwf g' (RParam 9 P_delayTime)).
    by rewrite (incoming_from g' _ _ _ He eq_refl). }
  split; [by rewrite lookup_heap_extend, H8|].
  split; [by rewrite lookup_heap_extend, H9|].
  split; [by rewrite lookup_heap_extend, Hat|].
  intros ev fuel t Hfuel Hext.
  rewrite !(computed_value_extend s Hwf).
  destruct fuel as [|fuel]; [lia|].
  apply (PingPong_delay_times mx g' _ _ He H8 H9 Hat
           (shift_env (length (heap s)) ev) t Hext fuel).
Qed.

Lemma delayTime_drives_both_delays_witness :
  ∃ s' s'',
    PingPongDelay_new jsnum seconds_of_number (Fin (Q2Qc (25 # 100))) jone
      (Fin (Q2Qc (5 # 10))) demo_engine = Ok (PingPongDelay_at 6) s'
    ∧ set_values (RParam 16 P_value) [Fin (Q2Qc (1 # 2)); Fin (Q2Qc (1 # 8))] s'
      = Ok () s''
    ∧ computed_value 2 s'' silence 14 P_delayTime 0 = Some (Fin (Q2Qc (1 # 8)))
    ∧ computed_value 2 s'' silence 15 P_delayTime 0 = Some (Fin (Q2Qc (1 # 8))).
Proof.
  destruct (delayTime_drives_both_delays jsnum seconds_of_number
              (Fin (Q2Qc (25 # 100))) jone (Fin (Q2Qc (5 # 10))) demo_engine wf_demo)
    as (s' & Hnew & Hall).
  destruct (Hall [Fin (Q2Qc (1 # 2)); Fin (Q2Qc (1 # 8))])
    as (s'' & Hset & _ & _ & _ & _ & _ & Hval).
  exists s', s''. split; [exact Hnew|]. split; [exact Hset|].
  apply (Hval silence 2%nat 0); [lia | reflexivity].
Defined.

Lemma settles_eq (g : engine) (ev : env) (n : oid) (t t' : Qc) (v v' : jsnum) :
  settles g ev n t v -> t = t' -> v = v' -> settles g ev n t' v'.
Proof. by intros H <- <-. Qed.

Lemma settles_extend (s r : engine) (ev : env) (n : oid) (t : Qc) (v : jsnum) :
  wf s ->
  settles r (shift_env (length (heap s)) ev) n t v ->
  settles (extend s r) ev (length (heap s) + n) t v.
Proof.
  intros Hwf [N HN]. exists N. intros fuel Hfuel.
  rewrite (out_extend s Hwf). by apply HN.
Qed.

Lemma times_above (t d : Qc) : 0 < d -> ∃ n, t < times n d.
Proof.
  intros Hd. destruct (Qarchimedean (this (t / d)%Qc)) as [p Hp].
  exists (Pos.to_nat p). unfold times. rewrite positive_nat_Z.
  assert (Hne : d ≠ 0) by (intros ->; by apply Qclt_not_eq in Hd).
  rewrite <- (test_field t d Hne) at 1.
  apply Qcmult_lt_compat_r; [exact Hd|].
  unfold Qclt. cbn [this Qc_of_Z Q2Qc]. eapply Qlt_le_trans; [exact Hp|].
  apply Qle_refl.
Qed.

Lemma times_0 (d : Qc) : times 0 d = 0.
Proof. unfold times. replace (Qc_of_Z (Z.of_nat 0)) with (Q2Qc 0); [ring | by apply Qc_is_canon]. Qed.

Lemma times_S (k : nat) (d : Qc) : times (S k) d = times k d + d.
Proof.
  unfold times. rewrite Nat2Z.inj_succ, <- Z.add_1_r, Z2Qc_inj_add, Z2Qc_inj_1.
  ring.
Qed.

Lemma times_nonneg (k : nat) (d : Qc) : 0 < d -> 0 ≤ times k d.
Proof.
  intros Hd. induction k as [|k IH].
  - rewrite times_0. apply Qcle_refl.
  - rewrite times_S. rewrite <- (Qcplus_0_r 0).
    apply Qcplus_le_compat; [exact IH | by apply Qclt_le_weak].
Qed.

Lemma times_S_ge (k : nat) (d : Qc) : 0 < d -> d ≤ times (S k) d.
Proof.
  intros Hd. rewrite times_S. rewrite <- (Qcplus_0_l d) at 1.
  apply Qcplus_le_compat; [by apply times_nonneg | apply Qcle_refl].
Qed.

Lemma times_S_sub (k : nat) (d : Qc) : times (S k) d - d = times k d.
Proof. rewrite times_S. ring. Qed.

Lemma times_S_pos (k : nat) (d : Qc) : 0 < d -> 0 < times (S k) d.
Proof. intros Hd. eapply Qclt_le_trans; [exact Hd | by apply times_S_ge]. Qed.

Lemma impulse_0 : impulse 0 = jone.
Proof. reflexivity. Qed.

Lemma impulse_ne (t : Qc) : t ≠ 0 -> impulse t = jzero.
Proof.
  intros Ht. unfold impulse. destruct (Qc_eqb t 0) eqn:E; [|done].
  by apply Qc_eqb_eq in E.
Qed.

Lemma impulse_pos (t : Qc) : 0 < t -> impulse t = jzero.
Proof.
  intros Ht. apply impulse_ne. intros ->. by apply Qclt_not_eq in Ht.
Qed.

Lemma sub_lt_d (t d : Qc) (c : Qc) : t < c + d -> t - d < c.
Proof.
  intros H. apply (Qcplus_lt_mono_r _ _ (- d)) in H.
  replace (c + d + - d) with c in H by ring. exact H.
Qed.

Lemma times_1 (d : Qc) : times 1 d = d.
Proof. rewrite times_S, times_0. ring. Qed.

Lemma times_2 (d : Qc) : times 2 d = d + d.
Proof. by rewrite times_S, times_1. Qed.

Ltac echo_num := cbn; first [done | f_equal; first [done | ring]].

Lemma sum_all_single (o : option jsnum) : sum_all [o] = o.
Proof. destruct o as [a|]; [apply sum_all_one | reflexivity]. Qed.

Lemma bind_jadd_0_l (o : option jsnum) :
  (o ≫= λ x, Some (jadd jzero x)) = o.
Proof. destruct o as [a|]; [cbn [mbind option_bind]; by rewrite jadd_0_l | reflexivity]. Qed.

Lemma bind_jmul_1_r (o : option jsnum) :
  (o ≫= λ x, Some (jmul x jone)) = o.
Proof. destruct o as [a|]; [cbn [mbind option_bind]; by rewrite jmul_1_r | reflexivity]. Qed.

(** The echoes of a graph that has the units and the connections of the
    effect, with delay time [d] and feedback [g], fed at its left send
    only. *)
Section PingPongEcho.

Variable mx : jsnum.
Variable d g : Qc.

Hypothesis Hpos : 0 < d.
Hypothesis Hmax : jle (Fin d) mx = true.

Variable P : engine.
Hypothesis Hheap : heap P =
  [UComposite Tone_PingPongDelay [] None;
   UGain (held jone); UGain (held jone); UGain (held jone); UGain (held jone);
   USignal (held (Fin g)); UGain (held jzero); UGain (held jzero);
   UDelay (held jzero) mx; UDelay (held jzero) mx;
   USignal (held (Fin d))].
Hypothesis Hedges : edges P = PingPongDelay_wiring.

Variable ev : env.
Hypothesis Hext : ∀ n t, n ≠ 1%nat -> ext_in ev n t = jzero.

Local Abbreviation x t := (ext_in ev 1 t).
Local Abbreviation sources port l := (incoming_from P _ port l Hedges eq_refl).

Lemma echo_sendL (fuel : nat) (t : Qc) : out (S fuel) P ev 1 t = Some (x t).
Proof.
  rewrite out_S, Hheap. cbn [lookup list_lookup mbind option_bind].
  unfold node_out.
  rewrite (arriving_at_eq fuel P ev (RInput 1 0) t [] (sources _ _)).
  rewrite (arriving_at_eq fuel P ev (RParam 1 P_gain) t [] (sources _ _)).
  cbn [map]. rewrite sum_all_nil. cbn [mbind option_bind value held].
  by rewrite !jadd_0_r, jmul_1_r.
Qed.

Lemma echo_feedback (fuel : nat) (t : Qc) : out (S fuel) P ev 5 t = Some (Fin g).
Proof.
  rewrite out_S, Hheap. cbn [lookup list_lookup mbind option_bind].
  unfold node_out.
  rewrite (arriving_at_eq fuel P ev (RInput 5 0) t [] (sources _ _)).
  rewrite (arriving_at_eq fuel P ev (RParam 5 P_value) t [] (sources _ _)).
  cbn [map]. rewrite sum_all_nil. cbn [mbind option_bind value held].
  by rewrite (Hext 5%nat), !jadd_0_r.
Qed.

Lemma echo_delayTime (fuel : nat) (t : Qc) : out (S fuel) P ev 10 t = Some (Fin d).
Proof.
  rewrite out_S, Hheap. cbn [lookup list_lookup mbind option_bind].
  unfold node_out.
  rewrite (arriving_at_eq fuel P ev (RInput 10 0) t [] (sources _ _)).
  rewrite (arriving_at_eq fuel P ev (RParam 10 P_value) t [] (sources _ _)).
  cbn [map]. rewrite sum_all_nil. cbn [mbind option_bind value held].
  by rewrite (Hext 10%nat), !jadd_0_r.
Qed.

Lemma delay_in_range : jle jzero (Fin d) && jle (Fin d) mx = true.
Proof.
  rewrite Hmax, andb_true_r. cbn. apply Qc_leb_le. by apply Qclt_le_weak.
Qed.

Lemma echo_leftDelay (fuel : nat) (t : Qc) :
  out (S (S fuel)) P ev 8 t =
  if Qc_ltb t d then Some jzero
  else sum_all [out (S fuel) P ev 1 (t - d); out (S fuel) P ev 7 (t - d)].
Proof.
  rewrite out_S, Hheap. cbn [lookup list_lookup mbind option_bind].
  unfold node_out.
  rewrite (arriving_at_eq (S fuel) P ev (RParam 8 P_delayTime) t
             [mkEdge 10 0 (RParam 8 P_delayTime)] (sources _ _)).
  cbn [map e_src]. rewrite echo_delayTime, sum_all_one.
  cbn [mbind option_bind value held]. rewrite jadd_0_l, delay_in_range.
  destruct (Qc_ltb t d); [done|].
  rewrite (arriving_at_eq (S fuel) P ev (RInput 8 0) (t - d)
             [mkEdge 1 0 (RInput 8 0); mkEdge 7 0 (RInput 8 0)] (sources _ _)).
  cbn [map e_src]. rewrite (Hext 8%nat) by done. apply bind_jadd_0_l.
Qed.

Lemma echo_rightDelay (fuel : nat) (t : Qc) :
  out (S (S fuel)) P ev 9 t =
  if Qc_ltb t d then Some jzero else out (S fuel) P ev 2 (t - d).
Proof.
  rewrite out_S, Hheap. cbn [lookup list_lookup mbind option_bind].
  unfold node_out.
  rewrite (arriving_at_eq (S fuel) P ev (RParam 9 P_delayTime) t
             [mkEdge 10 0 (RParam 9 P_delayTime)] (sources _ _)).
  cbn [map e_src]. rewrite echo_delayTime, sum_all_one.
  cbn [mbind option_bind value held]. rewrite jadd_0_l, delay_in_range.
  destruct (Qc_ltb t d); [done|].
  rewrite (arriving_at_eq (S fuel) P ev (RInput 9 0) (t - d)
             [mkEdge 2 0 (RInput 9 0)] (sources _ _)).
  cbn [map e_src]. rewrite sum_all_single, (Hext 9%nat) by done.
  apply bind_jadd_0_l.
Qed.

(** A unit of gain 1 with one source passes it on. *)
Lemma echo_pass (n m : oid) (fuel : nat) (t : Qc) :
  n ≠ 1%nat ->
  heap P !! n = Some (UGain (held jone)) ->
  incoming P (RInput n 0) = [mkEdge m 0 (RInput n 0)] ->
  incoming P (RParam n P_gain) = [] ->
  out (S fuel) P ev n t = out fuel P ev m t.
Proof.
  intros Hn Hh Hi Hp. rewrite out_S, Hh. cbn [mbind option_bind].
  unfold node_out.
  rewrite (arriving_at_eq fuel P ev (RInput n 0) t _ Hi).
  rewrite (arriving_at_eq fuel P ev (RParam n P_gain) t _ Hp).
  cbn [map e_src]. rewrite sum_all_single, sum_all_nil, (Hext n) by done.
  rewrite bind_jadd_0_l. cbn [mbind option_bind value held].
  rewrite jadd_0_r. apply bind_jmul_1_r.
Qed.

Lemma echo_returnL (fuel : nat) (t : Qc) :
  out (S fuel) P ev 3 t = out fuel P ev 8 t.
Proof. apply echo_pass; [done | by rewrite Hheap | exact (sources _ _) | exact (sources _ _)]. Qed.

Lemma echo_returnR (fuel : nat) (t : Qc) :
  out (S fuel) P ev 4 t = out fuel P ev 9 t.
Proof. apply echo_pass; [done | by rewrite Hheap | exact (sources _ _) | exact (sources _ _)]. Qed.

Lemma echo_sendR (fuel : nat) (t : Qc) :
  out (S fuel) P ev 2 t = out fuel P ev 6 t.
Proof. apply echo_pass; [done | by rewrite Hheap | exact (sources _ _) | exact (sources _ _)]. Qed.

(** A feedback path scales its source by the feedback signal. *)
Lemma echo_scale (n m : oid) (fuel : nat) (t : Qc) :
  n ≠ 1%nat ->
  heap P !! n = Some (UGain (held jzero)) ->
  incoming P (RInput n 0) = [mkEdge m 0 (RInput n 0)] ->
  incoming P (RParam n P_gain) = [mkEdge 5 0 (RParam n P_gain)] ->
  out (S (S fuel)) P ev n t =
  out (S fuel) P ev m t ≫= λ v, Some (jmul v (Fin g)).
Proof.
  intros Hn Hh Hi Hp. rewrite out_S, Hh. cbn [mbind option_bind].
  unfold node_out.
  rewrite (arriving_at_eq (S fuel) P ev (RInput n 0) t _ Hi).
  rewrite (arriving_at_eq (S fuel) P ev (RParam n P_gain) t _ Hp).
  cbn [map e_src]. rewrite !sum_all_single, echo_feedback.
  rewrite (Hext n) by done. rewrite !bind_jadd_0_l.
  by cbn [mbind option_bind value held].
Qed.

Lemma echo_feedbackLR (fuel : nat) (t : Qc) :
  out (S (S fuel)) P ev 6 t = out (S fuel) P ev 3 t ≫= λ v, Some (jmul v (Fin g)).
Proof. apply echo_scale; [done | by rewrite Hheap | exact (sources _ _) | exact (sources _ _)]. Qed.

Lemma echo_feedbackRL (fuel : nat) (t : Qc) :
  out (S (S fuel)) P ev 7 t = out (S fuel) P ev 4 t ≫= λ v, Some (jmul v (Fin g)).
Proof. apply echo_scale; [done | by rewrite Hheap | exact (sources _ _) | exact (sources _ _)]. Qed.

Local Abbreviation left := (settles P ev 3).
Local Abbreviation right := (settles P ev 4).

Lemma left_silent (t : Qc) : t < d -> left t jzero.
Proof.
  intros Ht%Qc_ltb_lt. exists 3%nat. intros fuel Hfuel.
  destruct fuel as [|[|[|fuel]]]; try lia.
  rewrite echo_returnL.
  by rewrite echo_leftDelay, Ht.
Qed.

Lemma right_silent (t : Qc) : t < d -> right t jzero.
Proof.
  intros Ht%Qc_ltb_lt. exists 3%nat. intros fuel Hfuel.
  destruct fuel as [|[|[|fuel]]]; try lia.
  rewrite echo_returnR.
  by rewrite echo_rightDelay, Ht.
Qed.

Lemma left_echo (t : Qc) (r : jsnum) :
  d ≤ t -> right (t - d) r ->
  left t (jadd (x (t - d)) (jmul r (Fin g))).
Proof.
  intros Ht%Qc_ltb_ge [N HN]. exists (N + 4)%nat. intros fuel Hfuel.
  destruct fuel as [|[|[|[|fuel]]]]; try lia.
  rewrite echo_returnL.
  rewrite echo_leftDelay, Ht.
  rewrite echo_sendL.
  rewrite echo_feedbackRL.
  rewrite (HN (S fuel)) by lia. cbn [mbind option_bind].
  apply sum_all_two.
Qed.

Lemma right_echo (t : Qc) (l : jsnum) :
  d ≤ t -> left (t - d) l -> right t (jmul l (Fin g)).
Proof.
  intros Ht%Qc_ltb_ge [N HN]. exists (N + 5)%nat. intros fuel Hfuel.
  destruct fuel as [|[|[|[|[|fuel]]]]]; try lia.
  rewrite echo_returnR.
  rewrite echo_rightDelay, Ht.
  rewrite echo_sendR.
  rewrite echo_feedbackLR.
  by rewrite (HN (S fuel)) by lia.
Qed.

(** A single impulse at the left send. *)
Hypothesis Hin : ∀ t, ext_in ev 1 t = impulse t.

(** The echoes at the multiples of the delay time alternate between
    the channels. *)
Lemma echo_multiples (j : nat) :
  left (times (S j) d) (Fin (if Nat.odd (S j) then g ^ j else 0))
  ∧ right (times (S j) d) (Fin (if Nat.odd (S j) then 0 else g ^ j)).
Proof.
  induction j as [|j [IHl IHr]].
  - assert (H0 : times 1 d - d < d).
    { rewrite times_S_sub, times_0. exact Hpos. }
    split.
    + eapply settles_eq;
        [eapply (left_echo _ jzero (times_S_ge 0 d Hpos)), right_silent, H0
        | done |].
      rewrite Hin, times_S_sub, times_0, impulse_0. echo_num.
    + eapply settles_eq;
        [eapply (right_echo _ jzero (times_S_ge 0 d Hpos)), left_silent, H0
        | done |].
      echo_num.
  - rewrite <- (times_S_sub (S j) d) in IHl, IHr.
    assert (Hodd : Nat.odd (S (S j)) = negb (Nat.odd (S j))).
    { by rewrite Nat.odd_succ, <- Nat.negb_odd. }
    split.
    + eapply settles_eq;
        [eapply (left_echo _ _ (times_S_ge (S j) d Hpos)), IHr | done |].
      rewrite Hin, times_S_sub, (impulse_pos _ (times_S_pos j d Hpos)), Hodd.
      destruct (Nat.odd (S j)); echo_num.
    + eapply settles_eq;
        [eapply (right_echo _ _ (times_S_ge (S j) d Hpos)), IHl | done |].
      rewrite Hodd. destruct (Nat.odd (S j)); echo_num.
Qed.

(** Nothing sounds on the right before twice the delay time. *)
Lemma right_silent_twice (t : Qc) : t < d + d -> right t jzero.
Proof.
  intros Ht. destruct (Qclt_le_dec t d) as [Hlt|Hge].
  - by apply right_silent.
  - eapply settles_eq;
      [eapply (right_echo _ jzero Hge), left_silent, (sub_lt_d _ _ _ Ht) | done |].
    echo_num.
Qed.

(** The two channels never sound at the same time. *)
Lemma echo_never_both (n : nat) :
  ∀ t, t < times n d ->
       ∃ l r, left t (Fin l) ∧ right t (Fin r) ∧ (l = 0 ∨ r = 0).
Proof.
  induction n as [|n IH]; intros t Ht.
  - rewrite times_0 in Ht. assert (t < d) by (by eapply Qclt_trans).
    exists 0, 0. split; [by apply left_silent|].
    split; [by apply right_silent|]. by left.
  - destruct (Qclt_le_dec t d) as [Hlt|Hge].
    { exists 0, 0. split; [by apply left_silent|].
      split; [by apply right_silent|]. by left. }
    rewrite times_S in Ht. apply sub_lt_d in Ht.
    destruct (Qc_eq_dec (t - d) 0) as [Hz|Hnz].
    + assert (Hs : t - d < d) by (by rewrite Hz).
      exists 1, 0. split; [|split; [|by right]].
      * eapply settles_eq;
          [eapply (left_echo _ jzero Hge), right_silent, Hs | done |].
        rewrite Hin, Hz, impulse_0. echo_num.
      * eapply settles_eq;
          [eapply (right_echo _ jzero Hge), left_silent, Hs | done |].
        echo_num.
    + destruct (IH (t - d) Ht) as (l & r & Hl & Hr & Hlr).
      exists (r * g), (l * g). split; [|split].
      * eapply settles_eq; [eapply (left_echo _ _ Hge), Hr | done |].
        rewrite Hin, (impulse_ne _ Hnz). echo_num.
      * eapply settles_eq; [eapply (right_echo _ _ Hge), Hl | done |].
        done.
      * destruct Hlr as [-> | ->]; [right | left]; ring.
Qed.

End PingPongEcho.

(** C9.  A ping-pong delay with delay time [d > 0], within the longest
    delay of its lines, and feedback [g] is built in any well-formed
    context and fed one impulse at its left send, nothing at the right.
    The left return is silent before [d] and carries the impulse at [d];
    the right return is silent before [d + d] and carries the impulse,
    scaled by the feedback, at [d + d], where the left return is silent.
    At the multiples of [d] the repeats alternate: the odd ones sound on
    the left only, the even ones on the right only, the [j+1]st with
    amplitude [g ^ j].  At no time do both returns sound.  [k] is the
    size of the context; the left send is unit [k + 1], the left return
    [k + 3], the right return [k + 4]. *)
Theorem PingPongDelay_impulse_echoes (Time : Type) (toSeconds : Time -> jsnum)
    (dt : Time) (mx : jsnum) (d g : Qc) (s : engine) :
  wf s ->
  toSeconds dt = Fin d ->
  0 < d ->
  jle (Fin d) mx = true ->
  let k := length (heap s) in
  ∃ s',
    PingPongDelay_new Time toSeconds dt mx (Fin g) s = Ok (PingPongDelay_at k) s'
    ∧ ∀ resp : Qc -> jsnum,
        let ev := feeding (k + 1) impulse resp in
        let left := settles s' ev (k + 3) in
        let right := settles s' ev (k + 4) in
        (∀ t, t < d -> left t jzero)
        ∧ left d jone
        ∧ (∀ t, t < d + d -> right t jzero)
        ∧ right (d + d) (Fin g)
        ∧ left (d + d) jzero
        ∧ (∀ j : nat,
             left (times (S j) d) (Fin (if Nat.odd (S j) then g ^ j else 0))
             ∧ right (times (S j) d) (Fin (if Nat.odd (S j) then 0 else g ^ j)))
        ∧ (∀ t, ∃ l r, left t (Fin l) ∧ right t (Fin r) ∧ (l = 0 ∨ r = 0)).
Proof.
  intros Hwf Hdt Hpos Hmax k. subst k.
  exists (extend s (PingPongDelay_alone toSeconds dt mx (Fin g))).
  split; [by apply PingPongDelay_new_at|].
  intros resp ev left right. subst left right.
  pose proof (PingPongDelay_alone_heap Time toSeconds dt mx (Fin g)) as Hheap.
  rewrite Hdt in Hheap.
  pose proof (PingPongDelay_alone_edges Time toSeconds dt mx (Fin g)) as Hedges.
  assert (Hext : ∀ n t, n ≠ 1%nat ->
                        ext_in (shift_env (length (heap s)) ev) n t = jzero).
  { intros n t Hn. cbn. case_bool_decide; [lia | reflexivity]. }
  assert (Hin : ∀ t, ext_in (shift_env (length (heap s)) ev) 1 t = impulse t).
  { intros t. cbn. case_bool_decide; [reflexivity | lia]. }
  pose proof (echo_multiples mx d g Hpos Hmax _ Hheap Hedges _ Hext Hin) as Hmul.
  split; [|split; [|split; [|split; [|split; [|split]]]]].
  - intros t Ht. apply (settles_extend s _ _ 3 _ _ Hwf).
    by apply (left_silent mx d g Hpos Hmax _ Hheap Hedges _ Hext).
  - apply (settles_extend s _ _ 3 _ _ Hwf).
    eapply settles_eq; [exact (proj1 (Hmul 0%nat)) | apply times_1 | done].
  - intros t Ht. apply (settles_extend s _ _ 4 _ _ Hwf).
    by apply (right_silent_twice mx d g Hpos Hmax _ Hheap Hedges _ Hext).
  - apply (settles_extend s _ _ 4 _ _ Hwf).
    eapply settles_eq; [exact (proj2 (Hmul 1%nat)) | apply times_2 |].
    cbn [Nat.odd Nat.even negb]. f_equal. cbn. ring.
  - apply (settles_extend s _ _ 3 _ _ Hwf).
    eapply settles_eq; [exact (proj1 (Hmul 1%nat)) | apply times_2 | done].
  - intros j. destruct (Hmul j) as [Hl Hr].
    split; by apply settles_extend.
  - intros t. destruct (times_above t d Hpos) as [n Hn].
    destruct (echo_never_both mx d g Hpos Hmax _ Hheap Hedges _ Hext Hin n t Hn)
      as (l & r & Hl & Hr & Hlr).
    exists l, r. split; [by apply settles_extend|].
    split; [by apply settles_extend | exact Hlr].
Qed.

Lemma PingPongDelay_impulse_echoes_witness :
  ∃ s',
    PingPongDelay_new jsnum seconds_of_number (Fin (Q2Qc (1 # 4))) jone
      (Fin (Q2Qc (1 # 2))) demo_engine = Ok (PingPongDelay_at 6) s'
    ∧ settles s' (feeding 7 impulse (fun _ => jzero)) 9 (Q2Qc (1 # 4)) jone
    ∧ settles s' (feeding 7 impulse (fun _ => jzero)) 10
        (Q2Qc (1 # 4) + Q2Qc (1 # 4)) (Fin (Q2Qc (1 # 2))).
Proof.
  destruct (PingPongDelay_impulse_echoes jsnum seconds_of_number
              (Fin (Q2Qc (1 # 4))) jone (Q2Qc (1 # 4)) (Q2Qc (1 # 2))
              demo_engine wf_demo eq_refl eq_refl eq_refl)
    as (s' & Hnew & Hall).
  destruct (Hall (fun _ => jzero)) as (_ & Hl & _ & Hr & _).
  exists s'. split; [exact Hnew|]. split; [exact Hl | exact Hr].
Defined.
(** * Further properties of the code *)

(** ** [connect] *)

(** X1.  [connect] on a destination that does not exist stops with a
    [TypeError] at [node.constructor], before anything is cancelled, set
    or connected: the state is as it was. *)
Theorem connect_to_nothing_throws (s : engine) (this : oid) (nd : ref)
    (o i : option nat) :
  ctor_of_ref (heap s) nd = None ->
  SignalBase_connect this nd o i s = Throw TypeError s.
Proof.
  intros H. unfold SignalBase_connect, lookup_heap.
  rewrite !run_bind. cbn [get_engine]. by rewrite H.
Qed.

Lemma connect_to_nothing_throws_witness :
  SignalBase_connect 0 (RNode 99) None None demo_engine
  = Throw TypeError demo_engine.
Proof. apply connect_to_nothing_throws. reflexivity. Defined.

(** X2.  A follower has the [connect] of the signals: connected to a
    parameter, it cancels what is scheduled on the parameter, sets it to
    0 and then connects the follower's output to it. *)
Theorem Follower_connect_resets_parameter (s : engine) (this output : oid)
    (ins : list ref) (n : oid) (p : pname) (u : node) (x : param)
    (o i : option nat) :
  heap s !! this = Some (UComposite Tone_Follower ins (Some (RNode output))) ->
  heap s !! n = Some u ->
  get_param u p = Some x ->
  ∃ u', set_param u p (zeroed x) = Some u'
        ∧ connect this (RParam n p) o i s =
          Ok () (mkEngine (<[n:=u']> (heap s))
                   (add_conn (mkEdge output (default_arg o 0) (RParam n p)) (edges s))
                   (released s)
                   (trace s ++ [CCancelScheduledValues (RParam n p) 0;
                                CSetValue (RParam n p) jzero;
                                CConnect (mkEdge output (default_arg o 0) (RParam n p))])).
Proof.
  intros Hthis Hn Hp.
  destruct (SignalBase_connect_AudioParam s this n p u x o i output (RParam n p))
    as (u' & Hu' & Hrun); [| |exact Hn|exact Hp|].
  - unfold output_of. by rewrite Hthis.
  - cbn [input_of]. rewrite Hn. cbn [mbind option_bind]. by rewrite Hp.
  - exists u'. split; [exact Hu'|]. unfold connect.
    rewrite run_bind, (get_node_ok _ _ _ Hthis). exact Hrun.
Qed.

Lemma Follower_connect_resets_parameter_witness :
  ∃ u', set_param (UGain (held jone)) P_gain (zeroed (held jone)) = Some u'
        ∧ succeeded (connect 3 (RParam 1 P_gain) None None
                       (state_of (Follower_new jsnum seconds_of_number reciprocal
                                    demo_bufferTime (Fin (Q2Qc (5 # 100)))
                                    (Fin (Q2Qc (5 # 10)))
                                    (mkEngine [USignal (held jone); UGain (held jone);
                                               UGain (held jone)] [] [] []))))
          = true.
Proof.
  destruct (Follower_connect_resets_parameter
              (state_of (Follower_new jsnum seconds_of_number reciprocal
                           demo_bufferTime (Fin (Q2Qc (5 # 100)))
                           (Fin (Q2Qc (5 # 10)))
                           (mkEngine [USignal (held jone); UGain (held jone);
                                      UGain (held jone)] [] [] [])))
              3 5 [RNode 4] 1 P_gain (UGain (held jone)) (held jone) None None)
    as (u' & Hu' & Hrun).
  - vm_compute. reflexivity.
  - vm_compute. reflexivity.
  - reflexivity.
  - exists u'. split; [exact Hu'|]. by rewrite Hrun.
Defined.

(** ** The setters of the follower *)

Section FollowerSetters.

Variable Time : Type.
Variable toSeconds : Time -> jsnum.
Variable secondsToFrequency : jsnum -> jsnum.
Variable bufferTime : jsnum.

Local Abbreviation floor_of t :=
  (Math_max (secondsToFrequency (toSeconds t)) bufferTime).
Local Abbreviation set_attack :=
  (Follower_set_attack Time toSeconds secondsToFrequency bufferTime).
Local Abbreviation set_release :=
  (Follower_set_release Time toSeconds secondsToFrequency bufferTime).

Lemma set_attack_ok (this : Follower Time) (s : engine) (fv : oid)
    (c : option (jsnum -> jsnum)) (a : Time) :
  _frequencyValues this = Some fv ->
  heap s !! fv = Some (UWaveShaper c) ->
  set_attack this a s =
  Ok (mkFollower (Follower_this this) (_abs this) (_filter this)
        (_frequencyValues this) (_sub this) (_delay this) (_mult this)
        a (_release this))
     (with_map s fv (frequency_map (floor_of a) (floor_of (_release this)))).
Proof.
  intros Hfv Hn. unfold Follower_set_attack. rewrite run_bind.
  erewrite setAttackRelease_ok; [|exact Hfv|exact Hn]. by rewrite run_ret.
Qed.

Lemma set_release_ok (this : Follower Time) (s : engine) (fv : oid)
    (c : option (jsnum -> jsnum)) (r : Time) :
  _frequencyValues this = Some fv ->
  heap s !! fv = Some (UWaveShaper c) ->
  set_release this r s =
  Ok (mkFollower (Follower_this this) (_abs this) (_filter this)
        (_frequencyValues this) (_sub this) (_delay this) (_mult this)
        (_attack this) r)
     (with_map s fv (frequency_map (floor_of (_attack this)) (floor_of r))).
Proof.
  intros Hfv Hn. unfold Follower_set_release. rewrite run_bind.
  erewrite setAttackRelease_ok; [|exact Hfv|exact Hn]. by rewrite run_ret.
Qed.

Lemma with_map_twice (s : engine) (fv : oid) (f f' : jsnum -> jsnum) :
  with_map (with_map s fv f) fv f' =
  mkEngine (<[fv:=UWaveShaper (Some f')]> (heap s)) (edges s) (released s)
    (trace s ++ [CSetMap fv; CSetMap fv]).
Proof.
  unfold with_map. cbn [heap edges released trace].
  by rewrite list_insert_insert_eq, <- app_assoc.
Qed.

Lemma with_map_shaper (s : engine) (fv : oid) (c : option (jsnum -> jsnum))
    (f : jsnum -> jsnum) :
  heap s !! fv = Some (UWaveShaper c) ->
  heap (with_map s fv f) !! fv = Some (UWaveShaper (Some f)).
Proof.
  intros Hn. cbn. apply list_lookup_insert_eq. by eapply lookup_lt_Some.
Qed.

(** X3.  The two setters commute: setting the attack and then the
    release leaves the follower and the engine exactly as setting the
    release and then the attack does; the table then holds the
    frequencies of both new times. *)
Theorem setters_commute (this : Follower Time) (s : engine) (fv : oid)
    (c : option (jsnum -> jsnum)) (a r : Time) :
  _frequencyValues this = Some fv ->
  heap s !! fv = Some (UWaveShaper c) ->
  (this' ← set_attack this a; set_release this' r) s
  = (this' ← set_release this r; set_attack this' a) s
  ∧ (this' ← set_attack this a; set_release this' r) s
    = Ok (mkFollower (Follower_this this) (_abs this) (_filter this)
            (_frequencyValues this) (_sub this) (_delay this) (_mult this) a r)
         (mkEngine
            (<[fv:=UWaveShaper (Some (frequency_map (floor_of a) (floor_of r)))]>
               (heap s))
            (edges s) (released s) (trace s ++ [CSetMap fv; CSetMap fv])).
Proof.
  intros Hfv Hn.
  assert (H1 : (this' ← set_attack this a; set_release this' r) s
    = Ok (mkFollower (Follower_this this) (_abs this) (_filter this)
            (_frequencyValues this) (_sub this) (_delay this) (_mult this) a r)
         (mkEngine
            (<[fv:=UWaveShaper (Some (frequency_map (floor_of a) (floor_of r)))]>
               (heap s))
            (edges s) (released s) (trace s ++ [CSetMap fv; CSetMap fv]))).
  { rewrite run_bind, (set_attack_ok this s fv c a Hfv Hn).
    erewrite set_release_ok; [|exact Hfv|by eapply with_map_shaper].
    by rewrite with_map_twice. }
  split; [|exact H1]. rewrite H1.
  rewrite run_bind, (set_release_ok this s fv c r Hfv Hn).
  erewrite set_attack_ok; [|exact Hfv|by eapply with_map_shaper].
  by rewrite with_map_twice.
Qed.

(** X4.  Of two attacks set one after the other only the last one
    counts: the follower and the units are as if the last alone had
    been set; the log shows both rebuilds of the table.  The same holds
    for the release. *)
Theorem setter_last_wins (this : Follower Time) (s : engine) (fv : oid)
    (c : option (jsnum -> jsnum)) (t1 t2 : Time) :
  _frequencyValues this = Some fv ->
  heap s !! fv = Some (UWaveShaper c) ->
  (∃ this' s1 s2,
     set_attack this t2 s = Ok this' s1
     ∧ (f ← set_attack this t1; set_attack f t2) s = Ok this' s2
     ∧ heap s2 = heap s1 ∧ edges s2 = edges s1 ∧ released s2 = released s1
     ∧ trace s1 = trace s ++ [CSetMap fv]
     ∧ trace s2 = trace s ++ [CSetMap fv; CSetMap fv])
  ∧ (∃ this' s1 s2,
       set_release this t2 s = Ok this' s1
       ∧ (f ← set_release this t1; set_release f t2) s = Ok this' s2
       ∧ heap s2 = heap s1 ∧ edges s2 = edges s1 ∧ released s2 = released s1
       ∧ trace s1 = trace s ++ [CSetMap fv]
       ∧ trace s2 = trace s ++ [CSetMap fv; CSetMap fv]).
Proof.
  intros Hfv Hn. split.
  - do 3 eexists. split; [by apply (set_attack_ok this s fv c t2)|].
    split.
    { rewrite run_bind, (set_attack_ok this s fv c t1 Hfv Hn).
      erewrite set_attack_ok; [|exact Hfv|by eapply with_map_shaper].
      by rewrite with_map_twice. }
    done.
  - do 3 eexists. split; [by apply (set_release_ok this s fv c t2)|].
    split.
    { rewrite run_bind, (set_release_ok this s fv c t1 Hfv Hn).
      erewrite set_release_ok; [|exact Hfv|by eapply with_map_shaper].
      by rewrite with_map_twice. }
    done.
Qed.

End FollowerSetters.

Lemma setters_commute_witness :
  (this' ← Follower_set_attack jsnum seconds_of_number reciprocal demo_bufferTime
             (get_or no_Follower demo_Follower) (Fin (Q2Qc (1 # 100)));
   Follower_set_release jsnum seconds_of_number reciprocal demo_bufferTime
     this' (Fin (Q2Qc (2 # 1)))) (state_of demo_Follower)
  = (this' ← Follower_set_release jsnum seconds_of_number reciprocal demo_bufferTime
               (get_or no_Follower demo_Follower) (Fin (Q2Qc (2 # 1)));
     Follower_set_attack jsnum seconds_of_number reciprocal demo_bufferTime
       this' (Fin (Q2Qc (1 # 100)))) (state_of demo_Follower).
Proof.
  assert (H5 : heap (state_of demo_Follower) !! 5%nat
               = Some (UWaveShaper
                         (Some (frequency_map
                                  (Math_max (reciprocal (seconds_of_number
                                                           (Fin (Q2Qc (5 # 100)))))
                                     demo_bufferTime)
                                  (Math_max (reciprocal (seconds_of_number
                                                           (Fin (Q2Qc (5 # 10)))))
                                     demo_bufferTime)))))
    by (vm_compute; reflexivity).
  exact (proj1 (setters_commute jsnum seconds_of_number reciprocal demo_bufferTime
                  (get_or no_Follower demo_Follower) (state_of demo_Follower) 5
                  _ (Fin (Q2Qc (1 # 100))) (Fin (Q2Qc (2 # 1))) eq_refl H5)).
Defined.

Lemma setter_last_wins_witness :
  ∃ this' s1 s2,
    Follower_set_attack jsnum seconds_of_number reciprocal demo_bufferTime
      (get_or no_Follower demo_Follower) (Fin (Q2Qc (2 # 1))) (state_of demo_Follower)
    = Ok this' s1
    ∧ (f ← Follower_set_attack jsnum seconds_of_number reciprocal demo_bufferTime
             (get_or no_Follower demo_Follower) (Fin (Q2Qc (1 # 100)));
       Follower_set_attack jsnum seconds_of_number reciprocal demo_bufferTime
         f (Fin (Q2Qc (2 # 1)))) (state_of demo_Follower) = Ok this' s2
    ∧ heap s2 = heap s1.
Proof.
  assert (H5 : heap (state_of demo_Follower) !! 5%nat
               = Some (UWaveShaper
                         (Some (frequency_map
                                  (Math_max (reciprocal (seconds_of_number
                                                           (Fin (Q2Qc (5 # 100)))))
                                     demo_bufferTime)
                                  (Math_max (reciprocal (seconds_of_number
                                                           (Fin (Q2Qc (5 # 10)))))
                                     demo_bufferTime)))))
    by (vm_compute; reflexivity).
  destruct (setter_last_wins jsnum seconds_of_number reciprocal demo_bufferTime
              (get_or no_Follower demo_Follower) (state_of demo_Follower) 5
              _ (Fin (Q2Qc (1 # 100))) (Fin (Q2Qc (2 # 1))) eq_refl H5)
    as [(this' & s1 & s2 & H1 & H2 & Hh & _) _].
  exists this', s1, s2. split; [exact H1|]. split; [exact H2 | exact Hh].
Defined.

(** ** The first [dispose] *)

Lemma disconnect_ok (s : engine) (n : oid) :
  is_Some (heap s !! n) ->
  disconnect n s =
  Ok () (mkEngine (heap s) (filter (fun e => e_src e ≠ n) (edges s))
           (released s) (trace s ++ [CDisconnect n])).
Proof.
  intros [u Hn]. unfold disconnect.
  by rewrite run_bind, (get_node_ok _ _ _ Hn).
Qed.

Lemma release_ok (s : engine) (n : oid) :
  is_Some (heap s !! n) ->
  release n s =
  Ok () (mkEngine (heap s) (filter (fun e => e_src e ≠ n) (edges s))
           (released s ++ [n]) (trace s ++ [CRelease n])).
Proof.
  intros [u Hn]. unfold release.
  by rewrite run_bind, (get_node_ok _ _ _ Hn).
Qed.

(** X5.  The first [dispose] of a follower, once the inherited
    [dispose] has returned: it disconnects the filter, the table, the
    delay and the subtractor and releases the rectifier and the
    multiplier, in this order; afterwards no connection leaves any of
    the six units, the connections of the other units are the ones the
    inherited [dispose] left, the units still exist, and every private
    field is [null]. *)
Theorem Follower_dispose_first (Time : Type) (bd : oid -> M ())
    (f : Follower Time) (s s1 : engine) (ab fi fv sb dl ml : oid) :
  _abs f = Some ab -> _filter f = Some fi -> _frequencyValues f = Some fv ->
  _sub f = Some sb -> _delay f = Some dl -> _mult f = Some ml ->
  bd (Follower_this f) s = Ok () s1 ->
  Forall (fun n => is_Some (heap s1 !! n)) [fi; fv; dl; sb; ab; ml] ->
  ∃ s',
    Follower_dispose Time bd f s =
      Ok (mkFollower (Follower_this f) None None None None None None
            (_attack f) (_release f)) s'
    ∧ heap s' = heap s1
    ∧ (∀ e, e ∈ edges s' <-> e ∈ edges s1 ∧ e_src e ∉ [fi; fv; dl; sb; ab; ml])
    ∧ released s' = released s1 ++ [ab; ml]
    ∧ trace s' = trace s1 ++ [CDisconnect fi; CDisconnect fv; CDisconnect dl;
                              CDisconnect sb; CRelease ab; CRelease ml].
Proof.
  intros Hab Hfi Hfv Hsb Hdl Hml Hbd Hall.
  apply list.Forall_cons in Hall as [H1 Hall]. apply list.Forall_cons in Hall as [H2 Hall].
  apply list.Forall_cons in Hall as [H3 Hall]. apply list.Forall_cons in Hall as [H4 Hall].
  apply list.Forall_cons in Hall as [H5 Hall]. apply list.Forall_cons in Hall as [H6 _].
  eexists. split.
  { unfold Follower_dispose. rewrite run_bind, Hbd.
    rewrite Hfi, Hfv, Hdl, Hsb, Hab, Hml. cbn [deref].
    rewrite run_bind, run_ret, run_bind. erewrite disconnect_ok by exact H1.
    rewrite run_bind, run_ret, run_bind. erewrite disconnect_ok by exact H2.
    rewrite run_bind, run_ret, run_bind. erewrite disconnect_ok by exact H3.
    rewrite run_bind, run_ret, run_bind. erewrite disconnect_ok by exact H4.
    rewrite run_bind, run_ret, run_bind. erewrite release_ok by exact H5.
    rewrite run_bind, run_ret, run_bind. erewrite release_ok by exact H6.
    rewrite run_ret. reflexivity. }
  cbn [heap edges released trace]. split; [done|]. split; [|split].
  - intros e. rewrite !list_elem_of_filter, !not_elem_of_cons. pose proof (not_elem_of_nil (e_src e)). tauto.
  - by rewrite <- app_assoc.
  - by rewrite <- !app_assoc.
Qed.

Lemma Follower_dispose_first_witness :
  ∃ s',
    Follower_dispose jsnum Tone_prototype_dispose
      (get_or no_Follower demo_Follower) (state_of demo_Follower) =
      Ok (mkFollower 0 None None None None None None
            (Fin (Q2Qc (5 # 100))) (Fin (Q2Qc (5 # 10)))) s'
    ∧ released s' = [3; 8]%nat
    ∧ ∀ e, e ∈ edges s' -> e_src e ∉ [4; 5; 7; 6; 3; 8]%nat.
Proof.
  destruct (Follower_dispose_first jsnum Tone_prototype_dispose
              (get_or no_Follower demo_Follower) (state_of demo_Follower)
              (state_of (Tone_prototype_dispose 0 (state_of demo_Follower)))
              3 4 5 6 7 8 eq_refl eq_refl eq_refl eq_refl eq_refl eq_refl)
    as (s' & Hrun & _ & He & Hrel & _).
  - vm_compute. reflexivity.
  - repeat constructor; vm_compute; eexists; reflexivity.
  - exists s'. split; [exact Hrun|]. split.
    + rewrite Hrel. vm_compute. reflexivity.
    + intros e Hin. by apply He in Hin as [_ Hin].
Defined.

(** X6.  The first [dispose] of a comparator, once the inherited
    [dispose] has returned: it releases the subtractor and then the
    threshold stage; no connection leaves either afterwards and both
    fields are [null]. *)
Theorem GreaterThan_dispose_first (bd : oid -> M ()) (g : GreaterThan)
    (s s1 : engine) (sb gz : oid) :
  _value g = Some sb -> _gtz g = Some gz ->
  bd (GreaterThan_this g) s = Ok () s1 ->
  is_Some (heap s1 !! sb) -> is_Some (heap s1 !! gz) ->
  ∃ s',
    GreaterThan_dispose bd g s = Ok (mkGreaterThan (GreaterThan_this g) None None) s'
    ∧ heap s' = heap s1
    ∧ (∀ e, e ∈ edges s' <-> e ∈ edges s1 ∧ e_src e ∉ [sb; gz])
    ∧ released s' = released s1 ++ [sb; gz]
    ∧ trace s' = trace s1 ++ [CRelease sb; CRelease gz].
Proof.
  intros Hsb Hgz Hbd H1 H2. eexists. split.
  { unfold GreaterThan_dispose. rewrite run_bind, Hbd, Hsb, Hgz. cbn [deref].
    rewrite run_bind, run_ret, run_bind. erewrite release_ok by exact H1.
    rewrite run_bind, run_ret, run_bind. erewrite release_ok by exact H2.
    rewrite run_ret. reflexivity. }
  cbn [heap edges released trace]. split; [done|]. split; [|split].
  - intros e. rewrite !list_elem_of_filter, !not_elem_of_cons. pose proof (not_elem_of_nil (e_src e)). tauto.
  - by rewrite <- app_assoc.
  - by rewrite <- !app_assoc.
Qed.

Lemma GreaterThan_dispose_first_witness :
  ∃ s',
    GreaterThan_dispose Tone_prototype_dispose
      (get_or no_GreaterThan demo_GreaterThan) (state_of demo_GreaterThan) =
      Ok (mkGreaterThan 0 None None) s'
    ∧ released s' = [1; 2]%nat
    ∧ ∀ e, e ∈ edges s' -> e_src e ∉ [1; 2]%nat.
Proof.
  destruct (GreaterThan_dispose_first Tone_prototype_dispose
              (get_or no_GreaterThan demo_GreaterThan) (state_of demo_GreaterThan)
              (state_of (Tone_prototype_dispose 0 (state_of demo_GreaterThan)))
              1 2 eq_refl eq_refl)
    as (s' & Hrun & _ & He & Hrel & _).
  - vm_compute. reflexivity.
  - vm_compute. eexists. reflexivity.
  - vm_compute. eexists. reflexivity.
  - exists s'. split; [exact Hrun|]. split.
    + rewrite Hrel. vm_compute. reflexivity.
    + intros e Hin. by apply He in Hin as [_ Hin].
Defined.

(** X7.  The first [dispose] of a ping-pong delay, once the inherited
    [dispose] has returned the base: it disconnects the left and the
    right delay line and releases the delay-time signal; afterwards no
    connection leaves any of the three, so nothing reaches the returns
    through the delay lines and nothing drives their delay times, and
    the three fields are [null]. *)
Theorem PingPongDelay_dispose_first
    (ed : StereoXFeedbackEffect -> M StereoXFeedbackEffect)
    (p : PingPongDelay) (b' : StereoXFeedbackEffect) (s s1 : engine)
    (l r dtm : oid) :
  _leftDelay p = Some l -> _rightDelay p = Some r -> delayTime p = Some dtm ->
  ed (base p) s = Ok b' s1 ->
  Forall (fun n => is_Some (heap s1 !! n)) [l; r; dtm] ->
  ∃ s',
    PingPongDelay_dispose ed p s = Ok (mkPingPongDelay b' None None None) s'
    ∧ heap s' = heap s1
    ∧ (∀ e, e ∈ edges s' <-> e ∈ edges s1 ∧ e_src e ∉ [l; r; dtm])
    ∧ released s' = released s1 ++ [dtm]
    ∧ trace s' = trace s1 ++ [CDisconnect l; CDisconnect r; CRelease dtm].
Proof.
  intros Hl Hr Hd Hed Hall.
  apply list.Forall_cons in Hall as [H1 Hall]. apply list.Forall_cons in Hall as [H2 Hall].
  apply list.Forall_cons in Hall as [H3 _].
  eexists. split.
  { unfold PingPongDelay_dispose. rewrite run_bind, Hed, Hl, Hr, Hd. cbn [deref].
    rewrite run_bind, run_ret, run_bind. erewrite disconnect_ok by exact H1.
    rewrite run_bind, run_ret, run_bind. erewrite disconnect_ok by exact H2.
    rewrite run_bind, run_ret, run_bind. erewrite release_ok by exact H3.
    rewrite run_ret. reflexivity. }
  cbn [heap edges released trace]. split; [done|]. split; [|split].
  - intros e. rewrite !list_elem_of_filter, !not_elem_of_cons. pose proof (not_elem_of_nil (e_src e)). tauto.
  - done.
  - by rewrite <- !app_assoc.
Qed.

Lemma PingPongDelay_dispose_first_witness :
  ∃ b' s',
    PingPongDelay_dispose StereoXFeedbackEffect_dispose
      (get_or no_PingPongDelay demo_PingPongDelay) (state_of demo_PingPongDelay) =
      Ok (mkPingPongDelay b' None None None) s'
    ∧ ∀ e, e ∈ edges s' -> e_src e ∉ [8; 9; 10]%nat.
Proof.
  destruct (PingPongDelay_dispose_first StereoXFeedbackEffect_dispose
              (get_or no_PingPongDelay demo_PingPongDelay)
              (get_or (base no_PingPongDelay)
                 (StereoXFeedbackEffect_dispose
                    (base (get_or no_PingPongDelay demo_PingPongDelay))
                    (state_of demo_PingPongDelay)))
              (state_of demo_PingPongDelay)
              (state_of (StereoXFeedbackEffect_dispose
                           (base (get_or no_PingPongDelay demo_PingPongDelay))
                           (state_of demo_PingPongDelay)))
              8 9 10 eq_refl eq_refl eq_refl)
    as (s' & Hrun & _ & He & _).
  - vm_compute. reflexivity.
  - repeat constructor; vm_compute; eexists; reflexivity.
  - eexists _, s'. split; [exact Hrun|].
    intros e Hin. by apply He in Hin as [_ Hin].
Defined.

(** ** What the constructors build *)

Section FollowerBuilt.

Variable Time : Type.
Variable toSeconds : Time -> jsnum.
Variable secondsToFrequency : jsnum -> jsnum.
Variable bufferTime : jsnum.
Variable attack release : Time.

Local Abbreviation F :=
  (Follower_alone toSeconds secondsToFrequency bufferTime attack release).
Local Abbreviation A :=
  (Math_max (secondsToFrequency (toSeconds attack)) bufferTime).
Local Abbreviation R :=
  (Math_max (secondsToFrequency (toSeconds release)) bufferTime).

Lemma Follower_built_alone :
  Follower_new Time toSeconds secondsToFrequency bufferTime attack release
    empty_engine =
  Ok (mkFollower 0 (Some 3%nat) (Some 4%nat) (Some 5%nat) (Some 6%nat)
        (Some 7%nat) (Some 8%nat) attack release) F.
Proof. vm_compute. reflexivity. Qed.

Lemma Follower_built_heap :
  heap F =
  [UComposite Tone_Follower [RNode 1] (Some (RNode 2));
   UGain (held jone); UGain (held jone); UAbs;
   UBiquad (held jzero) (held (Fin (Qc_of_Z (-100))));
   UWaveShaper (Some (frequency_map A R));
   USubtract jzero; UDelay (held bufferTime) jone;
   UMultiply (Fin (Qc_of_Z 10000))].
Proof. vm_compute. reflexivity. Qed.

Lemma Follower_built_edges :
  edges F =
  [mkEdge 1 0 (RInput 3 0); mkEdge 3 0 (RInput 4 0); mkEdge 4 0 (RInput 2 0);
   mkEdge 3 0 (RInput 6 1); mkEdge 4 0 (RInput 7 0); mkEdge 7 0 (RInput 6 0);
   mkEdge 6 0 (RInput 8 0); mkEdge 8 0 (RInput 5 0);
   mkEdge 5 0 (RParam 4 P_frequency)].
Proof. vm_compute. reflexivity. Qed.

Lemma Follower_built_released : released F = [].
Proof. vm_compute. reflexivity. Qed.

End FollowerBuilt.

(** X8.  [new Tone.Follower] in a context of [k] units adds nine units
    after those of the context and touches none of them: the follower
    with its input and output port, the rectifier, the low-pass filter
    with frequency 0 and Q -100, the table holding the map of the two
    frequencies, the subtractor, the delay of one block and the
    multiplier by 10000.  It adds nine connections after those of the
    context: input -> rectifier -> filter -> output, rectifier ->
    second input of the subtractor, filter -> delay -> first input of
    the subtractor, subtractor -> multiplier -> table -> frequency of
    the filter.  It releases nothing. *)
Theorem Follower_new_builds (Time : Type) (toSeconds : Time -> jsnum)
    (secondsToFrequency : jsnum -> jsnum) (bufferTime : jsnum)
    (attack release : Time) (s : engine) :
  wf s ->
  let k := length (heap s) in
  let A := Math_max (secondsToFrequency (toSeconds attack)) bufferTime in
  let R := Math_max (secondsToFrequency (toSeconds release)) bufferTime in
  ∃ s',
    Follower_new Time toSeconds secondsToFrequency bufferTime attack release s =
      Ok (mkFollower k (Some (k + 3)%nat) (Some (k + 4)%nat) (Some (k + 5)%nat)
            (Some (k + 6)%nat) (Some (k + 7)%nat) (Some (k + 8)%nat)
            attack release) s'
    ∧ heap s' = heap s ++
        [UComposite Tone_Follower [RNode (k + 1)] (Some (RNode (k + 2)));
         UGain (held jone); UGain (held jone); UAbs;
         UBiquad (held jzero) (held (Fin (Qc_of_Z (-100))));
         UWaveShaper (Some (frequency_map A R));
         USubtract jzero; UDelay (held bufferTime) jone;
         UMultiply (Fin (Qc_of_Z 10000))]
    ∧ edges s' = edges s ++
        [mkEdge (k + 1) 0 (RInput (k + 3) 0); mkEdge (k + 3) 0 (RInput (k + 4) 0);
         mkEdge (k + 4) 0 (RInput (k + 2) 0); mkEdge (k + 3) 0 (RInput (k + 6) 1);
         mkEdge (k + 4) 0 (RInput (k + 7) 0); mkEdge (k + 7) 0 (RInput (k + 6) 0);
         mkEdge (k + 6) 0 (RInput (k + 8) 0); mkEdge (k + 8) 0 (RInput (k + 5) 0);
         mkEdge (k + 5) 0 (RParam (k + 4) P_frequency)]
    ∧ released s' = released s.
Proof.
  intros Hwf k A R. subst k A R.
  destruct (sim_run _ s _ _ _ _
              (sim_Follower_new s Hwf Time toSeconds secondsToFrequency bufferTime
                 attack release)
              (Follower_built_alone Time toSeconds secondsToFrequency bufferTime
                 attack release))
    as (f & Hrun & ->).
  eexists. split.
  { rewrite Hrun. unfold shift_Follower. cbn [Follower_this _abs _filter
      _frequencyValues _sub _delay _mult _attack _release fmap option_fmap option_map].
    by rewrite Nat.add_0_r. }
  unfold extend. cbn [heap edges released].
  rewrite Follower_built_heap, Follower_built_edges, Follower_built_released.
  split; [reflexivity|]. split; [reflexivity|]. cbn. by rewrite app_nil_r.
Qed.

Lemma Follower_new_builds_witness :
  ∃ s',
    Follower_new jsnum seconds_of_number reciprocal demo_bufferTime
      (Fin (Q2Qc (5 # 100))) (Fin (Q2Qc (5 # 10))) demo_engine =
      Ok (mkFollower 6 (Some 9%nat) (Some 10%nat) (Some 11%nat) (Some 12%nat)
            (Some 13%nat) (Some 14%nat) (Fin (Q2Qc (5 # 100)))
            (Fin (Q2Qc (5 # 10)))) s'
    ∧ released s' = released demo_engine.
Proof.
  destruct (Follower_new_builds jsnum seconds_of_number reciprocal demo_bufferTime
              (Fin (Q2Qc (5 # 100))) (Fin (Q2Qc (5 # 10))) demo_engine wf_demo)
    as (s' & Hrun & _ & _ & Hrel).
  exists s'. split; [exact Hrun | exact Hrel].
Defined.

Lemma GreaterThan_built_heap (v : option jsnum) :
  heap (GreaterThan_alone v) =
  [UComposite Tone_GreaterThan [RNode 1; RInput 1 1] (Some (RNode 2));
   USubtract (default_value v); UGreaterThanZero].
Proof. reflexivity. Qed.

Lemma GreaterThan_built_edges (v : option jsnum) :
  edges (GreaterThan_alone v) = [mkEdge 1 0 (RInput 2 0)].
Proof. reflexivity. Qed.

(** X9.  [new Tone.GreaterThan(value)] in a context of [k] units adds
    three units after those of the context and touches none of them:
    the comparator, whose first input is the subtractor, whose second
    input is the second input of the subtractor and whose output is the
    threshold stage; the subtractor holding [value], 0 when none is
    given; the threshold stage.  Its one connection goes from the
    subtractor to the threshold stage. *)
Theorem GreaterThan_new_builds (v : option jsnum) (s : engine) :
  wf s ->
  let k := length (heap s) in
  ∃ s',
    GreaterThan_new v s =
      Ok (mkGreaterThan k (Some (k + 1)%nat) (Some (k + 2)%nat)) s'
    ∧ heap s' = heap s ++
        [UComposite Tone_GreaterThan [RNode (k + 1); RInput (k + 1) 1]
           (Some (RNode (k + 2)));
         USubtract (default_value v); UGreaterThanZero]
    ∧ edges s' = edges s ++ [mkEdge (k + 1) 0 (RInput (k + 2) 0)]
    ∧ released s' = released s.
Proof.
  intros Hwf k. subst k.
  destruct (sim_run _ s _ _ _ _ (sim_GreaterThan_new s Hwf v) (GreaterThan_new_alone v))
    as (g & Hrun & ->).
  eexists. split.
  { rewrite Hrun. unfold shift_GreaterThan. cbn. by rewrite Nat.add_0_r. }
  unfold extend. cbn [heap edges released].
  rewrite GreaterThan_built_heap, GreaterThan_built_edges.
  split; [reflexivity|]. split; [reflexivity|].
  change (released (GreaterThan_alone v)) with (@nil oid). cbn.
  by rewrite app_nil_r.
Qed.

Lemma GreaterThan_new_builds_witness :
  ∃ s',
    GreaterThan_new None demo_engine =
      Ok (mkGreaterThan 6 (Some 7%nat) (Some 8%nat)) s'
    ∧ heap s' !! 7%nat = Some (USubtract jzero).
Proof.
  destruct (GreaterThan_new_builds None demo_engine wf_demo)
    as (s' & Hrun & Hh & _).
  exists s'. split; [exact Hrun|]. rewrite Hh. vm_compute. reflexivity.
Defined.

Lemma PingPongDelay_built_released (Time : Type) (toSeconds : Time -> jsnum)
    (dt : Time) (mx fb : jsnum) :
  released (PingPongDelay_alone toSeconds dt mx fb) = [].
Proof. vm_compute. reflexivity. Qed.

(** X10.  [new Tone.PingPongDelay] in a context of [k] units adds, after
    the units of the base effect, two delay lines of the longest delay
    [maxDelayTime] and a signal holding the delay time in seconds, and
    touches no unit of the context.  The connections it leaves: left
    send -> left delay -> left return, right send -> right delay ->
    right return, the delay-time signal to the delay time of both
    lines, the left-to-right feedback path from the left return to the
    right send, and the right-to-left feedback path from the right
    return to the left delay.  It releases nothing. *)
Theorem PingPongDelay_new_builds (Time : Type) (toSeconds : Time -> jsnum)
    (dt : Time) (mx fb : jsnum) (s : engine) :
  wf s ->
  let k := length (heap s) in
  ∃ s',
    PingPongDelay_new Time toSeconds dt mx fb s = Ok (PingPongDelay_at k) s'
    ∧ heap s' = heap s ++
        [UComposite Tone_PingPongDelay [] None;
         UGain (held jone); UGain (held jone); UGain (held jone); UGain (held jone);
         USignal (held fb); UGain (held jzero); UGain (held jzero);
         UDelay (held jzero) mx; UDelay (held jzero) mx;
         USignal (held (toSeconds dt))]
    ∧ edges s' = edges s ++
        [mkEdge (k + 3) 0 (RInput (k + 6) 0); mkEdge (k + 6) 0 (RInput (k + 2) 0);
         mkEdge (k + 4) 0 (RInput (k + 7) 0);
         mkEdge (k + 5) 0 (RParam (k + 6) P_gain);
         mkEdge (k + 5) 0 (RParam (k + 7) P_gain);
         mkEdge (k + 1) 0 (RInput (k + 8) 0); mkEdge (k + 8) 0 (RInput (k + 3) 0);
         mkEdge (k + 2) 0 (RInput (k + 9) 0); mkEdge (k + 9) 0 (RInput (k + 4) 0);
         mkEdge (k + 10) 0 (RParam (k + 8) P_delayTime);
         mkEdge (k + 10) 0 (RParam (k + 9) P_delayTime);
         mkEdge (k + 7) 0 (RInput (k + 8) 0)]
    ∧ released s' = released s.
Proof.
  intros Hwf k. subst k.
  exists (extend s (PingPongDelay_alone toSeconds dt mx fb)).
  split; [by apply PingPongDelay_new_at|].
  unfold extend. cbn [heap edges released].
  rewrite PingPongDelay_alone_heap, PingPongDelay_alone_edges,
    PingPongDelay_built_released.
  split; [reflexivity|]. split; [reflexivity|]. cbn. by rewrite app_nil_r.
Qed.

Lemma PingPongDelay_new_builds_witness :
  ∃ s',
    PingPongDelay_new jsnum seconds_of_number (Fin (Q2Qc (25 # 100))) jone
      (Fin (Q2Qc (5 # 10))) demo_engine = Ok (PingPongDelay_at 6) s'
    ∧ released s' = released demo_engine.
Proof.
  destruct (PingPongDelay_new_builds jsnum seconds_of_number
              (Fin (Q2Qc (25 # 100))) jone (Fin (Q2Qc (5 # 10))) demo_engine wf_demo)
    as (s' & Hrun & _ & _ & Hrel).
  exists s'. split; [exact Hrun | exact Hrel].
Defined.

(** ** The echoes of any input *)

(** X11.  The law of the echoes.  A ping-pong delay with delay time
    [d > 0], within the longest delay of its lines, and feedback [g] is
    built in any well-formed context and fed the signal [x] at its left
    send, nothing at the right.  Both returns are silent before [d].
    From [d] on, the left return carries the input of [d] earlier plus
    [g] times the right return of [d] earlier, and the right return
    carries [g] times the left return of [d] earlier. *)
Theorem PingPongDelay_echo_law (Time : Type) (toSeconds : Time -> jsnum)
    (dt : Time) (mx : jsnum) (d g : Qc) (s : engine) :
  wf s ->
  toSeconds dt = Fin d ->
  0 < d ->
  jle (Fin d) mx = true ->
  let k := length (heap s) in
  ∃ s',
    PingPongDelay_new Time toSeconds dt mx (Fin g) s = Ok (PingPongDelay_at k) s'
    ∧ ∀ x resp : Qc -> jsnum,
        let ev := feeding (k + 1) x resp in
        let left := settles s' ev (k + 3) in
        let right := settles s' ev (k + 4) in
        (∀ t, t < d -> left t jzero ∧ right t jzero)
        ∧ (∀ t r, d ≤ t -> right (t - d) r ->
             left t (jadd (x (t - d)) (jmul r (Fin g))))
        ∧ (∀ t l, d ≤ t -> left (t - d) l -> right t (jmul l (Fin g))).
Proof.
  intros Hwf Hdt Hpos Hmax k. subst k.
  exists (extend s (PingPongDelay_alone toSeconds dt mx (Fin g))).
  split; [by apply PingPongDelay_new_at|].
  intros x resp ev left right. subst left right.
  pose proof (PingPongDelay_alone_heap Time toSeconds dt mx (Fin g)) as Hheap.
  rewrite Hdt in Hheap.
  pose proof (PingPongDelay_alone_edges Time toSeconds dt mx (Fin g)) as Hedges.
  destruct (shift_env_feeding (length (heap s)) 1 x resp) as (Hext & Hin & _).
  fold ev in Hext, Hin.
  split; [|split].
  - intros t Ht. split.
    + apply (settles_extend s _ _ 3 _ _ Hwf).
      exact (left_silent mx d g Hpos Hmax _ Hheap Hedges _ Hext t Ht).
    + apply (settles_extend s _ _ 4 _ _ Hwf).
      exact (right_silent mx d g Hpos Hmax _ Hheap Hedges _ Hext t Ht).
  - intros t r Ht Hr. apply (settles_extend s _ _ 3 _ _ Hwf).
    rewrite <- Hin.
    apply (left_echo mx d g Hpos Hmax _ Hheap Hedges _ Hext t r Ht).
    destruct Hr as [N HN]. exists N. intros fuel Hfuel.
    rewrite <- (out_extend s Hwf). exact (HN fuel Hfuel).
  - intros t l Ht Hl. apply (settles_extend s _ _ 4 _ _ Hwf).
    apply (right_echo mx d g Hpos Hmax _ Hheap Hedges _ Hext t l Ht).
    destruct Hl as [N HN]. exists N. intros fuel Hfuel.
    rewrite <- (out_extend s Hwf). exact (HN fuel Hfuel).
Qed.

Lemma PingPongDelay_echo_law_witness :
  ∃ s',
    PingPongDelay_new jsnum seconds_of_number (Fin (Q2Qc (1 # 4))) jone
      (Fin (Q2Qc (1 # 2))) demo_engine = Ok (PingPongDelay_at 6) s'
    ∧ settles s' (feeding 7 (fun _ => jone) (fun _ => jzero)) 9 0 jzero
    ∧ settles s' (feeding 7 (fun _ => jone) (fun _ => jzero)) 9 (Q2Qc (1 # 4))
        (jadd jone (jmul jzero (Fin (Q2Qc (1 # 2))))).
Proof.
  destruct (PingPongDelay_echo_law jsnum seconds_of_number
              (Fin (Q2Qc (1 # 4))) jone (Q2Qc (1 # 4)) (Q2Qc (1 # 2))
              demo_engine wf_demo eq_refl eq_refl eq_refl)
    as (s' & Hnew & Hall).
  destruct (Hall (fun _ => jone) (fun _ => jzero)) as (Hs & Hl & _).
  exists s'. split; [exact Hnew|]. split.
  - apply Hs. reflexivity.
  - apply (Hl (Q2Qc (1 # 4)) jzero).
    + intros H. discriminate H.
    + replace (Q2Qc (1 # 4) - Q2Qc (1 # 4)) with (Q2Qc 0) by ring.
      apply Hs. reflexivity.
Defined.

Section PingPongPlain.

Variable mx : jsnum.
Variable d : Qc.

Hypothesis Hpos : 0 < d.
Hypothesis Hmax : jle (Fin d) mx = true.

Variable P : engine.
Hypothesis Hheap : heap P =
  [UComposite Tone_PingPongDelay [] None;
   UGain (held jone); UGain (held jone); UGain (held jone); UGain (held jone);
   USignal (held (Fin 0)); UGain (held jzero); UGain (held jzero);
   UDelay (held jzero) mx; UDelay (held jzero) mx;
   USignal (held (Fin d))].
Hypothesis Hedges : edges P = PingPongDelay_wiring.

Variable ev : env.
Hypothesis Hext : ∀ n t, n ≠ 1%nat -> ext_in ev n t = jzero.
Hypothesis Hfin : ∀ t, ∃ q, ext_in ev 1 t = Fin q.

Lemma plain_delay (n : nat) :
  ∀ t, t < times n d ->
       settles P ev 3 t (if Qc_ltb t d then jzero else ext_in ev 1 (t - d))
       ∧ settles P ev 4 t jzero.
Proof.
  assert (Hsilent : ∀ t, t < d ->
            settles P ev 3 t (if Qc_ltb t d then jzero else ext_in ev 1 (t - d))
            ∧ settles P ev 4 t jzero).
  { intros t Ht. rewrite (proj2 (Qc_ltb_lt t d) Ht). split.
    - exact (left_silent mx d 0 Hpos Hmax _ Hheap Hedges _ Hext t Ht).
    - exact (right_silent mx d 0 Hpos Hmax _ Hheap Hedges _ Hext t Ht). }
  induction n as [|n IH]; intros t Ht.
  - rewrite times_0 in Ht. apply Hsilent. by eapply Qclt_trans.
  - destruct (Qclt_le_dec t d) as [Hlt|Hge]; [by apply Hsilent|].
    rewrite times_S in Ht. apply sub_lt_d in Ht.
    destruct (IH (t - d) Ht) as [Hl Hr].
    rewrite (proj2 (Qc_ltb_ge t d) Hge). split.
    + eapply settles_eq;
        [exact (left_echo mx d 0 Hpos Hmax _ Hheap Hedges _ Hext t jzero Hge Hr)
        | done |].
      destruct (Hfin (t - d)) as [q ->]. cbn. f_equal. ring.
    + assert (Hq : ∃ q, (if Qc_ltb (t - d) d then jzero
                         else ext_in ev 1 (t - d - d)) = Fin q).
      { destruct (Qc_ltb (t - d) d); [by exists 0 | apply Hfin]. }
      destruct Hq as [q Hq]. rewrite Hq in Hl.
      eapply settles_eq;
        [exact (right_echo mx d 0 Hpos Hmax _ Hheap Hedges _ Hext t (Fin q) Hge Hl)
        | done |].
      cbn. f_equal. ring.
Qed.

End PingPongPlain.

(** X12.  Without feedback the effect is a plain delay of the left
    channel.  With the feedback 0 and a left input [x] of finite
    samples, the left return carries the input of [d] earlier, silence
    before [d], and the right return stays silent at all times: no
    echo crosses to the right. *)
Theorem PingPongDelay_without_feedback (Time : Type) (toSeconds : Time -> jsnum)
    (dt : Time) (mx : jsnum) (d : Qc) (s : engine) :
  wf s ->
  toSeconds dt = Fin d ->
  0 < d ->
  jle (Fin d) mx = true ->
  let k := length (heap s) in
  ∃ s',
    PingPongDelay_new Time toSeconds dt mx (Fin 0) s = Ok (PingPongDelay_at k) s'
    ∧ ∀ (x : Qc -> Qc) (resp : Qc -> jsnum) (t : Qc),
        let ev := feeding (k + 1) (fun t => Fin (x t)) resp in
        settles s' ev (k + 3) t (if Qc_ltb t d then jzero else Fin (x (t - d)))
        ∧ settles s' ev (k + 4) t jzero.
Proof.
  intros Hwf Hdt Hpos Hmax k. subst k.
  exists (extend s (PingPongDelay_alone toSeconds dt mx (Fin 0))).
  split; [by apply PingPongDelay_new_at|].
  intros x resp t ev.
  pose proof (PingPongDelay_alone_heap Time toSeconds dt mx (Fin 0)) as Hheap.
  rewrite Hdt in Hheap.
  pose proof (PingPongDelay_alone_edges Time toSeconds dt mx (Fin 0)) as Hedges.
  destruct (shift_env_feeding (length (heap s)) 1 (fun t => Fin (x t)) resp)
    as (Hext & Hin & _).
  fold ev in Hext, Hin.
  assert (Hfin : ∀ t, ∃ q, ext_in (shift_env (length (heap s)) ev) 1 t = Fin q).
  { intros t'. exists (x t'). apply Hin. }
  destruct (times_above t d Hpos) as [n Hn].
  destruct (plain_delay mx d Hpos Hmax _ Hheap Hedges _ Hext Hfin n t Hn)
    as [Hl Hr].
  rewrite Hin in Hl. split.
  - exact (settles_extend s _ _ 3 _ _ Hwf Hl).
  - exact (settles_extend s _ _ 4 _ _ Hwf Hr).
Qed.

Lemma PingPongDelay_without_feedback_witness :
  ∃ s',
    PingPongDelay_new jsnum seconds_of_number (Fin (Q2Qc (1 # 4))) jone
      (Fin 0) demo_engine = Ok (PingPongDelay_at 6) s'
    ∧ settles s' (feeding 7 (fun t => Fin (t + 1)) (fun _ => jzero)) 9 1
        (Fin (1 - Q2Qc (1 # 4) + 1))
    ∧ settles s' (feeding 7 (fun t => Fin (t + 1)) (fun _ => jzero)) 10 1 jzero.
Proof.
  destruct (PingPongDelay_without_feedback jsnum seconds_of_number
              (Fin (Q2Qc (1 # 4))) jone (Q2Qc (1 # 4))
              demo_engine wf_demo eq_refl eq_refl eq_refl)
    as (s' & Hnew & Hall).
  exists s'. split; [exact Hnew|].
  exact (Hall (fun t => t + 1) (fun _ => jzero) 1).
Defined.

(** ** The follower's choice of frequency *)

Lemma Qc_leb_scaled (e m : Qc) :
  Qc_leb ((e + - m) * Qc_of_Z 10000) 0 = Qc_leb e m.
Proof.
  assert (Hc : 0 < Qc_of_Z 10000) by reflexivity.
  destruct (Qc_leb e m) eqn:E.
  - apply Qc_leb_le. apply Qc_leb_le in E.
    replace 0 with (0 * Qc_of_Z 10000) by ring.
    apply Qcmult_le_compat_r; [|by apply Qclt_le_weak].
    apply (Qcplus_le_mono_r _ _ (- m)) in E.
    by rewrite Qcplus_opp_r in E.
  - apply Qc_leb_gt. apply Qc_leb_gt in E.
    replace 0 with (0 * Qc_of_Z 10000) by ring.
    apply Qcmult_lt_compat_r; [exact Hc|].
    apply (Qcplus_lt_mono_r _ _ (- m)) in E.
    by rewrite Qcplus_opp_r in E.
Qed.

(** X13.  The follower takes the attack frequency exactly when the
    smoothed signal, one block late, does not exceed the rectified
    input.  With a finite input sample of magnitude [m] and a finite
    late filter output [e], the frequency that reaches the filter is the
    attack frequency when [e <= m] and the release frequency when
    [e > m]: the gain of 10000 keeps the sign of the difference. *)
Theorem Follower_attack_when_rising (Time : Type) (toSeconds : Time -> jsnum)
    (secondsToFrequency : jsnum -> jsnum) (b : Qc) (attack release : Time)
    (s : engine) :
  wf s ->
  jle jzero (Fin b) && jle (Fin b) jone = true ->
  let k := length (heap s) in
  let A := Math_max (secondsToFrequency (toSeconds attack)) (Fin b) in
  let R := Math_max (secondsToFrequency (toSeconds release)) (Fin b) in
  ∃ s',
    Follower_new Time toSeconds secondsToFrequency (Fin b) attack release s =
      Ok (mkFollower k (Some (k + 3)%nat) (Some (k + 4)%nat) (Some (k + 5)%nat)
            (Some (k + 6)%nat) (Some (k + 7)%nat) (Some (k + 8)%nat)
            attack release) s'
    ∧ ∀ (x resp : Qc -> jsnum) (fuel : nat) (t m e : Qc),
        (5 ≤ fuel)%nat ->
        jabs (x t) = Fin m ->
        (if Qc_ltb t b then jzero else resp (t - b)) = Fin e ->
        computed_value fuel s' (feeding (k + 1) x resp) (k + 4) P_frequency t
        = Some (if Qc_leb e m then A else R).
Proof.
  intros Hwf Hb k A R. subst k A R.
  destruct (sim_run _ s _ _ _ _
              (sim_Follower_new s Hwf Time toSeconds secondsToFrequency (Fin b)
                 attack release)
              (Follower_new_alone Time toSeconds secondsToFrequency b attack release))
    as (f & Hrun & ->).
  eexists. split.
  { rewrite Hrun. unfold shift_Follower. cbn. by rewrite Nat.add_0_r. }
  intros x resp fuel t m e Hfuel Hm He.
  destruct (shift_env_feeding (length (heap s)) 1 x resp) as (Hext & Hin & Hbq).
  pose proof (Follower_signals b _ _ Hb _
                (Follower_alone_heap Time toSeconds secondsToFrequency b attack release)
                (Follower_alone_edges Time toSeconds secondsToFrequency b attack release)
                (shift_env (length (heap s)) (feeding (length (heap s) + 1) x resp))
                Hext fuel t Hfuel) as H.
  cbv zeta in H. rewrite Hin, !Hbq, Hm, He in H.
  destruct H as (_ & _ & _ & _ & _ & _ & H).
  rewrite (computed_value_extend s Hwf), H.
  unfold jsub, jneg, jadd, jmul, jle, jzero. by rewrite Qc_leb_scaled.
Qed.

Lemma Follower_attack_when_rising_witness :
  ∃ s',
    Follower_new jsnum seconds_of_number reciprocal demo_bufferTime
      (Fin (Q2Qc (5 # 100))) (Fin (Q2Qc (5 # 10))) demo_engine =
      Ok (mkFollower 6 (Some 9%nat) (Some 10%nat) (Some 11%nat) (Some 12%nat)
            (Some 13%nat) (Some 14%nat) (Fin (Q2Qc (5 # 100)))
            (Fin (Q2Qc (5 # 10)))) s'
    ∧ computed_value 5 s' (feeding 7 (fun _ => Fin (- (1))) (fun _ => jzero)) 10
        P_frequency 1
      = Some (Math_max (reciprocal (seconds_of_number (Fin (Q2Qc (5 # 100)))))
                demo_bufferTime).
Proof.
  destruct (Follower_attack_when_rising jsnum seconds_of_number reciprocal
              (Q2Qc (128 # 44100)) (Fin (Q2Qc (5 # 100))) (Fin (Q2Qc (5 # 10)))
              demo_engine wf_demo eq_refl)
    as (s' & Hnew & Hall).
  exists s'. split; [exact Hnew|].
  apply (Hall (fun _ => Fin (- (1))) (fun _ => jzero) 5%nat 1 1 0).
  - lia.
  - vm_compute. first [reflexivity | f_equal; by apply Qc_is_canon].
  - reflexivity.
Defined.

(** ** The comparator with a signal as threshold *)




Section TwoSignals.

Variable v : jsnum.
Variable k src : nat.
Variable G : engine.
Variable ev : env.

Hypothesis Hsub : heap G !! (k + 1)%nat = Some (USubtract v).
Hypothesis Hgtz : heap G !! (k + 2)%nat = Some UGreaterThanZero.
Hypothesis Hi10 : incoming G (RInput (k + 1) 0) = [].
Hypothesis Hi11 :
  incoming G (RInput (k + 1) 1) = [mkEdge src 0 (RInput (k + 1) 1)].
Hypothesis Hi20 :
  incoming G (RInput (k + 2) 0) = [mkEdge (k + 1) 0 (RInput (k + 2) 0)].



End TwoSignals.


